(** * NPUW partitioned-inference executor: kernels and request orchestration

    A shallow embedding of
    - [util.cpp]: the 4-bit packed accessors, [transpose], [gather], [view];
    - [just_sync_infer_request.cpp]: wiring, closure unpacking, spatial
      execution, the function pipeline and the failover loop.

    Conventions.  [std::size_t] values are [N] with the wrap-around modulo
    2^64 written out ([wrap64]); bytes are [N] below 256; [std::vector] is
    [list] read with stdpp's lookup, an access outside the vector (undefined
    behaviour in the source) is an explicit outcome of the model. *)

From stdpp Require Import base numbers option list strings gmap.
From Stdlib Require Import NArith ZArith Lia.

(** ** Part I: tensor kernels ([util.cpp]) *)

Module Util.

Local Open Scope N_scope.

(** [std::size_t] arithmetic is modulo 2^64. *)
Definition wrap64 (x : N) : N := x mod 2 ^ 64.

(** Conversion to [uint8_t]. *)
Definition to_u8 (x : N) : N := x mod 256.

(** [inline uint8_t hi4(uint8_t x) { return x >> 4; }] *)
Definition hi4 (x : N) : N := to_u8 (N.shiftr x 4).

(** [inline uint8_t lo4(uint8_t x) { return x & 0xF; }] *)
Definition lo4 (x : N) : N := to_u8 (N.land x 15).

(** [ov::element::Type] as far as the kernels distinguish it. *)
Inductive element_type :=
  | f32 | f16 | bf16
  | i4 | u4 | i8 | u8 | i16 | u16 | i32 | u32 | i64 | u64.

#[global] Instance element_type_eq_dec : EqDecision element_type.
Proof. solve_decision. Defined.

(** [ov::element::Type::size()]: bytes per element, sub-byte types round up. *)
Definition type_size (ty : element_type) : N :=
  match ty with
  | f32 | i32 | u32 => 4
  | f16 | bf16 | i16 | u16 => 2
  | i4 | u4 | i8 | u8 => 1
  | i64 | u64 => 8
  end.

Definition bitwidth (ty : element_type) : N :=
  match ty with
  | i4 | u4 => 4
  | _ => 8 * type_size ty
  end.

Definition shape_size (shape : list N) : N := foldr N.mul 1 shape.

(** Bytes held by a dense tensor of the given type and shape. *)
Definition byte_size (ty : element_type) (shape : list N) : N :=
  (shape_size shape * bitwidth ty + 7) / 8.

(** A host tensor with its contents: what the kernels read and write. *)
Record HostTensor := mkHostTensor {
  ht_type : element_type;
  ht_shape : list N;
  ht_data : list N;
}.

(** A tensor object owns [byte_size] bytes, each below 256, and lives in a
    64-bit address space. *)
Definition well_formed (t : HostTensor) : Prop :=
  N.of_nat (length (ht_data t)) = byte_size (ht_type t) (ht_shape t)
  ∧ byte_size (ht_type t) (ht_shape t) < 2 ^ 64
  ∧ Forall (λ b, b < 256) (ht_data t).

(** What running a kernel gives: a result, a failed [NPUW_ASSERT], or an
    access outside a buffer (undefined behaviour in the source). *)
Inductive Outcome (A : Type) :=
  | Done (a : A)
  | AssertFailed
  | OutOfBounds.
Arguments Done {A} a.
Arguments AssertFailed {A}.
Arguments OutOfBounds {A}.

Definition obind {A B} (f : A → Outcome B) (o : Outcome A) : Outcome B :=
  match o with
  | Done a => f a
  | AssertFailed => AssertFailed
  | OutOfBounds => OutOfBounds
  end.

(** [for (std::size_t i = start; ...; i++)] running [n] times over a state
    that a failing body abandons. *)
Fixpoint for_range {S : Type} (n : nat) (i : N) (body : N → S → option S) (s : S)
  : option S :=
  match n with
  | O => Some s
  | S n' => s' ← body i s; for_range n' (N.succ i) body s'
  end.

Definition for_upto {S : Type} (bound : N) (body : N → S → option S) (s : S)
  : option S :=
  for_range (N.to_nat bound) 0 body s.

(** *** 4-bit packed accessors *)

(** [tread_4b(t, r, c, COLS)]: the byte at [r * COLS / 2 + c / 2], its low
    nibble for an even [c] and its high nibble otherwise. *)
Definition tread_4b (tdata : list N) (r c COLS : N) : option N :=
  let trow := wrap64 (r * COLS) / 2 in
  let telem := trow + c / 2 in
  b ← tdata !! N.to_nat telem;
  Some (if decide (c mod 2 = 0) then lo4 b else hi4 b).

(** [twrite_4b(t, value, r, c, COLS)]: rewrites one nibble of that byte. *)
Definition twrite_4b (tdata : list N) (value r c COLS : N) : option (list N) :=
  let trow := wrap64 (r * COLS) / 2 in
  let telem := trow + c / 2 in
  b ← tdata !! N.to_nat telem;
  let b' :=
    if decide (c mod 2 = 0)
    then to_u8 (N.lor (N.shiftl (hi4 b) 4) (lo4 value))
    else to_u8 (N.lor (N.shiftl (lo4 value) 4) (lo4 b)) in
  Some (<[N.to_nat telem := b']> tdata).

(** [ov::Tensor tnew(type, shape)]: fresh storage is not initialised; its
    bytes are whatever [garbage] says. *)
Definition alloc (garbage : nat → N) (ty : element_type) (shape : list N)
  : HostTensor :=
  {| ht_type := ty;
     ht_shape := shape;
     ht_data := (λ k, to_u8 (garbage k)) <$> seq 0 (N.to_nat (byte_size ty shape)) |}.

(** The double loop of [transpose]: every element [(i, j)] of the
    [IN_ROWS x IN_COLS] input is written to [(j, i)] of the output. *)
Definition transpose_loop (src : list N) (IN_ROWS IN_COLS : N) (dst : list N)
  : option (list N) :=
  for_upto IN_ROWS (λ i d,
    for_upto IN_COLS (λ j d',
      value ← tread_4b src i j IN_COLS;
      twrite_4b d' value j i IN_ROWS) d) dst.

(** [void transpose(ov::Tensor& t)] *)
Definition transpose (garbage : nat → N) (t : HostTensor) : Outcome HostTensor :=
  match ht_shape t with
  | [s0; s1; s2] =>
      if decide (ht_type t = i4) then
        let tshape := [s2; s0; s1] in
        let tnew := alloc garbage (ht_type t) tshape in
        let IN_ROWS := wrap64 (s0 * s1) in
        let IN_COLS := s2 in
        match transpose_loop (ht_data t) IN_ROWS IN_COLS (ht_data tnew) with
        | Some d => Done {| ht_type := ht_type t; ht_shape := tshape; ht_data := d |}
        | None => OutOfBounds
        end
      else AssertFailed
  | _ => AssertFailed
  end.

(** Three transpositions in a row, each into fresh storage. *)
Definition transpose3 (g1 g2 g3 : nat → N) (t : HostTensor) : Outcome HostTensor :=
  obind (transpose g3) (obind (transpose g2) (transpose g1 t)).

(** *** Gather *)

(** The index tensor of [gather], with the [int64_t] elements that
    [idx->data<int64_t>()] exposes. *)
Record IndexTensor := mkIndexTensor {
  it_type : element_type;
  it_shape : list N;
  it_vals : list Z;
}.

Definition index_well_formed (idx : IndexTensor) : Prop :=
  N.of_nat (length (it_vals idx)) = shape_size (it_shape idx)
  ∧ Forall (λ z, (- 2 ^ 63 ≤ z < 2 ^ 63)%Z) (it_vals idx).

(** Conversion of an [int64_t] operand to [std::size_t]. *)
Definition to_size_t (z : Z) : N := Z.to_N (z mod 2 ^ 64).

(** [std::copy_n] reads [n] bytes at [off]; no byte is touched when [n = 0]. *)
Definition read_bytes (d : list N) (off n : N) : option (list N) :=
  if decide (n = 0) then Some []
  else if decide (off + n ≤ N.of_nat (length d))
       then Some (take (N.to_nat n) (drop (N.to_nat off) d))
       else None.

(** ... and writes them at [off]. *)
Definition write_bytes (d : list N) (off : N) (bytes : list N) : option (list N) :=
  if decide (bytes = []) then Some d
  else if decide (off + N.of_nat (length bytes) ≤ N.of_nat (length d))
       then Some (take (N.to_nat off) d ++ bytes
                    ++ drop (N.to_nat off + length bytes) d)
       else None.

(** One iteration of the row loop of [gather]; the state is the write
    cursor [pDst] (a byte offset into [dst]) and the contents of [dst]. *)
Definition gather_row (src_data : list N) (pIdx : list Z)
    (src_cols dst_cols elem_size : N) (r : N) (st : N * list N)
  : option (N * list N) :=
  let '(pDst, d) := st in
  srcRowIdx ← pIdx !! N.to_nat r;
  let pSrcRow := wrap64 (wrap64 (src_cols * to_size_t srcRowIdx) * elem_size) in
  bytes ← read_bytes src_data pSrcRow (wrap64 (src_cols * elem_size));
  d' ← write_bytes d pDst bytes;
  Some (pDst + wrap64 (dst_cols * elem_size), d').

(** [void gather(src, idx, dst)] *)
Definition gather (src : HostTensor) (idx : IndexTensor) (dst : HostTensor)
  : Outcome HostTensor :=
  let src_type := ht_type src in
  let dst_type := ht_type dst in
  if negb (bool_decide (it_type idx = i64)) then AssertFailed
  else if negb (bool_decide (src_type = f16) || bool_decide (src_type = f32))
  then AssertFailed
  else if negb (bool_decide (src_type = dst_type)) then AssertFailed
  else match it_shape idx with
  | [i0; i1] =>
    if negb (bool_decide (i0 = 1)) then AssertFailed
    else match ht_shape src with
    | [s0; s1] =>
      match ht_shape dst with
      | [d0; d1; d2] =>
        if negb (bool_decide (s1 = d2)) then AssertFailed
        else
          match for_upto i1
                  (gather_row (ht_data src) (it_vals idx) s1 d2 (type_size src_type))
                  (0, ht_data dst) with
          | Some (_, d) =>
              Done {| ht_type := dst_type; ht_shape := ht_shape dst; ht_data := d |}
          | None => OutOfBounds
          end
      | _ => AssertFailed
      end
    | _ => AssertFailed
    end
  | _ => AssertFailed
  end.

(** *** Views *)

(** A tensor as the orchestrator handles it ([ov::SoPtr<ov::ITensor>]): its
    type, shape and byte strides, and where its data starts (an allocation
    and a byte offset into it).  Two handles denote the same underlying
    tensor when these agree. *)
Record Tensor := mkTensor {
  t_type : element_type;
  t_shape : list N;
  t_strides : list N;
  t_buf : nat;
  t_ptr : N;
}.

#[global] Instance Tensor_eq_dec : EqDecision Tensor.
Proof. solve_decision. Defined.

(** [ptr += strides[d] * from[d]] for [d] in [0, num_dims): the product is
    taken in [std::size_t] and the pointer is a 64-bit address, so both the
    product and the sum wrap. *)
Fixpoint shift_ptr (strides from : list N) (ptr : N) : option N :=
  match from with
  | [] => Some ptr
  | f :: from' =>
      match strides with
      | st :: strides' =>
          shift_ptr strides' from' (wrap64 (ptr + wrap64 (st * f)))
      | [] => None
      end
  end.

(** [view(src, from, to)].  The result is made by the constructor
    [ov::Tensor(type, view_shape, ptr, strides)], which is not among the
    sources: following the specification (4.1) it is taken to return the
    strided view over the storage it is given. *)
Definition view_from_to (src : Tensor) (from to : list N) : Outcome Tensor :=
  if negb (bool_decide (length from = length to)) then AssertFailed
  else if negb (bool_decide (t_type src ≠ u4) && bool_decide (t_type src ≠ i4))
  then AssertFailed
  else
    let view_shape := zip_with (λ t f, wrap64 (t + 2 ^ 64 - f)) to from in
    match shift_ptr (t_strides src) from (t_ptr src) with
    | Some ptr =>
        Done {| t_type := t_type src; t_shape := view_shape;
                t_strides := t_strides src; t_buf := t_buf src; t_ptr := ptr |}
    | None => OutOfBounds
    end.

(** [view(src, dim, offset, len)] *)
Definition view (src : Tensor) (dim : nat) (offset len : N) : Outcome Tensor :=
  let shape := t_shape src in
  if decide (dim < length shape)%nat then
    let view_start := <[dim := offset]> (replicate (length shape) 0) in
    let view_end := <[dim := wrap64 (offset + len)]> shape in
    view_from_to src view_start view_end
  else OutOfBounds.

(** *** Text helpers *)

(** [str.substr(0, prefix.size()) == prefix] *)
Definition starts_with (str prefix : string) : bool :=
  bool_decide (String.substring 0 (String.length prefix) str = prefix).

(** The loop [while (total /= 10) regs++] of [fmt], which a [std::size_t]
    leaves after at most twenty turns. *)
Fixpoint fmt_regs (fuel : nat) (total regs : N) : N :=
  match fuel with
  | O => regs
  | S fuel' =>
      let total' := total / 10 in
      if decide (total' = 0) then regs
      else fmt_regs fuel' total' (wrap64 (regs + 1))
  end.

(** [ss << number] for a [std::size_t]: its decimal digits, the most
    significant first. *)
Fixpoint decimal_digits (fuel : nat) (n : N) (acc : list N) : list N :=
  match fuel with
  | O => acc
  | S fuel' =>
      let acc' := n mod 10 :: acc in
      if decide (n / 10 = 0) then acc' else decimal_digits fuel' (n / 10) acc'
  end.

Definition digit_char (d : N) : Ascii.ascii := Ascii.ascii_of_N (48 + d).

(** [std::setfill(fill) << std::setw(width)]: a shorter text is padded on
    the left, a longer one is left as it is. *)
Definition setw_fill (width : N) (fill : Ascii.ascii) (text : list Ascii.ascii)
  : list Ascii.ascii :=
  replicate (N.to_nat width - length text)%nat fill ++ text.

(** [std::string fmt(std::size_t number, std::size_t total)] *)
Definition fmt (number total : N) : string :=
  let regs := fmt_regs 64 total 1 in
  String.string_of_list_ascii
    (setw_fill regs (digit_char 0) (digit_char <$> decimal_digits 64 number [])).

End Util.

(** ** Part II: the inference request ([just_sync_infer_request.cpp]) *)

Module Request.
Import Util.

(** *** Data model *)

(** A port of a compiled submodel: [inputs()[i]] or [outputs()[i]]. *)
Inductive Port :=
  | PIn (i : nat)
  | POut (i : nat).

#[global] Instance Port_eq_dec : EqDecision Port.
Proof. solve_decision. Defined.

Record PortInfo := mkPortInfo {
  port_type : element_type;
  port_shape : list N;
}.

(** [ov::ICompiledModel]: the ports are all the request reads of it. *)
Record CompiledModel := mkCompiledModel {
  cm_inputs : list PortInfo;
  cm_outputs : list PortInfo;
}.

Record SpatialParam := mkSpatialParam {
  sp_idx : nat;
  sp_dim : nat;
}.

Record Spatial := mkSpatial {
  sp_params : list SpatialParam;
  sp_out_dim : nat;
  sp_range : N;
  sp_nway : N;
  sp_nway_iters : N;
  sp_tail_size : N;
}.

Record HostGather := mkHostGather {
  hg_dst_idx : Z;
  hg_src_idx : Z;
  hg_idx_idx : Z;
}.

(** [CompiledModel::CompiledModelDesc].  [device_it] is a position in the
    device list; an [ov::Tensor] that tests false is [None]. *)
Record CompiledModelDesc := mkDesc {
  compiled_model : option CompiledModel;
  replaced_by : option nat;
  device_it : nat;
  param_base : nat;
  closure : list Tensor;
  update_required : list bool;
  scales : list (option Tensor);
  zerops : list (option Tensor);
  host_gather : HostGather;
  spatial : option Spatial;
}.

(** A subrequest handle: who it is and which tensor each port is bound to
    ([get_tensor]); [set_tensor] rebinds a port. *)
Record Subrequest := mkSubrequest {
  rq_id : nat;
  rq_inputs : list Tensor;
  rq_outputs : list Tensor;
}.

Record FuncallPipeline := mkFuncallPipeline {
  fp_subrequest : option Subrequest;
  fp_next : option nat;
}.

(** [std::map]s of global index to subrequest index, in key order. *)
Record GlobalIO := mkGlobalIO {
  global_params : list (nat * nat);
  global_results : list (nat * nat);
}.

Record SpatialIO := mkSpatialIO {
  sio_inputs : list (option Tensor);
  sio_input_tails : list (option Tensor);
  sio_outputs : list (option Tensor);
  sio_output_tails : list (option Tensor);
}.

(** Calls to collaborators, in the order the request makes them. *)
Inductive Event :=
  | ESetTensor (rq : nat) (p : Port) (t : Tensor)
  | EInfer (rq : nat)
  | EStartAsync (rq : nat)
  | EWait (rq : nat)
  | ECancel (rq : nat)
  | ESetCallback (rq : nat)
  | ECopy (src dst : Tensor)
  | EUnpack (from to : Tensor)
  | EUnpack1 (from scale to : Tensor)
  | EUnpack2 (from zerop scale to : Tensor)
  | EGather (vocab lookup dst : Tensor)
  | ECompile (real_idx : nat)
  | ECreate (idx count : nat)
  | EWarn
  | EDumpIn (idx : nat)
  | EDumpOut (idx : nat).

#[global] Instance Event_eq_dec : EqDecision Event.
Proof. solve_decision. Defined.

(** The request together with the compiled model it shares
    ([m_npuw_model]).  [m_submodels_input_to_prev_output] is a [std::map]
    from (consumer, input) to (producer, output), here in key order.
    [failover] and [next_prepared] are the out-parameter and the local of
    [run_subrequest_for_success] that its callees write through references;
    [m_next_id] numbers the handles the factory has made. *)
Record State := mkState {
  m_compiled_submodels : list CompiledModelDesc;
  m_dev_list : list string;
  m_submodels_input_to_prev_output : list ((nat * nat) * (nat * nat));
  m_input_tensors : list Tensor;
  m_output_tensors : list Tensor;
  m_use_function_pipelining : bool;
  m_subrequests : list (option Subrequest);
  m_subrequest_devices : list string;
  m_funcall_pipeline : list FuncallPipeline;
  m_funcall_heads : list nat;
  m_funcall_result : gmap (nat * nat) Tensor;
  m_spatial_io : list SpatialIO;
  m_subrequests_gio : list GlobalIO;
  m_now_idx : option nat;
  m_next_id : nat;
  failover : bool;
  next_prepared : bool;
  m_trace : list Event;
}.

(** Field updates. *)
Definition set_compiled_submodels (v : list CompiledModelDesc) (s : State) : State :=
  mkState v (m_dev_list s) (m_submodels_input_to_prev_output s) (m_input_tensors s)
    (m_output_tensors s) (m_use_function_pipelining s) (m_subrequests s)
    (m_subrequest_devices s) (m_funcall_pipeline s) (m_funcall_heads s)
    (m_funcall_result s) (m_spatial_io s) (m_subrequests_gio s) (m_now_idx s)
    (m_next_id s) (failover s) (next_prepared s) (m_trace s).

Definition set_subrequests (v : list (option Subrequest)) (s : State) : State :=
  mkState (m_compiled_submodels s) (m_dev_list s) (m_submodels_input_to_prev_output s)
    (m_input_tensors s) (m_output_tensors s) (m_use_function_pipelining s) v
    (m_subrequest_devices s) (m_funcall_pipeline s) (m_funcall_heads s)
    (m_funcall_result s) (m_spatial_io s) (m_subrequests_gio s) (m_now_idx s)
    (m_next_id s) (failover s) (next_prepared s) (m_trace s).

Definition set_subrequest_devices (v : list string) (s : State) : State :=
  mkState (m_compiled_submodels s) (m_dev_list s) (m_submodels_input_to_prev_output s)
    (m_input_tensors s) (m_output_tensors s) (m_use_function_pipelining s)
    (m_subrequests s) v (m_funcall_pipeline s) (m_funcall_heads s)
    (m_funcall_result s) (m_spatial_io s) (m_subrequests_gio s) (m_now_idx s)
    (m_next_id s) (failover s) (next_prepared s) (m_trace s).

Definition set_funcall_pipeline (v : list FuncallPipeline) (s : State) : State :=
  mkState (m_compiled_submodels s) (m_dev_list s) (m_submodels_input_to_prev_output s)
    (m_input_tensors s) (m_output_tensors s) (m_use_function_pipelining s)
    (m_subrequests s) (m_subrequest_devices s) v (m_funcall_heads s)
    (m_funcall_result s) (m_spatial_io s) (m_subrequests_gio s) (m_now_idx s)
    (m_next_id s) (failover s) (next_prepared s) (m_trace s).

Definition set_funcall_heads (v : list nat) (s : State) : State :=
  mkState (m_compiled_submodels s) (m_dev_list s) (m_submodels_input_to_prev_output s)
    (m_input_tensors s) (m_output_tensors s) (m_use_function_pipelining s)
    (m_subrequests s) (m_subrequest_devices s) (m_funcall_pipeline s) v
    (m_funcall_result s) (m_spatial_io s) (m_subrequests_gio s) (m_now_idx s)
    (m_next_id s) (failover s) (next_prepared s) (m_trace s).

Definition set_funcall_result (v : gmap (nat * nat) Tensor) (s : State) : State :=
  mkState (m_compiled_submodels s) (m_dev_list s) (m_submodels_input_to_prev_output s)
    (m_input_tensors s) (m_output_tensors s) (m_use_function_pipelining s)
    (m_subrequests s) (m_subrequest_devices s) (m_funcall_pipeline s)
    (m_funcall_heads s) v (m_spatial_io s) (m_subrequests_gio s) (m_now_idx s)
    (m_next_id s) (failover s) (next_prepared s) (m_trace s).

Definition set_spatial_io (v : list SpatialIO) (s : State) : State :=
  mkState (m_compiled_submodels s) (m_dev_list s) (m_submodels_input_to_prev_output s)
    (m_input_tensors s) (m_output_tensors s) (m_use_function_pipelining s)
    (m_subrequests s) (m_subrequest_devices s) (m_funcall_pipeline s)
    (m_funcall_heads s) (m_funcall_result s) v (m_subrequests_gio s) (m_now_idx s)
    (m_next_id s) (failover s) (next_prepared s) (m_trace s).

Definition set_subrequests_gio (v : list GlobalIO) (s : State) : State :=
  mkState (m_compiled_submodels s) (m_dev_list s) (m_submodels_input_to_prev_output s)
    (m_input_tensors s) (m_output_tensors s) (m_use_function_pipelining s)
    (m_subrequests s) (m_subrequest_devices s) (m_funcall_pipeline s)
    (m_funcall_heads s) (m_funcall_result s) (m_spatial_io s) v (m_now_idx s)
    (m_next_id s) (failover s) (next_prepared s) (m_trace s).

Definition set_next_id (v : nat) (s : State) : State :=
  mkState (m_compiled_submodels s) (m_dev_list s) (m_submodels_input_to_prev_output s)
    (m_input_tensors s) (m_output_tensors s) (m_use_function_pipelining s)
    (m_subrequests s) (m_subrequest_devices s) (m_funcall_pipeline s)
    (m_funcall_heads s) (m_funcall_result s) (m_spatial_io s) (m_subrequests_gio s)
    (m_now_idx s) v (failover s) (next_prepared s) (m_trace s).

Definition set_failover (v : bool) (s : State) : State :=
  mkState (m_compiled_submodels s) (m_dev_list s) (m_submodels_input_to_prev_output s)
    (m_input_tensors s) (m_output_tensors s) (m_use_function_pipelining s)
    (m_subrequests s) (m_subrequest_devices s) (m_funcall_pipeline s)
    (m_funcall_heads s) (m_funcall_result s) (m_spatial_io s) (m_subrequests_gio s)
    (m_now_idx s) (m_next_id s) v (next_prepared s) (m_trace s).

Definition set_next_prepared (v : bool) (s : State) : State :=
  mkState (m_compiled_submodels s) (m_dev_list s) (m_submodels_input_to_prev_output s)
    (m_input_tensors s) (m_output_tensors s) (m_use_function_pipelining s)
    (m_subrequests s) (m_subrequest_devices s) (m_funcall_pipeline s)
    (m_funcall_heads s) (m_funcall_result s) (m_spatial_io s) (m_subrequests_gio s)
    (m_now_idx s) (m_next_id s) (failover s) v (m_trace s).

Definition set_trace (v : list Event) (s : State) : State :=
  mkState (m_compiled_submodels s) (m_dev_list s) (m_submodels_input_to_prev_output s)
    (m_input_tensors s) (m_output_tensors s) (m_use_function_pipelining s)
    (m_subrequests s) (m_subrequest_devices s) (m_funcall_pipeline s)
    (m_funcall_heads s) (m_funcall_result s) (m_spatial_io s) (m_subrequests_gio s)
    (m_now_idx s) (m_next_id s) (failover s) (next_prepared s) v.

(** *** Outcomes and the request monad *)

(** C++ exceptions the request can see. *)
Inductive Exn :=
  | FatalLink (from to : nat)
  | NoDevicesLeft
  | OutOfRange
  | BadOptional
  | SubrequestFailed (rq : nat).

#[global] Instance Exn_eq_dec : EqDecision Exn.
Proof. solve_decision. Defined.

(** A call returns, throws (the state is the one at the throw: nothing is
    rolled back), aborts on a failed assertion, or runs into undefined
    behaviour (a null handle dereferenced, a vector read outside its bounds). *)
Inductive Res (A : Type) :=
  | Ok (a : A) (s : State)
  | Throw (e : Exn) (s : State)
  | Abort
  | Undefined.
Arguments Ok {A} a s.
Arguments Throw {A} e s.
Arguments Abort {A}.
Arguments Undefined {A}.

Definition M (A : Type) : Type := State → Res A.

Definition ret {A} (a : A) : M A := λ s, Ok a s.

Definition bind {A B} (m : M A) (f : A → M B) : M B :=
  λ s, match m s with
       | Ok a s' => f a s'
       | Throw e s' => Throw e s'
       | Abort => Abort
       | Undefined => Undefined
       end.

Declare Scope req_scope.
Delimit Scope req_scope with req.
Notation "'let*' x := m 'in' k" := (bind m (λ x, k))
  (at level 10, x name, m at level 100, k at level 200, only parsing) : req_scope.
Notation "m ;; k" := (bind m (λ _, k))
  (at level 100, k at level 200, right associativity, only parsing) : req_scope.
Local Open Scope req_scope.

Definition get : M State := λ s, Ok s s.
Definition modify (f : State → State) : M unit := λ s, Ok tt (f s).
Definition throw {A} (e : Exn) : M A := λ s, Throw e s.
Definition abort {A} : M A := λ _, Abort.
Definition undefined {A} : M A := λ _, Undefined.

(** Modelled from the spec: [NPUW_ASSERT] ([logging.hpp] is not among the
    sources); a failed assertion is an abort, never a recoverable error. *)
Definition NPUW_ASSERT (b : bool) : M unit := if b then ret tt else abort.

(** [v[i]] on a vector, [*p] on a pointer: undefined outside. *)
Definition deref {A} (o : option A) : M A :=
  match o with Some a => ret a | None => undefined end.

(** [m.at(k)]: throws [std::out_of_range]. *)
Definition at_ {A} (o : option A) : M A :=
  match o with Some a => ret a | None => throw OutOfRange end.

(** [o.value()]: throws [std::bad_optional_access]. *)
Definition value {A} (o : option A) : M A :=
  match o with Some a => ret a | None => throw BadOptional end.

Fixpoint for_each {A} (l : list A) (body : A → M unit) : M unit :=
  match l with
  | [] => ret tt
  | x :: l' => (body x ;; for_each l' body)%req
  end.

(** [try { m } catch (...) { handler }] *)
Definition try_catch {A} (m : M A) (handler : Exn → M A) : M A :=
  λ s, match m s with
       | Throw e s' => handler e s'
       | r => r
       end.

Definition emit (e : Event) : M unit :=
  modify (λ s, set_trace (m_trace s ++ [e]) s).

(** *** Collaborators

    What the request calls but does not define: the subrequests' execution
    (does running handle [rq] throw), [CompiledModel::compile_for_success]
    (a member of the compiled model: it gives the submodel descriptors it
    leaves and whether a device was found), the copy policy [needs_copy] and
    the successor [next] of the base class, the weights bank, and the
    tensors a new subrequest owns. *)
Record Env := mkEnv {
  exec_throws : State → nat → bool;
  compile_for_success : nat → State → list CompiledModelDesc * bool;
  needs_copy : State → nat → bool;
  next : State → nat → nat;
  wbank_get : Tensor → string → Tensor;
  own_tensor : nat → Port → PortInfo → Tensor;
}.

(** *** Handles and ports *)

(** Where a handle lives: [m_subrequests[i]] or
    [m_funcall_pipeline[i].subrequest]. *)
Inductive RqRef :=
  | Primary (i : nat)
  | Reserve (i : nat).

Definition slot (s : State) (r : RqRef) : option (option Subrequest) :=
  match r with
  | Primary i => m_subrequests s !! i
  | Reserve i => fp_subrequest <$> m_funcall_pipeline s !! i
  end.

Definition put_slot (r : RqRef) (v : option Subrequest) (s : State) : State :=
  match r with
  | Primary i => set_subrequests (<[i := v]> (m_subrequests s)) s
  | Reserve i =>
      set_funcall_pipeline
        (alter (λ fp, mkFuncallPipeline v (fp_next fp)) i (m_funcall_pipeline s)) s
  end.

Definition bound (rq : Subrequest) (p : Port) : option Tensor :=
  match p with
  | PIn i => rq_inputs rq !! i
  | POut i => rq_outputs rq !! i
  end.

Definition rebind (rq : Subrequest) (p : Port) (t : Tensor) : Subrequest :=
  match p with
  | PIn i => mkSubrequest (rq_id rq) (<[i := t]> (rq_inputs rq)) (rq_outputs rq)
  | POut i => mkSubrequest (rq_id rq) (rq_inputs rq) (<[i := t]> (rq_outputs rq))
  end.

(** [m_compiled_submodels[idx]] *)
Definition desc (idx : nat) : M CompiledModelDesc :=
  let* s := get in deref (m_compiled_submodels s !! idx).

(** [real(idx)] = [replaced_by.value_or(idx)] *)
Definition real (idx : nat) : M nat :=
  let* d := desc idx in ret (default idx (replaced_by d)).

(** [cm->inputs()[i]] and [cm->outputs()[i]] through a possibly null [cm]. *)
Definition input_port (cm : option CompiledModel) (i : nat) : M Port :=
  let* m := deref cm in
  let* _ := deref (cm_inputs m !! i) in
  ret (PIn i).

Definition output_port (cm : option CompiledModel) (i : nat) : M Port :=
  let* m := deref cm in
  let* _ := deref (cm_outputs m !! i) in
  ret (POut i).

(** [r->...] on a handle slot. *)
Definition subreq (r : RqRef) : M Subrequest :=
  let* s := get in
  let* p := deref (slot s r) in
  deref p.

Definition get_tensor (r : RqRef) (p : Port) : M Tensor :=
  let* rq := subreq r in deref (bound rq p).

Definition set_tensor (r : RqRef) (p : Port) (t : Tensor) : M unit :=
  let* rq := subreq r in
  let* _ := deref (bound rq p) in
  modify (put_slot r (Some (rebind rq p t))) ;;
  emit (ESetTensor (rq_id rq) p t).

Section with_collaborators.
Context (E : Env).

Definition infer (r : RqRef) : M unit :=
  let* rq := subreq r in
  emit (EInfer (rq_id rq)) ;;
  let* s := get in
  if exec_throws E s (rq_id rq) then throw (SubrequestFailed (rq_id rq)) else ret tt.

Definition start_async (r : RqRef) : M unit :=
  let* rq := subreq r in emit (EStartAsync (rq_id rq)).

Definition wait (r : RqRef) : M unit :=
  let* rq := subreq r in
  emit (EWait (rq_id rq)) ;;
  let* s := get in
  if exec_throws E s (rq_id rq) then throw (SubrequestFailed (rq_id rq)) else ret tt.

(** *** Wiring *)

(** The body of the loop of [connect_subrequests], for one entry of
    [m_submodels_input_to_prev_output]. *)
Definition connect_link (l : (nat * nat) * (nat * nat)) : M unit :=
  let '((subm_idx_to, port_idx_to), (subm_idx_from, port_idx_from)) := l in
  let* dfrom := desc subm_idx_from in
  let* dto := desc subm_idx_to in
  match replaced_by dfrom, replaced_by dto with
  | Some _, Some _ => ret tt
  | Some _, None =>
      let* rq := subreq (Primary subm_idx_to) in
      let* _ := deref (rq_inputs rq !! port_idx_to) in
      let* s := get in
      let* tensor := at_ (m_funcall_result s !! (subm_idx_from, port_idx_from)) in
      set_tensor (Primary subm_idx_to) (PIn port_idx_to) tensor
  | None, Some _ => ret tt
  | None, None =>
      let* s := get in
      let* rfrom := deref (m_subrequests s !! subm_idx_from) in
      let* rto := deref (m_subrequests s !! subm_idx_to) in
      match rfrom, rto with
      | None, Some _ => throw (FatalLink subm_idx_from subm_idx_to)
      | _, None => emit EWarn
      | Some pfrom, Some pto =>
          let* _ := deref (rq_inputs pto !! port_idx_to) in
          let* tensor := deref (rq_outputs pfrom !! port_idx_from) in
          set_tensor (Primary subm_idx_to) (PIn port_idx_to) tensor
      end
  end.

Definition connect_subrequests : M unit :=
  let* s := get in
  for_each (m_submodels_input_to_prev_output s) connect_link.

(** [update_subrequest_links(idx)] *)
Definition update_subrequest_links (idx : nat) : M unit := connect_subrequests.

(** *** Closure unpacking *)

Fixpoint fold_m {A B} (l : list A) (body : A → B → M B) (b : B) : M B :=
  match l with
  | [] => ret b
  | x :: l' => let* b' := body x b in fold_m l' body b'
  end.

(** First loop of [unpack_closure]: sort [cidx] into the unpack list or the
    copy list, or rebind it at once. *)
Definition classify_closure (idx : nat) (request : RqRef)
    (comp_model_desc func_desc : CompiledModelDesc)
    (cidx : nat) (acc : list nat * list nat) : M (list nat * list nat) :=
  let '(closure_unpack_required, closure_copy_required) := acc in
  let* cl := deref (closure comp_model_desc !! cidx) in
  let closure_param_id := param_base comp_model_desc + cidx in
  let* iport := input_port (compiled_model func_desc) closure_param_id in
  let* clparam := get_tensor request iport in
  if bool_decide (t_type cl ≠ t_type clparam) then
    ret (closure_unpack_required ++ [cidx], closure_copy_required)
  else
    let* upd := deref (update_required comp_model_desc !! cidx) in
    if (upd : bool) then
      let* s := get in
      if needs_copy E s idx then
        ret (closure_unpack_required, closure_copy_required ++ [cidx])
      else
        set_tensor request iport cl ;; ret acc
    else ret acc.

(** Body of the [parallel_for] over the copy list, taken in index order. *)
Definition copy_closure (request : RqRef)
    (comp_model_desc func_desc : CompiledModelDesc) (cidx : nat) : M unit :=
  let* cl := deref (closure comp_model_desc !! cidx) in
  let closure_param_id := param_base comp_model_desc + cidx in
  let* iport := input_port (compiled_model func_desc) closure_param_id in
  let* clparam := get_tensor request iport in
  emit (ECopy cl clparam).

(** Body of the last loop: pick the kernel by [scales] and [zerops]. *)
Definition unpack_one (request : RqRef)
    (comp_model_desc func_desc : CompiledModelDesc) (cidx : nat) : M unit :=
  let* cl := deref (closure comp_model_desc !! cidx) in
  let closure_param_id := param_base comp_model_desc + cidx in
  let* iport := input_port (compiled_model func_desc) closure_param_id in
  let* clparam := get_tensor request iport in
  let* scale :=
    match scales comp_model_desc with
    | [] => ret None
    | _ => deref (scales comp_model_desc !! cidx)
    end in
  match scale with
  | Some sc =>
      let* zerop := deref (zerops comp_model_desc !! cidx) in
      match zerop with
      | Some zp => emit (EUnpack2 cl zp sc clparam)
      | None => emit (EUnpack1 cl sc clparam)
      end
  | None => emit (EUnpack cl clparam)
  end.

(** [unpack_closure(idx, request)] *)
Definition unpack_closure (idx : nat) (request : RqRef) : M unit :=
  let* comp_model_desc := desc idx in
  NPUW_ASSERT (bool_decide (is_Some (replaced_by comp_model_desc))) ;;
  let real_idx := default idx (replaced_by comp_model_desc) in
  let* func_desc := desc real_idx in
  let* lists :=
    fold_m (seq 0 (length (closure comp_model_desc)))
      (classify_closure idx request comp_model_desc func_desc) ([], []) in
  for_each (snd lists) (copy_closure request comp_model_desc func_desc) ;;
  for_each (fst lists) (unpack_one request comp_model_desc func_desc).

(** *** Spatial execution *)

Definition spatial_io (real_idx : nat) : M SpatialIO :=
  let* s := get in deref (m_spatial_io s !! real_idx).

(** A kernel outcome seen from the request. *)
Definition lift_outcome {A} (o : Outcome A) : M A :=
  match o with
  | Done a => ret a
  | AssertFailed => abort
  | OutOfBounds => undefined
  end.

(** [ov::npuw::util::view(p, dim, offset, len)] on a tensor pointer. *)
Definition view_of (p : option Tensor) (dim : nat) (offset len : N) : M Tensor :=
  let* t := deref p in lift_outcome (view t dim offset len).

(** [for (i = 0; i < nway_iters; i++, offset += nway)]: runs [body] at each
    offset and leaves the offset the loop ends with. *)
Fixpoint spatial_loop (iters : nat) (nway offset : N) (body : N → M unit) : M N :=
  match iters with
  | O => ret offset
  | S iters' => body offset ;; spatial_loop iters' nway (wrap64 (offset + nway)) body
  end.

(** One full-[nway] step of [unsafe_infer] at [offset]. *)
Definition spatial_step (real_idx : nat) (cm : option CompiledModel)
    (sp : Spatial) (num_outputs : nat) (offset : N) : M unit :=
  let r := Primary real_idx in
  for_each (sp_params sp) (λ param,
    let* iport := input_port cm (sp_idx param) in
    let* io := spatial_io real_idx in
    let* full := at_ (sio_inputs io !! sp_idx param) in
    let* v := view_of full (sp_dim param) offset (sp_nway sp) in
    set_tensor r iport v) ;;
  for_each (seq 0 num_outputs) (λ out_idx,
    let* oport := output_port cm out_idx in
    let* io := spatial_io real_idx in
    let* full := at_ (sio_outputs io !! out_idx) in
    let* v := view_of full (sp_out_dim sp) offset (sp_nway sp) in
    set_tensor r oport v) ;;
  infer r.

(** The tail of [unsafe_infer], at the offset the loop ended with. *)
Definition spatial_tail (real_idx : nat) (cm : option CompiledModel)
    (sp : Spatial) (num_outputs : nat) (offset : N) : M unit :=
  let r := Primary real_idx in
  for_each (sp_params sp) (λ param,
    let* io := spatial_io real_idx in
    let* full := at_ (sio_inputs io !! sp_idx param) in
    let* in_view := view_of full (sp_dim param) offset (sp_tail_size sp) in
    let* iport := input_port cm (sp_idx param) in
    let* tail := at_ (sio_input_tails io !! sp_idx param) in
    let* out_view := view_of tail (sp_dim param) 0 (sp_tail_size sp) in
    emit (ECopy in_view out_view) ;;
    let* t := deref tail in
    set_tensor r iport t) ;;
  for_each (seq 0 num_outputs) (λ out_idx,
    let* oport := output_port cm out_idx in
    let* io := spatial_io real_idx in
    let* tail := at_ (sio_output_tails io !! out_idx) in
    let* t := deref tail in
    set_tensor r oport t) ;;
  infer r ;;
  for_each (seq 0 num_outputs) (λ out_idx,
    let* _ := output_port cm out_idx in
    let* io := spatial_io real_idx in
    let* tail := at_ (sio_output_tails io !! out_idx) in
    let* in_view := view_of tail (sp_out_dim sp) 0 (sp_tail_size sp) in
    let* full := at_ (sio_outputs io !! out_idx) in
    let* out_view := view_of full (sp_out_dim sp) offset (sp_tail_size sp) in
    emit (ECopy in_view out_view)).

(** [unsafe_infer(real_idx)] *)
Definition unsafe_infer (real_idx : nat) : M unit :=
  let* comp_model_desc := desc real_idx in
  let r := Primary real_idx in
  match spatial comp_model_desc with
  | None => infer r
  | Some sp =>
      let* cm := deref (compiled_model comp_model_desc) in
      let num_outputs := length (cm_outputs cm) in
      (* full_in_shapes[param.idx] = inputs.at(param.idx)->get_shape() *)
      for_each (sp_params sp) (λ param,
        let* io := spatial_io real_idx in
        let* full := at_ (sio_inputs io !! sp_idx param) in
        let* _ := deref full in
        if bool_decide (sp_idx param < param_base comp_model_desc)
        then ret tt else undefined) ;;
      let* offset :=
        spatial_loop (N.to_nat (sp_nway_iters sp)) (sp_nway sp) 0
          (spatial_step real_idx (Some cm) sp num_outputs) in
      if bool_decide (sp_tail_size sp ≠ 0%N)
      then spatial_tail real_idx (Some cm) sp num_outputs offset
      else ret tt
  end.

(** *** Global parameters and results *)

(** [m_spatial_io[real_idx].inputs.at(i) = t] *)
Definition set_spatial_input (real_idx i : nat) (t : Tensor) : M unit :=
  let* io := spatial_io real_idx in
  let* _ := at_ (sio_inputs io !! i) in
  modify (λ s, set_spatial_io
    (<[real_idx := mkSpatialIO (<[i := Some t]> (sio_inputs io)) (sio_input_tails io)
                     (sio_outputs io) (sio_output_tails io)]> (m_spatial_io s)) s).

(** [m_spatial_io[real_idx].outputs.at(i) = t] *)
Definition set_spatial_output (real_idx i : nat) (t : Tensor) : M unit :=
  let* io := spatial_io real_idx in
  let* _ := at_ (sio_outputs io !! i) in
  modify (λ s, set_spatial_io
    (<[real_idx := mkSpatialIO (sio_inputs io) (sio_input_tails io)
                     (<[i := Some t]> (sio_outputs io)) (sio_output_tails io)]>
       (m_spatial_io s)) s).

(** An index computed from an [int64_t] in unsigned arithmetic: a negative
    value wraps to one outside every vector. *)
Definition index_of_Z (z : Z) : option nat :=
  if bool_decide (0 ≤ z)%Z then Some (Z.to_nat z) else None.

(** The subrequest [bind_global_parameters] works on: the reserve while the
    same body executes under function pipelining, else the primary. *)
Definition pick_subrequest (real_idx : nat) : M RqRef :=
  let* s := get in
  match m_now_idx s with
  | Some now =>
      let* real_now := real now in
      if bool_decide (real_idx = real_now) && m_use_function_pipelining s then
        let* fp := deref (m_funcall_pipeline s !! real_idx) in
        NPUW_ASSERT (bool_decide (is_Some (fp_subrequest fp))) ;;
        ret (Reserve real_idx)
      else ret (Primary real_idx)
  | None => ret (Primary real_idx)
  end.

(** [bind_global_parameters(idx)] *)
Definition bind_global_parameters (idx : nat) : M unit :=
  let* comp_model_desc := desc idx in
  let real_idx := default idx (replaced_by comp_model_desc) in
  let* s0 := get in
  let do_copy := needs_copy E s0 idx in
  let* iodesc := at_ (m_subrequests_gio s0 !! idx) in
  let* proto_comp_model_desc := desc real_idx in
  let is_spatial_param (sub_in_idx : nat) : bool :=
    match spatial proto_comp_model_desc with
    | None => false
    | Some sp => existsb (λ p, bool_decide (sp_idx p = sub_in_idx)) (sp_params sp)
    end in
  let* subr := pick_subrequest real_idx in
  let* copy_list :=
    fold_m (global_params iodesc) (λ it copy_list,
      let '(param_idx, sub_in_idx) := it in
      let* s := get in
      let* g_tnsr := deref (m_input_tensors s !! param_idx) in
      let* rq := subreq subr in
      let* _ := deref (rq_inputs rq !! sub_in_idx) in
      let s_port := PIn sub_in_idx in
      if negb (is_spatial_param sub_in_idx) then
        if do_copy then ret (copy_list ++ [(g_tnsr, s_port)])
        else set_tensor subr s_port g_tnsr ;; ret copy_list
      else
        set_spatial_input real_idx sub_in_idx g_tnsr ;; ret copy_list) [] in
  for_each copy_list (λ it,
    let* dst := get_tensor subr (snd it) in
    emit (ECopy (fst it) dst)) ;;
  if bool_decide (hg_dst_idx (host_gather comp_model_desc) ≠ (-1)%Z) then
    let hg := host_gather comp_model_desc in
    let pb := Z.of_nat (param_base comp_model_desc) in
    let* dst := deref (i ← index_of_Z (hg_dst_idx hg - pb);
                      closure comp_model_desc !! i) in
    let* vocab := deref (i ← index_of_Z (hg_src_idx hg - pb);
                        closure comp_model_desc !! i) in
    let* li := deref (index_of_Z (hg_idx_idx hg)) in
    let* lport := input_port (compiled_model comp_model_desc) li in
    let* lookup := get_tensor subr lport in
    emit (EGather vocab lookup dst)
  else ret tt.

(** [bind_global_results(idx)] *)
Definition bind_global_results (idx : nat) : M unit :=
  let* comp_model_desc := desc idx in
  match replaced_by comp_model_desc with
  | Some _ => ret tt
  | None =>
      let* s0 := get in
      let* iodesc := at_ (m_subrequests_gio s0 !! idx) in
      for_each (global_results iodesc) (λ it,
        let '(result_idx, sub_out_idx) := it in
        let* s := get in
        let* g_tnsr := deref (m_output_tensors s !! result_idx) in
        let* rq := subreq (Primary idx) in
        let* _ := deref (rq_outputs rq !! sub_out_idx) in
        set_tensor (Primary idx) (POut sub_out_idx) g_tnsr)
  end.

(** *** Function calls *)

(** [m_submodels_input_to_prev_output.find({idx, i})] *)
Definition find_link (s : State) (key : nat * nat) : option (nat * nat) :=
  found ← list_find (λ kv, fst kv = key) (m_submodels_input_to_prev_output s);
  Some (snd (snd found)).

(** [function_prologue(idx)] *)
Definition function_prologue (idx : nat) : M unit :=
  let* comp_model_desc := desc idx in
  NPUW_ASSERT (bool_decide (is_Some (replaced_by comp_model_desc))) ;;
  let real_idx := default idx (replaced_by comp_model_desc) in
  let* func_desc := desc real_idx in
  let is_spatial := bool_decide (is_Some (spatial func_desc)) in
  for_each (seq 0 (param_base func_desc)) (λ i,
    let* iport := input_port (compiled_model func_desc) i in
    let* s := get in
    match find_link s (idx, i) with
    | Some (prod_idx, prod_port) =>
        let* prod_desc := desc prod_idx in
        let* i_tensor :=
          match replaced_by prod_desc with
          | None =>
              let* oport := output_port (compiled_model prod_desc) prod_port in
              get_tensor (Primary prod_idx) oport
          | Some _ => at_ (m_funcall_result s !! (prod_idx, prod_port))
          end in
        if is_spatial then set_spatial_input real_idx i i_tensor
        else set_tensor (Primary real_idx) iport i_tensor
    | None => ret tt
    end) ;;
  let* s1 := get in
  (if m_use_function_pipelining s1 then ret tt
   else unpack_closure idx (Primary real_idx)) ;;
  let* cm := deref (compiled_model func_desc) in
  for_each (seq 0 (length (cm_outputs cm))) (λ i,
    let* oport := output_port (Some cm) i in
    let* s := get in
    let* o_tensor := at_ (m_funcall_result s !! (idx, i)) in
    if is_spatial then set_spatial_output real_idx i o_tensor
    else set_tensor (Primary real_idx) oport o_tensor).

(** *** Execution of one subgraph *)

(** [unsafe_during(real_idx, f)].  In the spatial case [f] runs on a helper
    thread whose exception stays in the [std::future] (only [wait()] is
    called on it); the model takes the interleaving in which [f] finishes
    before the spatial loop starts. *)
Definition unsafe_during (real_idx : nat) (f : M unit) : M unit :=
  let* comp_model_desc := desc real_idx in
  match spatial comp_model_desc with
  | None =>
      let r := Primary real_idx in
      start_async r ;; f ;; wait r
  | Some _ =>
      try_catch f (λ _, ret tt) ;;
      unsafe_infer real_idx
  end.

(** The preparation of the next subgraph that the lambdas share. *)
Definition prepare_next (next_idx : nat) : M unit :=
  let* s := get in
  if next_prepared s then ret tt
  else bind_global_parameters next_idx ;; modify (set_next_prepared true).

(** [unsafe_run_this_prep_next(idx, next_prepared)] *)
Definition unsafe_run_this_prep_next (idx : nat) : M unit :=
  let* comp_model_desc := desc idx in
  let real_idx := default idx (replaced_by comp_model_desc) in
  let* s := get in
  let next_idx := next E s (idx + 1) in
  match replaced_by comp_model_desc with
  | Some _ =>
      let* real_next := real next_idx in
      if bool_decide (real_idx = real_next) then
        if m_use_function_pipelining s then
          let* fp := deref (m_funcall_pipeline s !! idx) in
          let* nx := value (fp_next fp) in
          NPUW_ASSERT (bool_decide (nx = next_idx)) ;;
          unsafe_during real_idx
            (bind_global_parameters next_idx ;;
             unpack_closure next_idx (Reserve real_idx))
        else
          unsafe_infer real_idx ;;
          bind_global_parameters next_idx
      else if bool_decide (next_idx = 0) then unsafe_infer real_idx
      else
        unsafe_during real_idx
          (prepare_next next_idx ;;
           let* s' := get in
           if m_use_function_pipelining s' then
             let* fp := deref (m_funcall_pipeline s' !! idx) in
             match fp_next fp with
             | Some my_next_idx => unpack_closure my_next_idx (Reserve real_idx)
             | None => ret tt
             end
           else ret tt)
  | None =>
      if bool_decide (next_idx = 0) then unsafe_infer real_idx
      else unsafe_during real_idx (prepare_next next_idx)
  end.

(** *** Failover *)

(** The handle the factory makes for a compiled model: every port bound to
    a tensor of its own. *)
Definition new_subrequest (id : nat) (cm : CompiledModel) : Subrequest :=
  mkSubrequest id
    (imap (λ i pi, own_tensor E id (PIn i) pi) (cm_inputs cm))
    (imap (λ i pi, own_tensor E id (POut i) pi) (cm_outputs cm)).

(** Modelled from the spec: the subrequest factory [create_infer_requests]
    of the base class, which is not among the sources: [count] new handles
    for the body that subgraph [idx] runs. *)
Definition create_infer_requests (idx count : nat) : M (list Subrequest) :=
  let* real_idx := real idx in
  let* func_desc := desc real_idx in
  let* cm := deref (compiled_model func_desc) in
  let* s := get in
  modify (set_next_id (m_next_id s + count)) ;;
  emit (ECreate idx count) ;;
  ret ((λ id, new_subrequest id cm) <$> seq (m_next_id s) count).

(** [*comp_model_desc.device_it] *)
Definition device_of (idx : nat) : M string :=
  let* d := desc idx in
  let* s := get in
  deref (m_dev_list s !! device_it d).

(** [v[i] = x] on a vector. *)
Definition assign {A} (l : list A) (i : nat) (x : A) : M (list A) :=
  if bool_decide (i < length l) then ret (<[i := x]> l) else undefined.

(** [recreate_subrequests(idx)] *)
Definition recreate_subrequests (idx : nat) : M unit :=
  let* comp_model_desc := desc idx in
  let real_idx := default idx (replaced_by comp_model_desc) in
  let* s := get in
  let pipelining := m_use_function_pipelining s in
  let* new_rqs := create_infer_requests idx (if pipelining then 2 else 1) in
  let* rq0 := at_ (new_rqs !! 0) in
  let* s1 := get in
  let* subrequests := assign (m_subrequests s1) real_idx (Some rq0) in
  modify (set_subrequests subrequests) ;;
  (if bool_decide (is_Some (replaced_by comp_model_desc)) && pipelining then
     let* rq1 := at_ (new_rqs !! 1) in
     let* s2 := get in
     let* _ := deref (m_funcall_pipeline s2 !! real_idx) in
     modify (put_slot (Reserve real_idx) (Some rq1))
   else ret tt) ;;
  connect_subrequests ;;
  let* dev := device_of idx in
  let* s3 := get in
  let* devices := assign (m_subrequest_devices s3) idx dev in
  modify (set_subrequest_devices devices).

(** [comp_model_desc.device_it++] *)
Definition advance_device (d : CompiledModelDesc) : CompiledModelDesc :=
  mkDesc (compiled_model d) (replaced_by d) (S (device_it d)) (param_base d)
    (closure d) (update_required d) (scales d) (zerops d) (host_gather d) (spatial d).

(** One turn of the [while (!job_done)] loop; the result is [job_done]. *)
Definition run_pass (idx real_idx : nat) (dump_in : bool) : M bool :=
  let* s := get in
  let* recorded := deref (m_subrequest_devices s !! real_idx) in
  let* current := device_of real_idx in
  (if bool_decide (recorded ≠ current) then recreate_subrequests real_idx
   else ret tt) ;;
  bind_global_results idx ;;
  let* comp_model_desc := desc idx in
  (if bool_decide (is_Some (replaced_by comp_model_desc))
   then function_prologue idx else ret tt) ;;
  (if dump_in then ret tt else emit (EDumpIn idx)) ;;
  let* job_done :=
    try_catch (unsafe_run_this_prep_next idx ;; ret true) (λ _, ret false) in
  if (job_done : bool) then ret true
  else
    modify (set_failover true) ;;
    let* s1 := get in
    let* d := desc idx in
    modify (set_compiled_submodels (<[idx := advance_device d]> (m_compiled_submodels s1))) ;;
    emit (ECompile real_idx) ;;
    let* s2 := get in
    let '(submodels, compiled) := compile_for_success E real_idx s2 in
    modify (set_compiled_submodels submodels) ;;
    if (compiled : bool) then recreate_subrequests idx ;; ret false
    else throw NoDevicesLeft.

(** The loop itself; [false] means the loop was still turning when the
    fuel ran out. *)
Fixpoint run_loop (fuel : nat) (idx real_idx : nat) (dump_in : bool) : M bool :=
  match fuel with
  | O => ret false
  | S fuel' =>
      let* job_done := run_pass idx real_idx dump_in in
      if (job_done : bool) then ret true
      else run_loop fuel' idx real_idx true
  end.

(** [std::swap(m_subrequests[real_idx], m_funcall_pipeline[real_idx].subrequest)] *)
Definition swap_handles (real_idx : nat) : M unit :=
  let* s := get in
  let* primary := deref (m_subrequests s !! real_idx) in
  let* fp := deref (m_funcall_pipeline s !! real_idx) in
  modify (put_slot (Primary real_idx) (fp_subrequest fp)) ;;
  modify (put_slot (Reserve real_idx) primary).

(** What follows the loop once the job is done. *)
Definition finish_job (idx real_idx : nat) : M unit :=
  emit (EDumpOut idx) ;;
  let* s := get in
  if m_use_function_pipelining s then
    let* fp := deref (m_funcall_pipeline s !! idx) in
    if bool_decide (is_Some (fp_next fp)) then swap_handles real_idx else ret tt
  else ret tt.

(** [run_subrequest_for_success(idx, failover)] *)
Definition run_subrequest_for_success (fuel : nat) (idx : nat) : M bool :=
  modify (set_failover false) ;;
  let* real_idx := real idx in
  modify (set_next_prepared false) ;;
  let* job_done := run_loop fuel idx real_idx false in
  if (job_done : bool) then finish_job idx real_idx ;; ret true
  else ret false.

(** *** The rest of the interface *)

(** [get_real_subrequest(idx)] *)
Definition get_real_subrequest (idx : nat) : M (option Subrequest) :=
  let* real_idx := real idx in
  let* s := get in
  deref (m_subrequests s !! real_idx).

(** [valid_subrequest(idx)] *)
Definition valid_subrequest (idx : nat) : M bool :=
  let* p := get_real_subrequest idx in
  ret (bool_decide (is_Some p)).

(** [start_subrequest(idx)] *)
Definition start_subrequest (idx : nat) : M unit :=
  start_async (Primary idx).

(** [subscribe_subrequest(idx, cb)] *)
Definition subscribe_subrequest (idx : nat) : M unit :=
  let* p := get_real_subrequest idx in
  let* rq := deref p in
  emit (ESetCallback (rq_id rq)).

(** [complete_subrequest(idx)] *)
Definition complete_subrequest (idx : nat) : M unit := ret tt.

(** [cancel_subrequest(idx)] *)
Definition cancel_subrequest (idx : nat) : M unit :=
  let* rq := subreq (Primary idx) in
  emit (ECancel (rq_id rq)).

(** [total_subrequests()] *)
Definition total_subrequests (s : State) : nat := length (m_subrequests s).

(** [supports_async_pipeline()] *)
Definition supports_async_pipeline : bool := false.

(** [prepare_for_infer()] *)
Definition prepare_for_infer : M unit :=
  let* s := get in
  bind_global_parameters (next E s 0) ;;
  for_each (m_funcall_heads s) (λ id, unpack_closure id (Primary id)).

(** *** Construction *)

(** The loop of the constructor that finds the heads of the function
    pipeline and links each call to the next call of the same body. *)
Definition pipeline_step (i : nat) (prevs : list (option nat))
  : M (list (option nat)) :=
  let* comp_model_desc := desc i in
  match replaced_by comp_model_desc with
  | Some real_id =>
      let* prev := deref (prevs !! real_id) in
      match prev with
      | None =>
          modify (λ s, set_funcall_heads (m_funcall_heads s ++ [i]) s)
      | Some prev_id =>
          let* s := get in
          let* fp := deref (m_funcall_pipeline s !! prev_id) in
          modify (set_funcall_pipeline
                    (<[prev_id := mkFuncallPipeline (fp_subrequest fp) (Some i)]>
                       (m_funcall_pipeline s)))
      end ;;
      ret (<[real_id := Some i]> prevs)
  | None => ret prevs
  end.

Definition setup_funcall_pipeline : M unit :=
  let* s := get in
  if m_use_function_pipelining s then
    let m_num_submodels := length (m_compiled_submodels s) in
    let* _ := fold_m (seq 0 m_num_submodels) pipeline_step
                (replicate m_num_submodels None) in
    ret tt
  else ret tt.

(** The last loop of the constructor for subgraph [i]: closures that need
    no update are bound once, to the tensor the weights bank gives. *)
Definition preset_closures_of (i : nat) : M unit :=
  let* comp_model_desc := desc i in
  match compiled_model comp_model_desc, replaced_by comp_model_desc with
  | Some _, Some real_idx =>
      let* func_desc := desc real_idx in
      for_each (seq 0 (length (closure comp_model_desc))) (λ cidx,
        let* cl := deref (closure comp_model_desc !! cidx) in
        let closure_param_id := param_base comp_model_desc + cidx in
        let* iport := input_port (compiled_model func_desc) closure_param_id in
        let* upd := deref (update_required comp_model_desc !! cidx) in
        if (upd : bool) then ret tt
        else
          let* dev := device_of real_idx in
          set_tensor (Primary real_idx) iport (wbank_get E cl dev))
  | _, _ => ret tt
  end.

Definition preset_closures : M unit :=
  let* s := get in
  for_each (seq 0 (length (m_compiled_submodels s))) preset_closures_of.

End with_collaborators.

End Request.

(** ** Part III: concrete requests

    Small compiled models and requests on which the definitions above are
    run. *)

Module Scenario.
Import Util Request.
Local Open Scope N_scope.

(** A 3-D i4 tensor with an odd dimension, and one with even dimensions. *)
Definition odd_tensor : HostTensor := mkHostTensor i4 [1; 1; 2] [33].
Definition even_tensor : HostTensor := mkHostTensor i4 [2; 2; 2] [33; 67; 101; 135].

(** A one-row vocabulary, two lookups of row 0, and a destination of two
    rows laid out as [2, 1, 1]. *)
Definition gather_src : HostTensor := mkHostTensor f16 [1; 1] [1; 2].
Definition gather_idx : IndexTensor := mkIndexTensor i64 [1; 2] [0%Z; 0%Z].
Definition gather_dst : HostTensor := mkHostTensor f16 [2; 1; 1] [0; 0; 0; 0].

(** A one-row vocabulary of four f16 columns (eight bytes a row), one lookup
    of row [2 ^ 61], whose byte offset [4 * 2 ^ 61 * 2] wraps to zero, and
    a destination of one row. *)
Definition wide_src : HostTensor := mkHostTensor f16 [1; 4] [1; 2; 3; 4; 5; 6; 7; 8].
Definition far_idx : IndexTensor := mkIndexTensor i64 [1; 1] [(2 ^ 61)%Z].
Definition wide_dst : HostTensor := mkHostTensor f16 [1; 1; 4] [0; 0; 0; 0; 0; 0; 0; 0].

(** A vocabulary whose rows are empty, one lookup of row 5, and a
    destination of one empty row. *)
Definition empty_src : HostTensor := mkHostTensor f16 [1; 0] [].
Definition fifth_idx : IndexTensor := mkIndexTensor i64 [1; 1] [5%Z].
Definition empty_dst : HostTensor := mkHostTensor f16 [1; 1; 0] [].

(** A dense f16 tensor of four elements in allocation [buf]. *)
Definition tensor_in (buf : nat) : Tensor := mkTensor f16 [1; 4] [8; 2] buf 0.

(** A packed i4 weight of four elements in allocation [buf]. *)
Definition packed_in (buf : nat) : Tensor := mkTensor i4 [1; 4] [2; 1] buf 0.

Definition act_port : PortInfo := mkPortInfo f16 [1; 4].

Definition cm_plain : CompiledModel := mkCompiledModel [act_port] [act_port].
Definition cm_body : CompiledModel := mkCompiledModel [act_port; act_port] [act_port].

Definition no_gather : HostGather := mkHostGather (-1) (-1) (-1).

(** An optimized-out subgraph, a plain one, a function body with one
    closure, and a call to the body at index 1. *)
Definition desc_gone : CompiledModelDesc :=
  mkDesc None None 0 0 [] [] [] [] no_gather None.
Definition desc_plain : CompiledModelDesc :=
  mkDesc (Some cm_plain) None 0 0 [] [] [] [] no_gather None.
Definition desc_body : CompiledModelDesc :=
  mkDesc (Some cm_body) (Some 1%nat) 0 1 [tensor_in 21] [true] [] [] no_gather None.
Definition desc_call : CompiledModelDesc :=
  mkDesc None (Some 1%nat) 0 1 [tensor_in 22] [true] [] [] no_gather None.

(** Collaborators: the handles listed in [bad] throw when run; the
    compiler finds a device as long as the body's iterator has not run off
    the device list; tensors are bound, not copied; the successor wraps. *)
Definition env (bad : list nat) : Env :=
  {| exec_throws := λ _ rq, bool_decide (rq ∈ bad);
     compile_for_success := λ i s,
       (m_compiled_submodels s,
        match m_compiled_submodels s !! i with
        | Some d => bool_decide (device_it d < length (m_dev_list s))%nat
        | None => false
        end);
     needs_copy := λ _ _, false;
     next := λ s i, (i mod length (m_compiled_submodels s))%nat;
     wbank_get := λ t _, t;
     own_tensor := λ rq p pi,
       mkTensor (port_type pi) (port_shape pi) [8; 2]
         (100 * rq + match p with PIn i => i | POut i => 50 + i end) 0 |}.

(** The request as [m] leaves it. *)
Definition after {A} (m : M A) (s : State) : State :=
  match m s with
  | Ok _ s' | Throw _ s' => s'
  | Abort | Undefined => s
  end.

Definition handle (id : nat) (cm : CompiledModel) : Subrequest :=
  new_subrequest (env []) id cm.

Definition request_of (submodels : list CompiledModelDesc)
    (links : list ((nat * nat) * (nat * nat)))
    (subrequests : list (option Subrequest))
    (pipeline : list FuncallPipeline) (now : nat) : State :=
  {| m_compiled_submodels := submodels;
     m_dev_list := ["NPU"; "CPU"];
     m_submodels_input_to_prev_output := links;
     m_input_tensors := [tensor_in 1];
     m_output_tensors := [tensor_in 32];
     m_use_function_pipelining := bool_decide (pipeline ≠ []);
     m_subrequests := subrequests;
     m_subrequest_devices := replicate (length submodels) "NPU";
     m_funcall_pipeline := pipeline;
     m_funcall_heads := if bool_decide (pipeline ≠ []) then [1%nat] else [];
     m_funcall_result := {[ (1, 0)%nat := tensor_in 31; (2, 0)%nat := tensor_in 32 ]};
     m_spatial_io := replicate (length submodels) (mkSpatialIO [] [] [] []);
     m_subrequests_gio :=
       [mkGlobalIO [(0, 0)%nat] []; mkGlobalIO [] []; mkGlobalIO [] [(0, 0)%nat]];
     m_now_idx := Some now;
     m_next_id := 3;
     failover := false;
     next_prepared := false;
     m_trace := [] |}.

(** Subgraph 0 feeds the body 1, whose result feeds the call 2. *)
Definition chain_links : list ((nat * nat) * (nat * nat)) :=
  [((1, 0), (0, 0)); ((2, 0), (1, 0))]%nat.

Definition chain_subrequests : list (option Subrequest) :=
  [Some (handle 0 cm_plain); Some (handle 1 cm_body); None].

(** The chain without and with function pipelining, about to run [now]. *)
Definition request (now : nat) : State :=
  request_of [desc_plain; desc_body; desc_call] chain_links chain_subrequests [] now.

Definition pipelined_request (now : nat) : State :=
  request_of [desc_plain; desc_body; desc_call] chain_links chain_subrequests
    [mkFuncallPipeline None None;
     mkFuncallPipeline (Some (handle 2 cm_body)) (Some 2%nat);
     mkFuncallPipeline None None] now.

(** An optimized-out producer in front of a plain consumer ... *)
Definition gap_request : State :=
  request_of [desc_gone; desc_plain] [((1, 0), (0, 0))]%nat
    [None; Some (handle 1 cm_plain)] [] 0.

(** ... in front of a function body ... *)
Definition gap_body_request : State :=
  request_of [desc_gone; desc_body] [((1, 0), (0, 0))]%nat
    [None; Some (handle 1 cm_body)] [] 0.

(** ... and a plain producer in front of an optimized-out consumer. *)
Definition dangling_request : State :=
  request_of [desc_plain; desc_gone] [((1, 0), (0, 0))]%nat
    [Some (handle 0 cm_plain); None] [] 0.

(** Two plain subgraphs, the first feeding the second. *)
Definition linked_request : State :=
  request_of [desc_plain; desc_plain] [((1, 0), (0, 0))]%nat
    [Some (handle 0 cm_plain); Some (handle 1 cm_plain)] [] 0.

(** A function body between two plain subgraphs. *)
Definition call_then_plain_request : State :=
  request_of [desc_plain; desc_body; desc_plain] chain_links
    [Some (handle 0 cm_plain); Some (handle 1 cm_body); Some (handle 2 cm_plain)] [] 0.

(** A call to the body at index 1 which has no compiled model of its own
    and whose packed closure needs no update ... *)
Definition desc_frozen_call : CompiledModelDesc :=
  mkDesc None (Some 1%nat) 0 1 [packed_in 22] [false] [] [] no_gather None.

Definition frozen_call_request : State :=
  request_of [desc_plain; desc_body; desc_frozen_call] chain_links chain_subrequests [] 2.

(** ... and a body whose closure needs no update. *)
Definition desc_frozen_body : CompiledModelDesc :=
  mkDesc (Some cm_body) (Some 1%nat) 0 1 [tensor_in 21] [false] [] [] no_gather None.

Definition frozen_body_request : State :=
  request_of [desc_plain; desc_frozen_body; desc_call] chain_links chain_subrequests [] 1.

(** The body whose closure needs no update, called from a site whose
    packed closure needs none either. *)
Definition frozen_pair_request : State :=
  request_of [desc_plain; desc_frozen_body; desc_frozen_call] chain_links
    chain_subrequests [] 2.

(** The same body in a request whose tables wire global parameter 0 to
    input 1 of the body, the port of its closure. *)
Definition closure_fed_request : State :=
  set_subrequests_gio
    [mkGlobalIO [(0, 0)%nat] []; mkGlobalIO [(0, 1)%nat] [];
     mkGlobalIO [] [(0, 0)%nat]]
    frozen_body_request.

(** A body with a packed closure and its scale. *)
Definition desc_packed_body : CompiledModelDesc :=
  mkDesc (Some cm_body) (Some 1%nat) 0 1 [packed_in 21] [true]
    [Some (tensor_in 23)] [None] no_gather None.

Definition packed_body_request : State :=
  request_of [desc_plain; desc_packed_body; desc_call] chain_links chain_subrequests [] 1.

(** A spatial body: five columns taken two at a time, the last one in the
    tail. *)
Definition long_in (buf : nat) : Tensor := mkTensor f16 [1; 5] [10; 2] buf 0.
Definition slice_in (buf : nat) : Tensor := mkTensor f16 [1; 2] [10; 2] buf 0.
Definition slice_port : PortInfo := mkPortInfo f16 [1; 2].

Definition cm_spatial : CompiledModel :=
  mkCompiledModel [slice_port; act_port] [slice_port].

Definition spatial_of : Spatial := mkSpatial [mkSpatialParam 0 1] 1 5 2 2 1.

Definition desc_spatial : CompiledModelDesc :=
  mkDesc (Some cm_spatial) (Some 0%nat) 0 1 [tensor_in 21] [true] [] [] no_gather
    (Some spatial_of).

Definition spatial_slots : SpatialIO :=
  mkSpatialIO [Some (long_in 1)] [Some (slice_in 2)]
    [Some (long_in 3)] [Some (slice_in 4)].

Definition spatial_request : State :=
  set_spatial_io [spatial_slots]
    (request_of [desc_spatial] [] [Some (handle 0 cm_spatial)] [] 0).

End Scenario.


(** ** Part IV: what the theorems speak of

    Packed nibbles and the index map of a transposition; the frame a step of
    the request keeps; the runs of a spatial body and the treatment of
    closures as the specification words them. *)

Module UtilSpec.
Import Util.
Local Open Scope N_scope.

Definition valid_bytes (d : list N) : Prop := Forall (λ b, b < 256) d.

(** Nibble [k] of a packed buffer: low half of byte [k / 2] for an even [k]. *)
Definition nib (d : list N) (k : N) : option N :=
  b ← d !! N.to_nat (k / 2);
  Some (if decide (k mod 2 = 0) then lo4 b else hi4 b).

Definition set_nib (d : list N) (k value : N) : option (list N) :=
  b ← d !! N.to_nat (k / 2);
  let b' :=
    if decide (k mod 2 = 0)
    then to_u8 (N.lor (N.shiftl (hi4 b) 4) (lo4 value))
    else to_u8 (N.lor (N.shiftl (lo4 value) 4) (lo4 b)) in
  Some (<[N.to_nat (k / 2) := b']> d).

Definition inner_body (src : list N) (R C : N) (i j : N) (d : list N) : option (list N) :=
  value ← tread_4b src i j C; twrite_4b d value j i R.

(** Where element [k] of the [C x R] output comes from in the [R x C] input. *)
Definition rot (R C k : N) : N := (k mod R) * C + k / R.

(** The byte offset of the row that index [z] selects, as [gather] computes it. *)
Definition src_row_offset (cols elem_size : N) (z : Z) : N :=
  wrap64 (wrap64 (cols * to_size_t z) * elem_size).

(** What the assertions of [gather] demand, and nothing more. *)
Definition gather_preconditions (src : HostTensor) (idx : IndexTensor) (dst : HostTensor)
  : Prop :=
  it_type idx = i64
  ∧ (ht_type src = f16 ∨ ht_type src = f32)
  ∧ ht_type src = ht_type dst
  ∧ ∃ n s0 s1 d0 d1,
      it_shape idx = [1; n] ∧ ht_shape src = [s0; s1] ∧ ht_shape dst = [d0; d1; s1].

Definition in_bounds (src : HostTensor) (idx : IndexTensor) (dst : HostTensor) : Prop :=
  ∃ dst', gather src idx dst = Done dst'.

Definition indices_in_range (idx : IndexTensor) (s0 : N) : Prop :=
  ∀ r z, it_vals idx !! r = Some z → (0 ≤ z < Z.of_N s0)%Z.

(** A tensor [view] can slice: whole bytes per element, a stride for every
    dimension, extents that fit the machine word and a start that is a
    64-bit address. *)
Definition sliceable (t : Tensor) : Prop :=
  t_type t ≠ u4 ∧ t_type t ≠ i4
  ∧ (length (t_shape t) ≤ length (t_strides t))%nat
  ∧ Forall (λ n, n < 2 ^ 64) (t_shape t)
  ∧ t_ptr t < 2 ^ 64.

(** The slice of [t] along [dim] that starts [offset] elements in and is
    [len] long; [stride] is the byte stride of [dim].  The start is a 64-bit
    address: it moves by [stride * offset] bytes modulo [2 ^ 64]. *)
Definition slice (t : Tensor) (dim : nat) (stride offset len : N) : Tensor :=
  {| t_type := t_type t;
     t_shape := <[dim := len]> (t_shape t);
     t_strides := t_strides t;
     t_buf := t_buf t;
     t_ptr := wrap64 (t_ptr t + stride * offset) |}.

(** Byte [j] of row [r] of a buffer whose rows are [n] bytes long. *)
Definition row_byte (d : list N) (n r j : N) : option N := d !! N.to_nat (r * n + j).

(** Element [(i, j, k)] of a packed 4-bit tensor of rank 3, in row-major
    order. *)
Definition element3 (t : HostTensor) (i j k : N) : option N :=
  match ht_shape t with
  | [_; s1; s2] => nib (ht_data t) (i * (s1 * s2) + (j * s2 + k))
  | _ => None
  end.

(** The number a list of decimal digits denotes, the most significant
    first. *)
Definition digits_value (ds : list N) : N := foldl (λ a d, a * 10 + d) 0 ds.


End UtilSpec.

Module Frames.
Import Util Request.
Local Open Scope req_scope.

(** [preserves R m]: whenever [m] returns or throws, the state it leaves is
    related by [R] to the one it started from. *)
Definition preserves {A} (R : State → State → Prop) (m : M A) : Prop :=
  ∀ s, match m s with
       | Ok _ s' | Throw _ s' => R s s'
       | Abort | Undefined => True
       end.

(** The identities of the handles in the two slot vectors, and the links
    of the function pipeline. *)
Definition slot_id (o : option Subrequest) : option nat := rq_id <$> o.

Definition primary_ids (s : State) : list (option nat) :=
  slot_id <$> m_subrequests s.

Definition reserve_ids (s : State) : list (option nat) :=
  (λ fp, slot_id (fp_subrequest fp)) <$> m_funcall_pipeline s.

Definition pipeline_next (s : State) : list (option nat) :=
  fp_next <$> m_funcall_pipeline s.

(** Everything of the request but the bindings of its handles, the spatial
    placeholders, the two locals and the trace. *)
Definition same_frame (s s' : State) : Prop :=
  m_compiled_submodels s' = m_compiled_submodels s
  ∧ m_dev_list s' = m_dev_list s
  ∧ m_submodels_input_to_prev_output s' = m_submodels_input_to_prev_output s
  ∧ m_input_tensors s' = m_input_tensors s
  ∧ m_output_tensors s' = m_output_tensors s
  ∧ m_use_function_pipelining s' = m_use_function_pipelining s
  ∧ primary_ids s' = primary_ids s
  ∧ reserve_ids s' = reserve_ids s
  ∧ pipeline_next s' = pipeline_next s
  ∧ m_subrequest_devices s' = m_subrequest_devices s
  ∧ m_funcall_heads s' = m_funcall_heads s
  ∧ m_funcall_result s' = m_funcall_result s
  ∧ m_subrequests_gio s' = m_subrequests_gio s
  ∧ m_now_idx s' = m_now_idx s
  ∧ m_next_id s' = m_next_id s.

(** What [set_tensor] leaves when it succeeds. *)
Definition rebound (r : RqRef) (rq : Subrequest) (p : Port) (t : Tensor) (s : State)
  : State :=
  set_trace (m_trace s ++ [ESetTensor (rq_id rq) p t])
    (put_slot r (Some (rebind rq p t)) s).

Definition input_of (s : State) (i p : nat) : option Tensor :=
  rq ← mjoin (m_subrequests s !! i); rq_inputs rq !! p.

Definition output_of (s : State) (i p : nat) : option Tensor :=
  rq ← mjoin (m_subrequests s !! i); rq_outputs rq !! p.

(** What one link leaves at the consumer's port when it is wired. *)
Definition wired (s : State) (l : (nat * nat) * (nat * nat)) (t : Tensor) : Prop :=
  let '((to, pto), (from, pfrom)) := l in
  ∃ dfrom dto rt,
    m_compiled_submodels s !! from = Some dfrom
    ∧ m_compiled_submodels s !! to = Some dto
    ∧ replaced_by dto = None
    ∧ m_subrequests s !! to = Some (Some rt)
    ∧ match replaced_by dfrom with
      | None => output_of s from pfrom = Some t
      | Some _ => m_funcall_result s !! (from, pfrom) = Some t
      end.

(** No handle is ever dropped from the numbering, the pipeline links and
    the pipelining flag stay, and as long as no handle was made the slots
    hold the handles they held. *)
Definition handles_kept (s s' : State) : Prop :=
  m_next_id s ≤ m_next_id s'
  ∧ pipeline_next s' = pipeline_next s
  ∧ m_use_function_pipelining s' = m_use_function_pipelining s
  ∧ (m_next_id s' = m_next_id s →
     primary_ids s' = primary_ids s ∧ reserve_ids s' = reserve_ids s).

(** The pipeline links, the flag and the numbering: what the steps of
    [recreate_subrequests] after the factory leave alone. *)
Definition same_links (s s' : State) : Prop :=
  m_next_id s' = m_next_id s
  ∧ pipeline_next s' = pipeline_next s
  ∧ m_use_function_pipelining s' = m_use_function_pipelining s.

(** At least one handle was made. *)
Definition handles_made (s s' : State) : Prop :=
  m_next_id s < m_next_id s'
  ∧ pipeline_next s' = pipeline_next s
  ∧ m_use_function_pipelining s' = m_use_function_pipelining s.

(** The primary and the reserve handle of [real_idx] have changed places. *)
Definition swapped (real_idx : nat) (s s' : State) : Prop :=
  ∃ primary fp,
    m_subrequests s !! real_idx = Some primary
    ∧ m_funcall_pipeline s !! real_idx = Some fp
    ∧ m_subrequests s' = <[real_idx := fp_subrequest fp]> (m_subrequests s)
    ∧ m_funcall_pipeline s' =
        <[real_idx := mkFuncallPipeline primary (fp_next fp)]> (m_funcall_pipeline s).

Definition untouched (s s' : State) : Prop :=
  m_subrequests s' = m_subrequests s ∧ m_funcall_pipeline s' = m_funcall_pipeline s.

(** Does the pipeline record of [idx] name a next call? *)
Definition has_next (s : State) (idx : nat) : bool :=
  bool_decide (is_Some (m_funcall_pipeline s !! idx ≫= fp_next)).

(** By their identities: the primary and the reserve handle of [real_idx]
    in [s'] are the reserve and the primary handle of [real_idx] in [s], and
    every other slot holds the handle it held. *)
Definition exchanged (real_idx : nat) (s s' : State) : Prop :=
  primary_ids s' !! real_idx = reserve_ids s !! real_idx
  ∧ reserve_ids s' !! real_idx = primary_ids s !! real_idx
  ∧ ∀ j, j ≠ real_idx →
      primary_ids s' !! j = primary_ids s !! j
      ∧ reserve_ids s' !! j = reserve_ids s !! j.

End Frames.

Module SpatialSpec.
Import Util Request.
Local Open Scope req_scope.
Local Open Scope N_scope.

(** [view(slots[i], dim, offset, len)] when the slot is filled and the view
    exists. *)
Definition spec_view (slots : list (option Tensor)) (i dim : nat) (offset len : N)
  : option Tensor :=
  t ← mjoin (slots !! i);
  match view t dim offset len with Done v => Some v | _ => None end.

Section spec.
Context (rq : nat) (sp : Spatial) (io : SpatialIO) (num_outputs : nat).

(** Input [p] and output [o] bound to their [len]-slice at [offset]. *)
Definition spec_bind_input (offset len : N) (p : SpatialParam) : option (list Event) :=
  v ← spec_view (sio_inputs io) (sp_idx p) (sp_dim p) offset len;
  Some [ESetTensor rq (PIn (sp_idx p)) v].

Definition spec_bind_output (offset len : N) (o : nat) : option (list Event) :=
  v ← spec_view (sio_outputs io) o (sp_out_dim sp) offset len;
  Some [ESetTensor rq (POut o) v].

(** Iteration [k]: every spatial input and every output bound to its
    [nway]-slice at offset [k * nway], then one inference. *)
Definition spec_iteration (k : N) : option (list Event) :=
  ins ← mapM (spec_bind_input (k * sp_nway sp) (sp_nway sp)) (sp_params sp);
  outs ← mapM (spec_bind_output (k * sp_nway sp) (sp_nway sp)) (seq 0 num_outputs);
  Some (concat ins ++ concat outs ++ [EInfer rq]).

(** In the tail, the [tail_size]-slice of input [p] at [offset] is copied
    to offset 0 of its tail buffer, which is then bound whole ... *)
Definition spec_tail_input (offset : N) (p : SpatialParam) : option (list Event) :=
  in_view ← spec_view (sio_inputs io) (sp_idx p) (sp_dim p) offset (sp_tail_size sp);
  out_view ← spec_view (sio_input_tails io) (sp_idx p) (sp_dim p) 0 (sp_tail_size sp);
  tail ← mjoin (sio_input_tails io !! sp_idx p);
  Some [ECopy in_view out_view; ESetTensor rq (PIn (sp_idx p)) tail].

(** ... every output tail buffer is bound whole ... *)
Definition spec_tail_output (o : nat) : option (list Event) :=
  tail ← mjoin (sio_output_tails io !! o);
  Some [ESetTensor rq (POut o) tail].

(** ... and after the inference the [tail_size]-slice at offset 0 of each
    output tail buffer is copied back to [offset] of the full output. *)
Definition spec_tail_back (offset : N) (o : nat) : option (list Event) :=
  in_view ← spec_view (sio_output_tails io) o (sp_out_dim sp) 0 (sp_tail_size sp);
  out_view ← spec_view (sio_outputs io) o (sp_out_dim sp) offset (sp_tail_size sp);
  Some [ECopy in_view out_view].

Definition spec_tail : option (list Event) :=
  let offset := sp_nway_iters sp * sp_nway sp in
  ins ← mapM (spec_tail_input offset) (sp_params sp);
  outs ← mapM spec_tail_output (seq 0 num_outputs);
  backs ← mapM (spec_tail_back offset) (seq 0 num_outputs);
  Some (concat ins ++ concat outs ++ [EInfer rq] ++ concat backs).

(** [nway_iters] iterations, then the tail when [tail_size > 0]. *)
Definition spec_spatial : option (list Event) :=
  iters ← mapM spec_iteration (N.of_nat <$> seq 0 (N.to_nat (sp_nway_iters sp)));
  tail ← (if decide (0 < sp_tail_size sp) then spec_tail else Some []);
  Some (concat iters ++ tail).
End spec.

(** Inferences in a trace. *)
Definition count_infer (rq : nat) (evs : list Event) : nat :=
  length (filter (λ e, e = EInfer rq) evs).

(** While a body runs: its spatial placeholders are [io] and its primary
    handle is [rq]. *)
Definition running (real_idx rq : nat) (io : SpatialIO) (s : State) : Prop :=
  m_spatial_io s !! real_idx = Some io
  ∧ ∃ h, m_subrequests s !! real_idx = Some (Some h) ∧ rq_id h = rq.

End SpatialSpec.

Module ClosureSpec.
Import Util Request Frames.
Local Open Scope req_scope.

(** What happens to one closure index. *)
Inductive Treatment := Unpacked | Copied | Rebound | Untouched.

#[global] Instance Treatment_eq_dec : EqDecision Treatment.
Proof. solve_decision. Defined.

Section closure_spec.
Context (d : CompiledModelDesc) (h : Subrequest) (copy : bool).

(** The rules in their order: a differing element type asks for an
    unpack; else a closure that needs an update is copied when the
    subgraph needs copies and rebound otherwise; else nothing. *)
Definition treatment (c : nat) : option Treatment :=
  cl ← closure d !! c;
  clparam ← rq_inputs h !! (param_base d + c);
  if bool_decide (t_type cl ≠ t_type clparam) then Some Unpacked
  else
    upd ← update_required d !! c;
    Some (if (upd : bool) then if copy then Copied else Rebound else Untouched).

(** The kernel: [unpack2] with scale and zero point, [unpack1] with a
    scale only, plain [unpack] otherwise. *)
Definition unpack_event (cl clparam : Tensor) (c : nat) : Event :=
  match mjoin (scales d !! c), mjoin (zerops d !! c) with
  | Some sc, Some zp => EUnpack2 cl zp sc clparam
  | Some sc, None => EUnpack1 cl sc clparam
  | None, _ => EUnpack cl clparam
  end.

Definition treatment_event (what : Treatment) (cl clparam : Tensor) (c : nat)
  : list Event :=
  match what with
  | Unpacked => [unpack_event cl clparam c]
  | Copied => [ECopy cl clparam]
  | Rebound => [ESetTensor (rq_id h) (PIn (param_base d + c)) cl]
  | Untouched => []
  end.

(** The events of index [c] in the phase that carries out [what]. *)
Definition events_of (what : Treatment) (c : nat) : option (list Event) :=
  t ← treatment c;
  cl ← closure d !! c;
  clparam ← rq_inputs h !! (param_base d + c);
  Some (if decide (t = what) then treatment_event what cl clparam c else []).

(** Rebinds first, then the copies, then the unpacks, each in index
    order. *)
Definition spec_unpack_closure : option (list Event) :=
  let cs := seq 0 (length (closure d)) in
  rebinds ← mapM (events_of Rebound) cs;
  copies ← mapM (events_of Copied) cs;
  unpacks ← mapM (events_of Unpacked) cs;
  Some (concat rebinds ++ concat copies ++ concat unpacks).
End closure_spec.

(** While [unpack_closure] runs on [request]: the frame of [s0] is kept, the
    handle keeps its id, and the closure inputs in [keep] are bound as in
    [h]. *)
Definition agrees (request : RqRef) (d : CompiledModelDesc) (h : Subrequest)
    (keep : nat → Prop) (s0 s : State) : Prop :=
  same_frame s0 s
  ∧ ∃ h', slot s request = Some (Some h') ∧ rq_id h' = rq_id h
          ∧ ∀ c, keep c →
              rq_inputs h' !! (param_base d + c) = rq_inputs h !! (param_base d + c).

(** The tensors that the events [evs] bind to port [p] of handle [rq], in
    order. *)
Definition binds_of (rq : nat) (p : Port) (evs : list Event) : list Tensor :=
  omap (λ e, match e with
             | ESetTensor rq' p' t =>
                 if decide (rq' = rq ∧ p' = p) then Some t else None
             | _ => None
             end) evs.

(** Between two states, port [p] of handle [rq] was not bound. *)
Definition quiet (rq : nat) (p : Port) (s s' : State) : Prop :=
  ∃ evs, m_trace s' = m_trace s ++ evs ∧ binds_of rq p evs = [].

(** What the constructor's pass over a body does for closure [x]. *)
Definition preset_event (E : Env) (d : CompiledModelDesc) (h : Subrequest)
    (devices : list string) (x : nat) : option (list Event) :=
  cl ← closure d !! x;
  upd ← update_required d !! x;
  if (upd : bool) then Some []
  else dev ← devices !! device_it d;
       Some [ESetTensor (rq_id h) (PIn (param_base d + x)) (wbank_get E cl dev)].

(** While the pass runs: descriptor, device list and handle id stay. *)
Definition presetting (idx : nat) (d : CompiledModelDesc) (h : Subrequest)
    (devices : list string) (s : State) : Prop :=
  m_compiled_submodels s !! idx = Some d ∧ m_dev_list s = devices
  ∧ ∃ h', m_subrequests s !! idx = Some (Some h') ∧ rq_id h' = rq_id h.

End ClosureSpec.


(** ** Part V: theorems *)

(** [lia] reads [/] and [mod] through their Euclidean equations. *)
Ltac Zify.zify_post_hook ::= Z.to_euclidean_division_equations.

Module UtilFacts.
Import Util Scenario UtilSpec.
Local Open Scope N_scope.

(** ** Nibbles *)

Lemma below_forallb (P : N → bool) (n : nat) :
  forallb P (N.of_nat <$> seq 0 n) = true → ∀ x, x < N.of_nat n → P x = true.
Proof.
  intros H x Hx. rewrite forallb_forall in H. apply H.
  apply list_elem_of_In, list_elem_of_fmap. exists (N.to_nat x). split; [lia|].
  apply list_elem_of_In, in_seq. lia.
Qed.

Lemma lo4_lt x : lo4 x < 16.
Proof.
  unfold lo4, to_u8. change 15 with (N.ones 4). rewrite N.land_ones.
  assert (x mod 2 ^ 4 < 2 ^ 4) by (apply N.mod_lt; lia).
  rewrite N.mod_small; lia.
Qed.

Lemma hi4_lt b : b < 256 → hi4 b < 16.
Proof.
  intros Hb. unfold hi4, to_u8. rewrite N.shiftr_div_pow2.
  assert (b / 2 ^ 4 < 16) by (apply N.Div0.div_lt_upper_bound; lia).
  rewrite N.mod_small; lia.
Qed.

Lemma lo4_small w : w < 16 → lo4 w = w.
Proof.
  intros Hw. unfold lo4, to_u8. change 15 with (N.ones 4). rewrite N.land_ones.
  rewrite (N.mod_small w (2 ^ 4)) by lia. rewrite N.mod_small; lia.
Qed.

Lemma nibble_write_lo b w :
  b < 256 → w < 16 →
  let e := to_u8 (N.lor (N.shiftl (hi4 b) 4) w) in
  lo4 e = w ∧ hi4 e = hi4 b ∧ e < 256.
Proof.
  intros Hb Hw.
  pose (chk := λ b w : N,
    let e := to_u8 (N.lor (N.shiftl (hi4 b) 4) w) in
    (lo4 e =? w) && (hi4 e =? hi4 b) && (e <? 256)).
  assert (chk b w = true) as H.
  { revert w Hw. apply (below_forallb (λ w, chk b w) 16).
    revert b Hb.
    apply (below_forallb (λ b, forallb (λ w, chk b w) (N.of_nat <$> seq 0 16)) 256).
    vm_compute. reflexivity. }
  unfold chk in H. cbv zeta in H.
  apply andb_true_iff in H as [H H3]. apply andb_true_iff in H as [H1 H2].
  apply N.eqb_eq in H1, H2. apply N.ltb_lt in H3. auto.
Qed.

Lemma nibble_write_hi b w :
  b < 256 → w < 16 →
  let o := to_u8 (N.lor (N.shiftl w 4) (lo4 b)) in
  lo4 o = lo4 b ∧ hi4 o = w ∧ o < 256.
Proof.
  intros Hb Hw.
  pose (chk := λ b w : N,
    let o := to_u8 (N.lor (N.shiftl w 4) (lo4 b)) in
    (lo4 o =? lo4 b) && (hi4 o =? w) && (o <? 256)).
  assert (chk b w = true) as H.
  { revert w Hw. apply (below_forallb (λ w, chk b w) 16).
    revert b Hb.
    apply (below_forallb (λ b, forallb (λ w, chk b w) (N.of_nat <$> seq 0 16)) 256).
    vm_compute. reflexivity. }
  unfold chk in H. cbv zeta in H.
  apply andb_true_iff in H as [H H3]. apply andb_true_iff in H as [H1 H2].
  apply N.eqb_eq in H1, H2. apply N.ltb_lt in H3. auto.
Qed.

Lemma byte_nibbles b : b < 256 → b = 16 * hi4 b + lo4 b.
Proof.
  intros Hb.
  assert ((b =? 16 * hi4 b + lo4 b) = true) as H.
  { revert b Hb. apply (below_forallb (λ b, b =? 16 * hi4 b + lo4 b) 256).
    vm_compute. reflexivity. }
  by apply N.eqb_eq in H.
Qed.

Lemma even_split a c : a mod 2 = 0 → (a + c) / 2 = a / 2 + c / 2 ∧ (a + c) mod 2 = c mod 2.
Proof.
  intros Ha.
  pose proof (N.Div0.div_mod a 2). pose proof (N.Div0.div_mod c 2).
  pose proof (N.mod_lt c 2 ltac:(lia)).
  assert (a + c = (a / 2 + c / 2) * 2 + c mod 2) as E by lia.
  split.
  - rewrite E. rewrite N.div_add_l by lia. rewrite (N.div_small (c mod 2)) by lia. lia.
  - rewrite E. rewrite N.add_comm. rewrite N.Div0.mod_add. by rewrite N.Div0.mod_mod.
Qed.

Lemma wrap64_small x : x < 2 ^ 64 → wrap64 x = x.
Proof. intros. unfold wrap64. by apply N.mod_small. Qed.

Lemma mul_even_r r c : c mod 2 = 0 → (r * c) mod 2 = 0.
Proof.
  intros Hc. rewrite <- N.Div0.mul_mod_idemp_r. rewrite Hc. by rewrite N.mul_0_r.
Qed.

Lemma tread_4b_nib d r c COLS :
  COLS mod 2 = 0 → r * COLS < 2 ^ 64 →
  tread_4b d r c COLS = nib d (r * COLS + c).
Proof.
  intros Hc Hr. unfold tread_4b, nib. rewrite wrap64_small by done.
  destruct (even_split (r * COLS) c (mul_even_r r COLS Hc)) as [-> ->]. done.
Qed.

Lemma twrite_4b_set_nib d v r c COLS :
  COLS mod 2 = 0 → r * COLS < 2 ^ 64 →
  twrite_4b d v r c COLS = set_nib d (r * COLS + c) v.
Proof.
  intros Hc Hr. unfold twrite_4b, set_nib. rewrite wrap64_small by done.
  destruct (even_split (r * COLS) c (mul_even_r r COLS Hc)) as [-> ->]. done.
Qed.

Lemma valid_lookup d i b : valid_bytes d → d !! i = Some b → b < 256.
Proof. intros Hd Hb. exact (Forall_lookup_1 _ _ _ _ Hd Hb). Qed.

Lemma nib_is_Some d k :
  valid_bytes d → k < 2 * N.of_nat (length d) → ∃ v, nib d k = Some v ∧ v < 16.
Proof.
  intros Hd Hk. unfold nib.
  assert (N.to_nat (k / 2) < length d)%nat as Hlt.
  { assert (k / 2 < N.of_nat (length d)) by (apply N.Div0.div_lt_upper_bound; lia). lia. }
  destruct (lookup_lt_is_Some_2 d _ Hlt) as [b Hb]. rewrite Hb. simpl.
  assert (b < 256) by eauto using valid_lookup.
  case_decide; eexists; split; eauto using lo4_lt, hi4_lt.
Qed.

Lemma set_nib_spec d k v :
  valid_bytes d → k < 2 * N.of_nat (length d) →
  ∃ d', set_nib d k v = Some d' ∧ length d' = length d ∧ valid_bytes d'
        ∧ ∀ k', nib d' k' = if decide (k' = k) then Some (lo4 v) else nib d k'.
Proof.
  intros Hd Hk. unfold set_nib.
  assert (N.to_nat (k / 2) < length d)%nat as Hlt.
  { assert (k / 2 < N.of_nat (length d)) by (apply N.Div0.div_lt_upper_bound; lia). lia. }
  destruct (lookup_lt_is_Some_2 d _ Hlt) as [b Hb]. rewrite Hb. simpl.
  assert (b < 256) as Hb256 by eauto using valid_lookup.
  pose proof (nibble_write_lo b (lo4 v) Hb256 (lo4_lt v)) as (Wl1 & Wl2 & Wl3).
  pose proof (nibble_write_hi b (lo4 v) Hb256 (lo4_lt v)) as (Wh1 & Wh2 & Wh3).
  eexists. split; [done|]. split; [by rewrite length_insert|]. split.
  { apply Forall_insert; [done|]. case_decide; done. }
  intros k'. unfold nib.
  destruct (decide (N.to_nat (k' / 2) = N.to_nat (k / 2))) as [E|NE].
  - rewrite E. rewrite list_lookup_insert_eq by done. rewrite Hb. simpl.
    assert (k' / 2 = k / 2) as E' by lia.
    pose proof (N.Div0.div_mod k 2). pose proof (N.Div0.div_mod k' 2).
    pose proof (N.mod_lt k 2 ltac:(lia)). pose proof (N.mod_lt k' 2 ltac:(lia)).
    repeat case_decide; try lia; f_equal; try done.
  - rewrite list_lookup_insert_ne by done.
    destruct (decide (k' = k)) as [->|_]; done.
Qed.

Lemma nib_ext d1 d2 :
  valid_bytes d1 → valid_bytes d2 → length d1 = length d2 →
  (∀ k, k < 2 * N.of_nat (length d1) → nib d1 k = nib d2 k) → d1 = d2.
Proof.
  intros V1 V2 HL H. apply list_eq. intros i.
  destruct (decide (i < length d1)%nat) as [Hi|Hi].
  - destruct (lookup_lt_is_Some_2 d1 i Hi) as [b1 Hb1].
    destruct (lookup_lt_is_Some_2 d2 i ltac:(lia)) as [b2 Hb2].
    rewrite Hb1, Hb2. f_equal.
    assert (b1 < 256) as B1 by eauto using valid_lookup.
    assert (b2 < 256) as B2 by eauto using valid_lookup.
    pose proof (H (2 * N.of_nat i) ltac:(lia)) as Hlo.
    pose proof (H (2 * N.of_nat i + 1) ltac:(lia)) as Hhi.
    unfold nib in Hlo, Hhi.
    replace (2 * N.of_nat i / 2) with (N.of_nat i) in Hlo
      by (rewrite N.mul_comm, N.div_mul; lia).
    replace ((2 * N.of_nat i + 1) / 2) with (N.of_nat i) in Hhi
      by (rewrite N.mul_comm, N.div_add_l, (N.div_small 1 2); lia).
    rewrite Nat2N.id in Hlo, Hhi. rewrite Hb1, Hb2 in Hlo, Hhi. simpl in Hlo, Hhi.
    replace ((2 * N.of_nat i) mod 2) with 0 in Hlo
      by (rewrite N.mul_comm, N.Div0.mod_mul; lia).
    replace ((2 * N.of_nat i + 1) mod 2) with 1 in Hhi
      by (rewrite N.add_comm, N.mul_comm, N.Div0.mod_add; done).
    repeat case_decide; try done.
    rewrite (byte_nibbles b1 B1), (byte_nibbles b2 B2). congruence.
  - rewrite !lookup_ge_None_2; [done|lia|lia].
Qed.

(** ** Index arithmetic of a row-major grid *)

Lemma cell_lt i j R C : i < R → j < C → i * C + j < R * C.
Proof.
  intros Hi Hj.
  assert ((i + 1) * C ≤ R * C) by (apply N.mul_le_mono_r; lia).
  lia.
Qed.

Lemma cell_mod j R i : i < R → (j * R + i) mod R = i.
Proof.
  intros Hi. rewrite N.add_comm, N.Div0.mod_add. by apply N.mod_small.
Qed.

Lemma cell_div j R i : i < R → (j * R + i) / R = j.
Proof.
  intros Hi. rewrite N.div_add_l by lia. rewrite N.div_small by done. lia.
Qed.

Lemma cell_decompose k R : k = (k / R) * R + k mod R.
Proof. rewrite N.mul_comm. apply N.Div0.div_mod. Qed.

Lemma cell_div_lt k R C : k < R * C → k / R < C.
Proof. intros Hk. apply N.Div0.div_lt_upper_bound. lia. Qed.

Lemma cell_mod_lt k R C : k < R * C → k mod R < R.
Proof. intros Hk. apply N.mod_lt. intros ->. lia. Qed.

(** ** The loops of [transpose] *)

Section transpose_loops.
Context (src : list N) (R C : N).
Hypothesis C_even : C mod 2 = 0.
Hypothesis R_even : R mod 2 = 0.
Hypothesis RC_fits : R * C < 2 ^ 64.
Hypothesis src_valid : valid_bytes src.
Hypothesis src_len : R * C ≤ 2 * N.of_nat (length src).

Lemma inner_body_nib i j d : i < R → j < C →
  inner_body src R C i j d = (value ← nib src (i * C + j); set_nib d (j * R + i) value).
Proof.
  intros Hi Hj. unfold inner_body.
  pose proof (cell_lt i j R C Hi Hj).
  pose proof (cell_lt j i C R Hj Hi).
  rewrite tread_4b_nib by (done || lia).
  destruct (nib src (i * C + j)) as [v|]; [simpl|done].
  rewrite twrite_4b_set_nib by (done || lia). done.
Qed.

Lemma inner_loop i n : i < R →
  ∀ j0 d, j0 + N.of_nat n ≤ C → valid_bytes d → R * C ≤ 2 * N.of_nat (length d) →
  ∃ d', for_range n j0 (inner_body src R C i) d = Some d'
    ∧ length d' = length d ∧ valid_bytes d'
    ∧ ∀ k, nib d' k =
        if decide (k mod R = i ∧ j0 ≤ k / R < j0 + N.of_nat n)
        then nib src (i * C + k / R) else nib d k.
Proof.
  intros Hi. induction n as [|n IH]; intros j0 d Hj Hd Hlen.
  - exists d. repeat split; try done. intros k. case_decide; [lia|done].
  - cbn [for_range]. rewrite inner_body_nib by lia.
    pose proof (cell_lt i j0 R C Hi ltac:(lia)) as Hrd.
    pose proof (cell_lt j0 i C R ltac:(lia) Hi) as Hwr.
    destruct (nib_is_Some src (i * C + j0) src_valid ltac:(lia)) as (v & Hv & Hv16).
    rewrite Hv. simpl.
    destruct (set_nib_spec d (j0 * R + i) v Hd ltac:(lia)) as (d1 & Hd1 & L1 & V1 & N1).
    rewrite Hd1. simpl.
    destruct (IH (N.succ j0) d1 ltac:(lia) V1 ltac:(lia)) as (d' & Hd' & L' & V' & N').
    exists d'. split; [done|]. split; [congruence|]. split; [done|].
    intros k. rewrite N'. rewrite N1. rewrite (lo4_small v Hv16).
    destruct (decide (k = j0 * R + i)) as [->|NE].
    + rewrite (cell_mod j0 R i Hi), (cell_div j0 R i Hi).
      rewrite decide_False by lia. rewrite decide_True by lia. done.
    + pose proof (cell_decompose k R) as Hk.
      destruct (decide (k mod R = i)) as [Em|NEm].
      * assert (k / R ≠ j0) by (intros E; apply NE; rewrite Hk at 1; by rewrite E, Em).
        destruct (decide (N.succ j0 ≤ k / R < N.succ j0 + N.of_nat n)).
        -- rewrite decide_True by lia. rewrite decide_True by lia. done.
        -- rewrite decide_False by lia. rewrite decide_False by lia. done.
      * rewrite decide_False by tauto. rewrite decide_False by tauto. done.
Qed.

Lemma outer_loop n :
  ∀ i0 d, i0 + N.of_nat n ≤ R → valid_bytes d → R * C ≤ 2 * N.of_nat (length d) →
  ∃ d', for_range n i0 (λ i d, for_upto C (inner_body src R C i) d) d = Some d'
    ∧ length d' = length d ∧ valid_bytes d'
    ∧ ∀ k, nib d' k =
        if decide (i0 ≤ k mod R < i0 + N.of_nat n ∧ k / R < C)
        then nib src ((k mod R) * C + k / R) else nib d k.
Proof.
  induction n as [|n IH]; intros i0 d Hi Hd Hlen.
  - exists d. repeat split; try done. intros k. case_decide; [lia|done].
  - cbn [for_range].
    change (for_upto C (inner_body src R C i0) d)
      with (for_range (N.to_nat C) 0 (inner_body src R C i0) d).
    destruct (inner_loop i0 (N.to_nat C) ltac:(lia) 0 d ltac:(lia) Hd Hlen)
      as (d1 & Hd1 & L1 & V1 & N1).
    rewrite Hd1. simpl.
    destruct (IH (N.succ i0) d1 ltac:(lia) V1 ltac:(lia)) as (d' & Hd' & L' & V' & N').
    exists d'. split; [done|]. split; [congruence|]. split; [done|].
    intros k. rewrite N', N1.
    generalize (k mod R) (k / R). intros m q.
    destruct (decide (m = i0)) as [->|NE].
    + rewrite decide_False by lia.
      destruct (decide (q < C)).
      * rewrite !decide_True by lia. done.
      * rewrite !decide_False by lia. done.
    + rewrite (decide_False (P := m = i0 ∧ _)) by tauto.
      destruct (decide (N.succ i0 ≤ m < N.succ i0 + N.of_nat n ∧ q < C)).
      * rewrite decide_True by lia. done.
      * rewrite decide_False by lia. done.
Qed.

Lemma transpose_loop_spec d :
  valid_bytes d → R * C ≤ 2 * N.of_nat (length d) →
  ∃ d', transpose_loop src R C d = Some d'
    ∧ length d' = length d ∧ valid_bytes d'
    ∧ ∀ k, k < R * C → nib d' k = nib src ((k mod R) * C + k / R).
Proof.
  intros Hd Hlen. unfold transpose_loop, for_upto.
  destruct (outer_loop (N.to_nat R) 0 d ltac:(lia) Hd Hlen) as (d' & Hd' & L' & V' & N').
  exists d'. split; [exact Hd'|]. split; [done|]. split; [done|].
  intros k Hk. rewrite N'.
  pose proof (cell_div_lt k R C Hk). pose proof (cell_mod_lt k R C Hk).
  rewrite decide_True by lia. done.
Qed.
End transpose_loops.

(** ** One transposition, at the level of nibbles *)

Lemma rot_lt R C k : k < R * C → rot R C k < R * C.
Proof.
  intros Hk. apply cell_lt; [by eapply cell_mod_lt | by apply cell_div_lt].
Qed.

Lemma rot_cell R C i j : i < R → rot R C (j * R + i) = i * C + j.
Proof. intros Hi. unfold rot. by rewrite cell_mod, cell_div. Qed.

Lemma rot3_cells A B C a b c : a < A → b < B → c < C →
  rot (A * B) C (rot (C * A) B (rot (B * C) A (a * (B * C) + (b * C + c))))
  = a * (B * C) + (b * C + c).
Proof.
  intros Ha Hb Hc.
  pose proof (cell_lt b c B C Hb Hc) as H1.
  rewrite rot_cell by done.
  replace ((b * C + c) * A + a) with (b * (C * A) + (c * A + a)) by lia.
  pose proof (cell_lt c a C A Hc Ha) as H2.
  rewrite rot_cell by done.
  replace ((c * A + a) * B + b) with (c * (A * B) + (a * B + b)) by lia.
  pose proof (cell_lt a b A B Ha Hb) as H3.
  rewrite rot_cell by done. lia.
Qed.

Lemma rot3 A B C k : k < A * B * C →
  rot (A * B) C (rot (C * A) B (rot (B * C) A k)) = k.
Proof.
  intros Hk.
  assert (k < A * (B * C)) as Hk' by lia.
  pose proof (cell_decompose k (B * C)) as E.
  pose proof (cell_mod_lt k (B * C) A ltac:(lia)) as Hr.
  pose proof (cell_div_lt k (B * C) A ltac:(lia)) as Ha.
  set (a := k / (B * C)) in *. set (r := k mod (B * C)) in *.
  clearbody a r.
  pose proof (cell_decompose r C) as Er.
  pose proof (cell_mod_lt r C B ltac:(lia)) as Hc.
  pose proof (cell_div_lt r C B ltac:(lia)) as Hb.
  set (b := r / C) in *. set (c := r mod C) in *. clearbody b c.
  subst r. subst k. by apply rot3_cells.
Qed.

Lemma byte_size_i4_even A B C :
  (A * B * C) mod 2 = 0 → 2 * byte_size i4 [A; B; C] = A * B * C.
Proof.
  intros H. unfold byte_size, shape_size, bitwidth. simpl.
  replace (A * (B * (C * 1))) with (A * B * C) by lia.
  revert H. generalize (A * B * C). intros n Hn. lia.
Qed.

Lemma alloc_data_valid g ty shape : valid_bytes (ht_data (alloc g ty shape)).
Proof.
  unfold alloc, valid_bytes. simpl. apply Forall_fmap, Forall_forall.
  intros k _. simpl. unfold to_u8. apply N.mod_lt. lia.
Qed.

Lemma alloc_data_length g ty shape :
  N.of_nat (length (ht_data (alloc g ty shape))) = byte_size ty shape.
Proof. unfold alloc. simpl. rewrite length_fmap, length_seq. lia. Qed.

Lemma transpose_nibbles g t A B C :
  ht_type t = i4 → ht_shape t = [A; B; C] → well_formed t →
  A mod 2 = 0 → B mod 2 = 0 → C mod 2 = 0 → A * B * C < 2 ^ 64 →
  ∃ t', transpose g t = Done t'
    ∧ ht_type t' = i4 ∧ ht_shape t' = [C; A; B] ∧ well_formed t'
    ∧ ∀ k, k < A * B * C → nib (ht_data t') k = nib (ht_data t) (rot (A * B) C k).
Proof.
  intros Hty Hsh (Hlen & Hfit & Hval) HA HB HC Hsz.
  rewrite Hty, Hsh in Hlen, Hfit.
  assert ((A * B) mod 2 = 0) as HAB by (by apply mul_even_r).
  assert ((A * B * C) mod 2 = 0) as HABC by (by apply mul_even_r).
  pose proof (byte_size_i4_even A B C HABC) as Hbs.
  assert ((C * A * B) mod 2 = 0) as HCAB by (by apply mul_even_r).
  pose proof (byte_size_i4_even C A B HCAB) as Hbs'.
  set (R := wrap64 (A * B)).
  assert (R * C = A * B * C ∧ (C ≠ 0 → R = A * B)) as [HRC HR].
  { destruct (decide (C = 0)) as [->|HC0]; [lia|].
    assert (A * B ≤ A * B * C) by (rewrite <- (N.mul_1_r (A * B)) at 1; apply N.mul_le_mono_l; lia).
    assert (R = A * B) as -> by (apply wrap64_small; lia). done. }
  assert (R mod 2 = 0) as HReven.
  { unfold R, wrap64. revert HAB. generalize (A * B). intros n Hn. lia. }
  unfold transpose. rewrite Hsh, Hty. rewrite decide_True by done. fold R.
  destruct (transpose_loop_spec (ht_data t) R C HC HReven ltac:(lia) Hval ltac:(lia)
              (ht_data (alloc g i4 [C; A; B])) (alloc_data_valid _ _ _)
              ltac:(rewrite alloc_data_length; lia))
    as (d' & Hd' & L' & V' & N').
  rewrite Hd'. eexists. split; [done|]. simpl. split; [done|]. split; [done|].
  split.
  - unfold well_formed. simpl. rewrite L'. rewrite alloc_data_length.
    split; [done|]. split; [lia|done].
  - intros k Hk. rewrite N' by lia. unfold rot. rewrite HR; [done|]. intros ->. lia.
Qed.

(** ** Three transpositions *)

(** C9, amended.  For a well-formed 3-D i4 tensor whose three dimensions
    are all even (and whose element count fits the machine word), three
    transpositions in a row give back the tensor: the shape returns to
    [A, B, C] and every packed 4-bit element is where it was, whatever the
    fresh buffers held. *)
Theorem transpose3_even g1 g2 g3 t A B C :
  ht_type t = i4 → ht_shape t = [A; B; C] → well_formed t →
  A mod 2 = 0 → B mod 2 = 0 → C mod 2 = 0 → A * B * C < 2 ^ 64 →
  transpose3 g1 g2 g3 t = Done t.
Proof.
  intros Hty Hsh Hwf HA HB HC Hsz.
  destruct (transpose_nibbles g1 t A B C Hty Hsh Hwf HA HB HC Hsz)
    as (t1 & E1 & Ty1 & Sh1 & Wf1 & N1).
  destruct (transpose_nibbles g2 t1 C A B Ty1 Sh1 Wf1 HC HA HB ltac:(lia))
    as (t2 & E2 & Ty2 & Sh2 & Wf2 & N2).
  destruct (transpose_nibbles g3 t2 B C A Ty2 Sh2 Wf2 HB HC HA ltac:(lia))
    as (t3 & E3 & Ty3 & Sh3 & Wf3 & N3).
  unfold transpose3. rewrite E1. simpl. rewrite E2. simpl. rewrite E3. f_equal.
  destruct t as [ty sh d], t3 as [ty3 sh3 d3]. simpl in *. subst. f_equal.
  destruct Hwf as (L0 & _ & V0), Wf3 as (L3 & _ & V3). simpl in *.
  assert ((A * B * C) mod 2 = 0) as HABC by (by apply mul_even_r).
  pose proof (byte_size_i4_even A B C HABC) as Hbs.
  apply nib_ext; [done|done|lia|].
  intros k Hk.
  assert (k < A * B * C) as Hk' by lia.
  rewrite N3 by lia.
  pose proof (rot_lt (B * C) A k ltac:(lia)) as H3.
  rewrite N2 by lia.
  pose proof (rot_lt (C * A) B (rot (B * C) A k) ltac:(lia)) as H2.
  rewrite N1 by lia.
  by rewrite rot3.
Qed.

(** C9, as stated, fails: on the i4 tensor of shape [1, 1, 2] holding the
    nibbles 1 and 2, three transpositions leave the nibbles 2 and 2. *)
Lemma transpose3_odd_counterexample :
  ht_type odd_tensor = i4 ∧ length (ht_shape odd_tensor) = 3%nat
  ∧ well_formed odd_tensor
  ∧ transpose3 (λ _, 0) (λ _, 0) (λ _, 0) odd_tensor
    = Done (mkHostTensor i4 [1; 1; 2] [34])
  ∧ transpose3 (λ _, 0) (λ _, 0) (λ _, 0) odd_tensor ≠ Done odd_tensor.
Proof.
  split; [done|]. split; [done|]. split.
  { split; [done|]. split; [done|]. repeat constructor. }
  split; [by vm_compute|]. by vm_compute.
Qed.

Lemma transpose3_even_witness :
  transpose3 (λ _, 0) (λ _, 0) (λ _, 0) even_tensor = Done even_tensor.
Proof.
  apply (transpose3_even _ _ _ even_tensor 2 2 2); try reflexivity.
  split; [reflexivity|]. split; [reflexivity|]. repeat constructor.
Defined.

End UtilFacts.

Module GatherFacts.
Import Util Scenario UtilSpec UtilFacts.
Local Open Scope N_scope.

Lemma read_bytes_length d off n bytes :
  read_bytes d off n = Some bytes → N.of_nat (length bytes) = n.
Proof.
  unfold read_bytes. intros H. repeat case_decide; simplify_eq; [done|].
  rewrite length_take, length_drop. lia.
Qed.

Lemma read_bytes_inv d off n bytes :
  read_bytes d off n = Some bytes → n ≠ 0 → off + n ≤ N.of_nat (length d).
Proof. unfold read_bytes. intros H Hn. repeat case_decide; simplify_eq; done. Qed.

Lemma read_bytes_ok d off n :
  off + n ≤ N.of_nat (length d) → is_Some (read_bytes d off n).
Proof. intros H. unfold read_bytes. repeat case_decide; eauto; lia. Qed.

Lemma read_bytes_zero d off : read_bytes d off 0 = Some [].
Proof. done. Qed.

Lemma write_bytes_length d off bytes d' :
  write_bytes d off bytes = Some d' → length d' = length d.
Proof.
  unfold write_bytes. intros H. repeat case_decide; simplify_eq; [done|].
  rewrite !length_app, length_take, length_drop. lia.
Qed.

Lemma write_bytes_inv d off bytes d' :
  write_bytes d off bytes = Some d' → bytes ≠ [] →
  off + N.of_nat (length bytes) ≤ N.of_nat (length d).
Proof. unfold write_bytes. intros H Hn. repeat case_decide; simplify_eq; done. Qed.

Lemma write_bytes_ok d off bytes :
  off + N.of_nat (length bytes) ≤ N.of_nat (length d) → is_Some (write_bytes d off bytes).
Proof. intros H. unfold write_bytes. repeat case_decide; eauto; lia. Qed.

Lemma to_size_t_nonneg z : (0 ≤ z < 2 ^ 64)%Z → to_size_t z = Z.to_N z.
Proof. intros H. unfold to_size_t. by rewrite Z.mod_small. Qed.

Lemma src_row_offset_exact cols es z s0 :
  0 < es → (0 ≤ z)%Z → Z.to_N z < s0 → s0 * (cols * es) < 2 ^ 64 → 0 < cols →
  src_row_offset cols es z = Z.to_N z * (cols * es).
Proof.
  intros Hes Hz Hlt Hfit Hc. unfold src_row_offset.
  assert (s0 ≤ s0 * (cols * es)).
  { rewrite <- (N.mul_1_r s0) at 1. apply N.mul_le_mono_l. 
    assert (1 * 1 ≤ cols * es) by (apply N.mul_le_mono; lia). lia. }
  rewrite to_size_t_nonneg by lia.
  assert (Z.to_N z * (cols * es) < s0 * (cols * es)).
  { apply N.mul_lt_mono_pos_r; [|done]. 
    assert (1 * 1 ≤ cols * es) by (apply N.mul_le_mono; lia). lia. }
  assert (cols * Z.to_N z ≤ Z.to_N z * (cols * es)).
  { replace (Z.to_N z * (cols * es)) with (cols * Z.to_N z * es) by lia.
    rewrite <- (N.mul_1_r (cols * Z.to_N z)) at 1. apply N.mul_le_mono_l. lia. }
  rewrite (wrap64_small (cols * Z.to_N z)) by lia.
  rewrite wrap64_small by lia. lia.
Qed.

Lemma gather_row_unfold src_data pIdx cols dcols es r p d :
  gather_row src_data pIdx cols dcols es r (p, d) =
  (srcRowIdx ← pIdx !! N.to_nat r;
   bytes ← read_bytes src_data (src_row_offset cols es srcRowIdx) (wrap64 (cols * es));
   d' ← write_bytes d p bytes;
   Some (p + wrap64 (dcols * es), d')).
Proof. done. Qed.

Section rows.
Context (src_data : list N) (pIdx : list Z) (cols es : N).
Local Abbreviation n := (wrap64 (cols * es)) (only parsing).
Local Abbreviation body := (gather_row src_data pIdx cols cols es) (only parsing).

(** Enough room on both sides makes the row loop run to its end. *)
Lemma gather_rows_ok s0 count m : 
  0 < es →
  N.of_nat (length src_data) = s0 * (cols * es) → s0 * (cols * es) < 2 ^ 64 →
  (∀ r, r < count → ∃ z, pIdx !! N.to_nat r = Some z ∧ (0 ≤ z)%Z ∧ Z.to_N z < s0) →
  ∀ r0 d, r0 + N.of_nat m ≤ count → count * n ≤ N.of_nat (length d) →
  ∃ d', for_range m r0 body (r0 * n, d) = Some ((r0 + N.of_nat m) * n, d')
        ∧ length d' = length d.
Proof.
  intros Hes Hlen Hfit Hidx. induction m as [|m IH]; intros r0 d Hr Hd.
  - exists d. simpl. split; [|done]. do 2 f_equal. lia.
  - cbn [for_range]. rewrite gather_row_unfold.
    destruct (Hidx r0 ltac:(lia)) as (z & Hz & Hz0 & Hzs). rewrite Hz. simpl.
    assert (is_Some (read_bytes src_data (src_row_offset cols es z) n)) as [bytes Hb].
    { destruct (decide (n = 0)) as [->|Hn]; [by eexists|].
      apply read_bytes_ok.
      assert (0 < cols) by (destruct (decide (cols = 0)) as [->|]; [done|lia]).
      assert (cols * es ≤ s0 * (cols * es)).
      { rewrite <- (N.mul_1_l (cols * es)) at 1. apply N.mul_le_mono_r. lia. }
      assert (n = cols * es) as En by (apply wrap64_small; lia).
      pose proof (src_row_offset_exact cols es z s0 Hes Hz0 Hzs Hfit ltac:(done)) as Eo.
      rewrite Eo, En, Hlen.
      assert ((Z.to_N z + 1) * (cols * es) ≤ s0 * (cols * es))
        by (apply N.mul_le_mono_r; lia).
      lia. }
    rewrite Hb. simpl.
    pose proof (read_bytes_length _ _ _ _ Hb) as Lb.
    assert ((r0 + 1) * n ≤ count * n) by (apply N.mul_le_mono_r; lia).
    destruct (write_bytes_ok d (r0 * n) bytes ltac:(lia)) as [d1 Hd1].
    rewrite Hd1. simpl.
    pose proof (write_bytes_length _ _ _ _ Hd1) as L1.
    replace (r0 * n + n) with (N.succ r0 * n) by lia.
    destruct (IH (N.succ r0) d1 ltac:(lia) ltac:(lia)) as (d' & Hd' & L').
    exists d'. split; [|congruence]. rewrite Hd'. do 2 f_equal. lia.
Qed.

(** A loop that ran to its end touched only bytes inside both buffers. *)
Lemma gather_rows_inv m : n ≠ 0 →
  ∀ r0 p d p' d', for_range m r0 body (p, d) = Some (p', d') →
  length d' = length d
  ∧ (m ≠ 0%nat → p + N.of_nat m * n ≤ N.of_nat (length d))
  ∧ ∀ r, r0 ≤ r < r0 + N.of_nat m →
      ∃ z, pIdx !! N.to_nat r = Some z
           ∧ src_row_offset cols es z + n ≤ N.of_nat (length src_data).
Proof.
  intros Hn. induction m as [|m IH]; intros r0 p d p' d' H.
  - simpl in H. simplify_eq. split; [done|]. split; [done|]. intros r Hr. lia.
  - cbn [for_range] in H. rewrite gather_row_unfold in H.
    destruct (pIdx !! N.to_nat r0) as [z|] eqn:Hz; [simpl in H|done].
    destruct (read_bytes src_data _ n) as [bytes|] eqn:Hb; [simpl in H|done].
    destruct (write_bytes d p bytes) as [d1|] eqn:Hd1; [simpl in H|done].
    pose proof (read_bytes_length _ _ _ _ Hb) as Lb.
    pose proof (read_bytes_inv _ _ _ _ Hb Hn) as Ib.
    assert (bytes ≠ []) as Hne by (intros ->; simpl in Lb; lia).
    pose proof (write_bytes_inv _ _ _ _ Hd1 Hne) as Iw.
    pose proof (write_bytes_length _ _ _ _ Hd1) as L1.
    destruct (IH _ _ _ _ _ H) as (L' & B' & R').
    split; [congruence|]. split.
    + intros _. destruct m as [|m']; [lia|].
      specialize (B' ltac:(done)). lia.
    + intros r Hr. destruct (decide (r = r0)) as [->|NE]; [eauto|].
      apply R'. lia.
Qed.
End rows.

(** ** [gather] as a whole *)

Lemma byte_size_whole ty sh :
  bitwidth ty = 8 * type_size ty → byte_size ty sh = shape_size sh * type_size ty.
Proof.
  intros E. unfold byte_size. rewrite E.
  generalize (shape_size sh) (type_size ty). intros a b.
  replace (a * (8 * b) + 7) with ((a * b) * 8 + 7) by lia.
  rewrite N.div_add_l by lia. rewrite (N.div_small 7 8) by lia. lia.
Qed.

Lemma gather_unfold src idx dst n s0 s1 d0 d1 :
  it_type idx = i64 → (ht_type src = f16 ∨ ht_type src = f32) →
  ht_type src = ht_type dst →
  it_shape idx = [1; n] → ht_shape src = [s0; s1] → ht_shape dst = [d0; d1; s1] →
  gather src idx dst =
  match for_upto n (gather_row (ht_data src) (it_vals idx) s1 s1 (type_size (ht_type src)))
          (0, ht_data dst) with
  | Some (_, d) => Done {| ht_type := ht_type dst; ht_shape := ht_shape dst; ht_data := d |}
  | None => OutOfBounds
  end.
Proof.
  intros Hi Hty Hsd Hsi Hss Hsh. unfold gather.
  rewrite Hi, Hsi, Hss, Hsh, <- Hsd.
  rewrite (bool_decide_eq_true_2 (i64 = i64)) by done.
  rewrite (bool_decide_eq_true_2 (1 = 1)) by done.
  rewrite (bool_decide_eq_true_2 (s1 = s1)) by done.
  rewrite (bool_decide_eq_true_2 (ht_type src = ht_type src)) by done.
  destruct Hty as [-> | ->]; reflexivity.
Qed.

(** [gather] stops at an assertion exactly when one of the conditions it
    asserts fails: the index type and shape, the source type and rank, the
    destination type and rank, the common row length. *)
Lemma gather_assert_iff src idx dst :
  gather src idx dst = AssertFailed ↔ ¬ gather_preconditions src idx dst.
Proof.
  split.
  - intros H (Hi & Hty & Hsd & n & s0 & s1 & d0 & d1 & Hsi & Hss & Hsh).
    rewrite (gather_unfold _ _ _ _ _ _ _ _ Hi Hty Hsd Hsi Hss Hsh) in H.
    destruct (for_upto _ _ _) as [[? ?]|]; done.
  - intros Hn. unfold gather.
    destruct (bool_decide (it_type idx = i64)) eqn:E1; [simpl|done].
    apply bool_decide_eq_true_1 in E1.
    destruct (bool_decide (ht_type src = f16) || bool_decide (ht_type src = f32)) eqn:E2;
      [simpl|done].
    apply orb_true_iff in E2.
    assert (ht_type src = f16 ∨ ht_type src = f32) as Hty
      by (destruct E2 as [E|E]; apply bool_decide_eq_true_1 in E; auto).
    destruct (bool_decide (ht_type src = ht_type dst)) eqn:E3; [simpl|done].
    apply bool_decide_eq_true_1 in E3.
    destruct (it_shape idx) as [|i0 [|i1 [|? ?]]] eqn:Hsi; try done.
    destruct (bool_decide (i0 = 1)) eqn:E4; [simpl|done].
    apply bool_decide_eq_true_1 in E4. subst i0.
    destruct (ht_shape src) as [|s0 [|s1 [|? ?]]] eqn:Hss; try done.
    destruct (ht_shape dst) as [|d0 [|d1 [|d2 [|? ?]]]] eqn:Hsh; try done.
    destruct (bool_decide (s1 = d2)) eqn:E5; [simpl|done].
    apply bool_decide_eq_true_1 in E5. subst d2.
    exfalso. apply Hn. repeat split; try done. by exists i1, s0, s1, d0, d1.
Qed.

(** ** Bounds of the accesses of [gather] *)

(** A negative index is converted to [std::size_t] before it is multiplied:
    its row starts [|z|] rows below [2 ^ 64]. *)
Lemma src_row_offset_neg cols es z :
  (- 2 ^ 64 < z < 0)%Z → 0 < cols → 0 < es →
  Z.to_N (- z) * (cols * es) < 2 ^ 64 →
  src_row_offset cols es z = 2 ^ 64 - Z.to_N (- z) * (cols * es).
Proof.
  intros Hz Hc He Hfit. unfold src_row_offset.
  set (a := Z.to_N (- z)) in *.
  assert (0 < a) as Ha by (unfold a; lia).
  assert (to_size_t z = 2 ^ 64 - a) as ->.
  { unfold to_size_t, a. rewrite <- (Z.mod_add z 1) by lia.
    rewrite Z.mod_small by lia. lia. }
  assert (a * cols * 1 ≤ a * cols * es) as H1 by (apply N.mul_le_mono_l; lia).
  assert (a * 1 ≤ a * cols) as H2 by (apply N.mul_le_mono_l; lia).
  assert (1 * 1 ≤ a * cols) as H3 by (apply N.mul_le_mono; lia).
  assert (a * (cols * es) = a * cols * es) as E by lia.
  rewrite E in *. clear E.
  assert (wrap64 (cols * (2 ^ 64 - a)) = 2 ^ 64 - a * cols) as ->.
  { rewrite N.mul_sub_distr_l. unfold wrap64.
    replace (cols * 2 ^ 64 - cols * a)
      with ((2 ^ 64 - a * cols) + (cols - 1) * 2 ^ 64).
    - rewrite N.Div0.mod_add. apply N.mod_small. lia.
    - rewrite N.mul_sub_distr_r. rewrite (N.mul_comm cols a). lia. }
  rewrite N.mul_sub_distr_r. unfold wrap64.
  replace (2 ^ 64 * es - a * cols * es)
    with ((2 ^ 64 - a * cols * es) + (es - 1) * 2 ^ 64).
  - rewrite N.Div0.mod_add. apply N.mod_small. lia.
  - rewrite N.mul_sub_distr_r. lia.
Qed.

(** C10, amended.  With the assertions of [gather] met on well-formed
    tensors ([idx] of shape [1, N], [src] of shape [s0, s1], [dst] of shape
    [d0, d1, s1]): every access is in bounds if each index lies in
    [0, s0) and [N <= d0 * d1], the number of rows [dst] holds; and only
    if, when a row copies at least one byte ([row_bytes] is not zero
    modulo [2 ^ 64]) and no index reaches beyond the address space, that is
    [(|idx[0,r]| + s0) * row_bytes <= 2 ^ 64] for every [r]. *)
Theorem gather_bounds src idx dst n s0 s1 d0 d1 :
  well_formed src → index_well_formed idx → well_formed dst →
  it_type idx = i64 → (ht_type src = f16 ∨ ht_type src = f32) →
  ht_type src = ht_type dst →
  it_shape idx = [1; n] → ht_shape src = [s0; s1] → ht_shape dst = [d0; d1; s1] →
  let row_bytes := s1 * type_size (ht_type src) in
  (indices_in_range idx s0 → n ≤ d0 * d1 → in_bounds src idx dst)
  ∧ (wrap64 row_bytes ≠ 0 →
     (∀ r z, it_vals idx !! r = Some z →
        ((Z.abs z + Z.of_N s0) * Z.of_N row_bytes ≤ 2 ^ 64)%Z) →
     in_bounds src idx dst →
     indices_in_range idx s0 ∧ n ≤ d0 * d1).
Proof.
  intros (Ls & Fs & Vs) (Li & Vi) (Ld & Fd & Vd) Hi Hty Hsd Hsi Hss Hsh row_bytes.
  assert (bitwidth (ht_type src) = 8 * type_size (ht_type src)) as Hbw
    by (destruct Hty as [-> | ->]; done).
  assert (0 < type_size (ht_type src)) as Hes by (destruct Hty as [-> | ->]; done).
  rewrite (byte_size_whole _ _ Hbw), Hss in Ls, Fs.
  rewrite <- Hsd, (byte_size_whole _ _ Hbw), Hsh in Ld, Fd.
  rewrite Hsi in Li.
  unfold shape_size in *. simpl in Ls, Fs, Ld, Fd, Li.
  set (es := type_size (ht_type src)) in *.
  assert (N.of_nat (length (ht_data src)) = s0 * (s1 * es)) as Ls' by lia.
  assert (N.of_nat (length (ht_data dst)) = d0 * d1 * (s1 * es)) as Ld' by lia.
  assert (N.of_nat (length (it_vals idx)) = n) as Li' by lia.
  unfold in_bounds.
  rewrite (gather_unfold _ _ _ _ _ _ _ _ Hi Hty Hsd Hsi Hss Hsh). fold es.
  split.
  - intros Hrange Hn.
    assert (wrap64 (s1 * es) ≤ s1 * es) as Hw
      by (unfold wrap64; apply N.Div0.mod_le).
    assert (n * wrap64 (s1 * es) ≤ d0 * d1 * (s1 * es)) as Hroom
      by (apply N.mul_le_mono; lia).
    destruct (gather_rows_ok (ht_data src) (it_vals idx) s1 es s0 n (N.to_nat n)
                Hes Ls' ltac:(lia)) with (r0 := 0) (d := ht_data dst)
      as (d' & Hd' & _).
    + intros r Hr.
      destruct (lookup_lt_is_Some_2 (it_vals idx) (N.to_nat r) ltac:(lia)) as [z Hz].
      exists z. split; [done|]. specialize (Hrange _ _ Hz). lia.
    + lia.
    + lia.
    + unfold for_upto. rewrite N.mul_0_l in Hd'. rewrite Hd'. eauto.
  - intros Hcopy Hnear [dst' H]. fold row_bytes in Ls', Ld'.
    destruct (for_upto _ _ _) as [[p' d']|] eqn:Hloop; [|done].
    unfold for_upto in Hloop.
    destruct (gather_rows_inv (ht_data src) (it_vals idx) s1 es (N.to_nat n)
                Hcopy _ _ _ _ _ Hloop) as (_ & Hwr & Hrd).
    destruct (decide (n = 0)) as [->|Hn0].
    { split; [|lia]. intros r z Hz. apply lookup_lt_Some in Hz. lia. }
    assert (0 < row_bytes < 2 ^ 64) as Hrow.
    { destruct (Hrd 0 ltac:(lia)) as (z0 & _ & Hb0). rewrite Ls' in Hb0.
      fold row_bytes in Hb0, Hcopy.
      destruct (decide (s0 = 0)) as [E0|]; [rewrite E0 in Hb0; lia|].
      assert (1 * row_bytes ≤ s0 * row_bytes) by (apply N.mul_le_mono_r; lia).
      split; [|lia].
      destruct (decide (row_bytes = 0)) as [E0|]; [|lia].
      rewrite E0 in Hcopy. by vm_compute in Hcopy. }
    assert (wrap64 (s1 * es) = row_bytes) as Hw by (apply wrap64_small; unfold row_bytes; lia).
    assert (0 < s1) as Hs1.
    { destruct (decide (s1 = 0)) as [E|]; [|lia]. unfold row_bytes in Hrow.
      rewrite E in Hrow. lia. }
    rewrite Hw in Hwr, Hrd.
    split.
    + intros r z Hz.
      assert (r < length (it_vals idx))%nat as Hr by (by eapply lookup_lt_Some).
      destruct (Hrd (N.of_nat r) ltac:(lia)) as (z' & Hz' & Hb).
      rewrite Nat2N.id in Hz'. rewrite Hz in Hz'. injection Hz' as <-.
      rewrite Ls' in Hb.
      assert (- 2 ^ 63 ≤ z < 2 ^ 63)%Z as Hz64.
      { rewrite Forall_forall in Vi. apply Vi. by eapply list_elem_of_lookup_2. }
      specialize (Hnear _ _ Hz).
      assert (0 < s0) as Hs0.
      { destruct (decide (s0 = 0)) as [E|]; [|lia]. rewrite E in Hb. lia. }
      assert (Z.of_N (Z.to_N (Z.abs z) * row_bytes) + Z.of_N (s0 * row_bytes) ≤ 2 ^ 64)%Z
        as Hnear'.
      { rewrite !N2Z.inj_mul, Z2N.id by lia. lia. }
      destruct (decide (0 ≤ z)%Z) as [Hz0|Hneg].
      * split; [done|].
        rewrite Z.abs_eq in Hnear' by done.
        assert (src_row_offset s1 es z = Z.to_N z * row_bytes) as Eo.
        { unfold src_row_offset. rewrite to_size_t_nonneg by lia.
          assert (s1 * Z.to_N z * 1 ≤ s1 * Z.to_N z * es)
            by (apply N.mul_le_mono_l; lia).
          assert (1 * row_bytes ≤ s0 * row_bytes) by (apply N.mul_le_mono_r; lia).
          unfold row_bytes in *.
          rewrite (wrap64_small (s1 * Z.to_N z)) by lia.
          rewrite wrap64_small by lia. lia. }
        rewrite Eo in Hb.
        assert ((Z.to_N z + 1) * row_bytes ≤ s0 * row_bytes) as Hle by lia.
        apply N.mul_le_mono_pos_r in Hle; lia.
      * exfalso.
        rewrite Z.abs_neq in Hnear' by lia.
        assert (1 * row_bytes ≤ s0 * row_bytes) by (apply N.mul_le_mono_r; lia).
        rewrite (src_row_offset_neg s1 es z) in Hb; [|lia|done|done|].
        -- fold row_bytes in Hb. lia.
        -- fold row_bytes. lia.
    + specialize (Hwr ltac:(lia)). rewrite Ld' in Hwr.
      apply (N.mul_le_mono_pos_r _ _ row_bytes); lia.
Qed.

(** C10, as stated, fails three ways.  With [dst] of shape [2, 1, 1] and
    two lookups every access is in bounds although
    [dst_shape[1] = 1 < 2 = N].  With rows of eight bytes the index
    [2 ^ 61] has the byte offset [2 ^ 64], which wraps to zero: the access
    is in bounds although the index is not below [src_shape[0] = 1].  With
    empty rows nothing is read or written, whatever the index. *)
Lemma gather_dst_rows_counterexample :
  (well_formed gather_src ∧ index_well_formed gather_idx ∧ well_formed gather_dst
   ∧ gather_preconditions gather_src gather_idx gather_dst
   ∧ gather gather_src gather_idx gather_dst
     = Done (mkHostTensor f16 [2; 1; 1] [1; 2; 1; 2])
   ∧ ¬ (indices_in_range gather_idx 1 ∧ (2 ≤ 1)%N))
  ∧ (well_formed wide_src ∧ index_well_formed far_idx ∧ well_formed wide_dst
     ∧ gather_preconditions wide_src far_idx wide_dst
     ∧ gather wide_src far_idx wide_dst
       = Done (mkHostTensor f16 [1; 1; 4] [1; 2; 3; 4; 5; 6; 7; 8])
     ∧ ¬ (indices_in_range far_idx 1 ∧ (1 ≤ 1)%N))
  ∧ (well_formed empty_src ∧ index_well_formed fifth_idx ∧ well_formed empty_dst
     ∧ gather_preconditions empty_src fifth_idx empty_dst
     ∧ gather empty_src fifth_idx empty_dst = Done empty_dst
     ∧ ¬ (indices_in_range fifth_idx 1 ∧ (1 ≤ 1)%N)).
Proof.
  split; [|split].
  - split. { split; [done|]. split; [done|]. repeat constructor. }
    split. { split; [done|]. repeat constructor; done. }
    split. { split; [done|]. split; [done|]. repeat constructor. }
    split. { split; [done|]. split; [by left|]. split; [done|]. by exists 2, 1, 1, 2, 1. }
    split; [by vm_compute|]. intros [_ H]. lia.
  - split. { split; [done|]. split; [done|]. repeat constructor. }
    split. { split; [done|]. repeat constructor; done. }
    split. { split; [done|]. split; [done|]. repeat constructor. }
    split. { split; [done|]. split; [by left|]. split; [done|]. by exists 1, 1, 4, 1, 1. }
    split; [by vm_compute|]. intros [H _].
    specialize (H 0%nat (2 ^ 61)%Z eq_refl). lia.
  - split. { split; [done|]. split; [done|]. repeat constructor. }
    split. { split; [done|]. repeat constructor; done. }
    split. { split; [done|]. split; [done|]. repeat constructor. }
    split. { split; [done|]. split; [by left|]. split; [done|]. by exists 1, 1, 0, 1, 1. }
    split; [by vm_compute|]. intros [H _].
    specialize (H 0%nat 5%Z eq_refl). lia.
Qed.

Lemma gather_bounds_witness :
  in_bounds gather_src gather_idx gather_dst
  ∧ indices_in_range gather_idx 1 ∧ 2 ≤ 2 * 1.
Proof.
  destruct (gather_bounds gather_src gather_idx gather_dst 2 1 1 2 1) as [Hsuff Hnec].
  - split; [done|]. split; [done|]. repeat constructor.
  - split; [done|]. repeat constructor; done.
  - split; [done|]. split; [done|]. repeat constructor.
  - reflexivity.
  - by left.
  - reflexivity.
  - reflexivity.
  - reflexivity.
  - reflexivity.
  - assert (in_bounds gather_src gather_idx gather_dst) as Hin.
    { apply Hsuff; [|vm_compute; discriminate].
      intros r z Hz. destruct r as [|[|r]]; simpl in Hz; [| |discriminate];
        injection Hz as <-; split; reflexivity || discriminate. }
    split; [exact Hin|]. apply Hnec; [vm_compute; discriminate| |exact Hin].
    intros r z Hz. destruct r as [|[|r]]; simpl in Hz; [| |discriminate];
      injection Hz as <-; vm_compute; discriminate.
Defined.

End GatherFacts.

Module ViewFacts.
Import Util Scenario UtilSpec UtilFacts.
Local Open Scope N_scope.

Lemma wrap64_sub_back a b :
  a < 2 ^ 64 → b < 2 ^ 64 → wrap64 (wrap64 (a + b) + 2 ^ 64 - a) = b.
Proof.
  intros Ha Hb. unfold wrap64.
  destruct (decide (a + b < 2 ^ 64)) as [Hs|Hs].
  - rewrite (N.mod_small (a + b)) by done.
    replace (a + b + 2 ^ 64 - a) with (b + 1 * 2 ^ 64) by lia.
    rewrite N.Div0.mod_add. by apply N.mod_small.
  - assert ((a + b) mod 2 ^ 64 = a + b - 2 ^ 64) as ->.
    { replace (a + b) with ((a + b - 2 ^ 64) + 1 * 2 ^ 64) at 1 by lia.
      rewrite N.Div0.mod_add. apply N.mod_small. lia. }
    replace (a + b - 2 ^ 64 + 2 ^ 64 - a) with b by lia. by apply N.mod_small.
Qed.

Lemma wrap64_whole n : n < 2 ^ 64 → wrap64 (n + 2 ^ 64 - 0) = n.
Proof.
  intros Hn. unfold wrap64. replace (n + 2 ^ 64 - 0) with (n + 1 * 2 ^ 64) by lia.
  rewrite N.Div0.mod_add. by apply N.mod_small.
Qed.

(** The shape of a view whose start is zero but at [dim]. *)
Lemma view_shape_spec shape : ∀ dim offset len,
  (dim < length shape)%nat → Forall (λ n, n < 2 ^ 64) shape →
  offset < 2 ^ 64 → len < 2 ^ 64 →
  zip_with (λ t f, wrap64 (t + 2 ^ 64 - f))
    (<[dim := wrap64 (offset + len)]> shape)
    (<[dim := offset]> (replicate (length shape) 0))
  = <[dim := len]> shape.
Proof.
  induction shape as [|n shape IH]; intros dim offset len Hd Hall Ho Hl; [simpl in Hd; lia|].
  apply Forall_cons in Hall as [Hn Hall]. destruct dim as [|dim]; simpl.
  - rewrite wrap64_sub_back by done. f_equal.
    clear -Hall. induction Hall as [|m l Hm _ IH]; [done|].
    simpl. by rewrite wrap64_whole, IH.
  - rewrite wrap64_whole by done. f_equal. apply IH; [simpl in Hd; lia|done..].
Qed.

(** A start of zeros leaves a 64-bit pointer where it is. *)
Lemma shift_ptr_zeros rank : ∀ strides ptr,
  (rank ≤ length strides)%nat → ptr < 2 ^ 64 →
  shift_ptr strides (replicate rank 0) ptr = Some ptr.
Proof.
  induction rank as [|rank IH]; intros strides ptr Hl Hp; [by destruct strides|].
  destruct strides as [|st strides]; [simpl in Hl; lia|].
  cbn [replicate shift_ptr]. rewrite N.mul_0_r.
  assert (wrap64 (ptr + wrap64 0) = ptr) as ->.
  { unfold wrap64. rewrite N.Div0.mod_0_l, N.add_0_r. by apply N.mod_small. }
  apply IH; [simpl in Hl; lia|done].
Qed.

Lemma wrap64_lt n : wrap64 n < 2 ^ 64.
Proof. unfold wrap64. by apply N.mod_lt. Qed.

(** The pointer of such a view moves by the stride of [dim] alone, modulo
    [2 ^ 64]. *)
Lemma shift_ptr_spec strides : ∀ rank dim offset ptr stride,
  (dim < rank)%nat → (rank ≤ length strides)%nat → strides !! dim = Some stride →
  shift_ptr strides (<[dim := offset]> (replicate rank 0)) ptr
  = Some (wrap64 (ptr + stride * offset)).
Proof.
  induction strides as [|st strides IH]; intros rank dim offset ptr stride Hd Hr Hs;
    [simpl in Hr; lia|].
  destruct rank as [|rank]; [lia|]. destruct dim as [|dim].
  - injection Hs as ->. cbn [replicate insert list_insert shift_ptr].
    assert (wrap64 (ptr + wrap64 (stride * offset)) = wrap64 (ptr + stride * offset)) as ->.
    { unfold wrap64. by rewrite N.Div0.add_mod_idemp_r. }
    apply shift_ptr_zeros; [simpl in Hr; lia|apply wrap64_lt].
  - cbn [replicate insert list_insert shift_ptr]. rewrite N.mul_0_r.
    rewrite (IH rank dim offset _ stride); [|lia|simpl in Hr; lia|done].
    f_equal. unfold wrap64. rewrite N.Div0.mod_0_l, N.add_0_r.
    by rewrite N.Div0.add_mod_idemp_l.
Qed.

Lemma view_slice t dim stride offset len :
  sliceable t → t_strides t !! dim = Some stride → (dim < length (t_shape t))%nat →
  offset < 2 ^ 64 → len < 2 ^ 64 →
  view t dim offset len = Done (slice t dim stride offset len).
Proof.
  intros (Hu & Hi & Hr & Hall & Hp) Hs Hd Ho Hl. unfold view.
  rewrite decide_True by done. unfold view_from_to.
  rewrite !length_insert, length_replicate.
  rewrite bool_decide_eq_true_2 by done. simpl.
  rewrite !bool_decide_eq_true_2 by done. simpl.
  rewrite (shift_ptr_spec _ _ _ _ _ stride Hd Hr Hs).
  unfold slice. f_equal. f_equal. by apply view_shape_spec.
Qed.

Lemma slice_sliceable t dim stride offset len :
  sliceable t → len < 2 ^ 64 → sliceable (slice t dim stride offset len).
Proof.
  intros (Hu & Hi & Hr & Hall & Hp) Hl. unfold sliceable, slice. simpl.
  rewrite length_insert. repeat split; try done; [|apply wrap64_lt].
  apply Forall_forall. intros x Hx. apply list_elem_of_lookup in Hx as [i Hx].
  destruct (decide (i = dim)) as [->|NE].
  - apply list_lookup_insert_Some in Hx as [(_ & <- & _)|[? _]]; done.
  - rewrite list_lookup_insert_ne in Hx by done.
    rewrite Forall_forall in Hall. apply Hall. by eapply list_elem_of_lookup_2.
Qed.

Lemma sliceable_extent t dim n :
  sliceable t → t_shape t !! dim = Some n → n < 2 ^ 64.
Proof.
  intros (_ & _ & _ & Hall & _) Hn. rewrite Forall_forall in Hall.
  apply Hall. by eapply list_elem_of_lookup_2.
Qed.

Lemma long_in_sliceable buf : sliceable (long_in buf).
Proof.
  split; [discriminate|]. split; [discriminate|]. split; [simpl; lia|].
  split; [repeat constructor|reflexivity].
Defined.

(** A slice of [src] along [dim] that lies within the extent of [dim]:
    [view(src, dim, offset, len)] on a tensor of whole-byte elements copies
    nothing.  The result shares the storage, type and strides of [src], has
    extent [len] along [dim] and the other extents of [src], and starts
    [strides[dim] * offset] bytes further on, the address taken modulo
    [2 ^ 64] as the pointer arithmetic of the code takes it. *)
Theorem view_is_slice t dim stride n offset len :
  sliceable t → t_strides t !! dim = Some stride → t_shape t !! dim = Some n →
  offset + len ≤ n →
  ∃ v, view t dim offset len = Done v
       ∧ t_buf v = t_buf t ∧ t_type v = t_type t ∧ t_strides v = t_strides t
       ∧ t_shape v = <[dim := len]> (t_shape t)
       ∧ t_ptr v = wrap64 (t_ptr t + stride * offset).
Proof.
  intros Hs Hst Hn Hfit. pose proof (sliceable_extent _ _ _ Hs Hn) as Hlt.
  exists (slice t dim stride offset len).
  split; [|done].
  apply view_slice; [done|done|by eapply lookup_lt_Some|lia|lia].
Qed.

Lemma view_is_slice_witness :
  ∃ v, view (long_in 1) 1 4 1 = Done v
       ∧ t_buf v = 1%nat ∧ t_type v = f16 ∧ t_strides v = [10; 2]
       ∧ t_shape v = [1; 1] ∧ t_ptr v = wrap64 (0 + 2 * 4).
Proof.
  apply (view_is_slice (long_in 1) 1 2 5 4 1);
    [apply long_in_sliceable|reflexivity|reflexivity|simpl; lia].
Defined.

(** A slice of a slice along the same dimension is the slice of the
    original tensor at the summed offset: within the extents, taking
    [l2] elements from [o2] on out of the [l1] elements from [o1] on gives
    the view of [l2] elements from [o1 + o2] on, whatever the stride (the
    start composes modulo [2 ^ 64]). *)
Theorem view_of_view t dim stride n o1 l1 o2 l2 :
  sliceable t → t_strides t !! dim = Some stride → t_shape t !! dim = Some n →
  o1 + l1 ≤ n → o2 + l2 ≤ l1 →
  obind (λ v, view v dim o2 l2) (view t dim o1 l1) = view t dim (o1 + o2) l2.
Proof.
  intros Hs Hst Hn H1 H2. pose proof (sliceable_extent _ _ _ Hs Hn) as Hlt.
  assert (dim < length (t_shape t))%nat as Hd by by eapply lookup_lt_Some.
  rewrite (view_slice t dim stride o1 l1) by (try done; lia). simpl.
  rewrite (view_slice _ dim stride o2 l2);
    [|apply slice_sliceable; [done|lia]|done|simpl; by rewrite length_insert|lia|lia].
  rewrite (view_slice t dim stride (o1 + o2) l2) by (try done; lia).
  unfold slice. simpl. f_equal. f_equal.
  - by rewrite list_insert_insert_eq.
  - unfold wrap64. rewrite N.Div0.add_mod_idemp_l. f_equal. lia.
Qed.

Lemma view_of_view_witness :
  obind (λ v, view v 1 2 2) (view (long_in 1) 1 1 4) = view (long_in 1) 1 (1 + 2) 2.
Proof.
  apply (view_of_view (long_in 1) 1 2 5 1 4 2 2);
    [apply long_in_sliceable|reflexivity|reflexivity|simpl; lia|simpl; lia].
Defined.

(** The view that takes a whole dimension is the tensor itself. *)
Theorem view_whole t dim stride n :
  sliceable t → t_strides t !! dim = Some stride → t_shape t !! dim = Some n →
  view t dim 0 n = Done t.
Proof.
  intros Hs Hst Hn. pose proof (sliceable_extent _ _ _ Hs Hn) as Hlt.
  pose proof Hs as (_ & _ & _ & _ & Hp).
  rewrite (view_slice t dim stride 0 n); [|done|done|by eapply lookup_lt_Some|done..].
  f_equal. destruct t as [ty sh st buf ptr]. unfold slice. simpl in *. f_equal.
  - by apply list_insert_id.
  - rewrite N.mul_0_r, N.add_0_r. unfold wrap64. by apply N.mod_small.
Qed.

Lemma view_whole_witness : view (long_in 1) 1 0 5 = Done (long_in 1).
Proof.
  apply (view_whole (long_in 1) 1 2 5);
    [apply long_in_sliceable|reflexivity|reflexivity].
Defined.

End ViewFacts.

Module GatherRows.
Import Util Scenario UtilSpec UtilFacts GatherFacts.
Local Open Scope N_scope.

Lemma read_bytes_lookup d off n bytes j :
  read_bytes d off n = Some bytes → j < n → bytes !! N.to_nat j = d !! N.to_nat (off + j).
Proof.
  unfold read_bytes. intros H Hj.
  destruct (decide (n = 0)); [lia|].
  destruct (decide (off + n ≤ N.of_nat (length d))); [|done]. injection H as <-.
  rewrite lookup_take_lt by lia. rewrite lookup_drop. f_equal. lia.
Qed.

Lemma write_bytes_lookup_in d off bytes d' j :
  write_bytes d off bytes = Some d' → (j < length bytes)%nat →
  d' !! (N.to_nat off + j)%nat = bytes !! j.
Proof.
  unfold write_bytes. intros H Hj.
  destruct (decide (bytes = [])) as [->|_]; [simpl in Hj; lia|].
  destruct (decide (off + N.of_nat (length bytes) ≤ N.of_nat (length d))); [|done].
  injection H as <-.
  rewrite lookup_app_r by (rewrite length_take; lia).
  rewrite length_take. rewrite Nat.min_l by lia.
  rewrite lookup_app_l by lia. f_equal. lia.
Qed.

Lemma write_bytes_lookup_out d off bytes d' k :
  write_bytes d off bytes = Some d' →
  (k < N.to_nat off ∨ N.to_nat off + length bytes ≤ k)%nat →
  d' !! k = d !! k.
Proof.
  unfold write_bytes. intros H Hk.
  destruct (decide (bytes = [])) as [->|_]; [by injection H as <-|].
  destruct (decide (off + N.of_nat (length bytes) ≤ N.of_nat (length d))); [|done].
  injection H as <-.
  destruct Hk as [Hk|Hk].
  - rewrite lookup_app_l by (rewrite length_take; lia). by rewrite lookup_take_lt.
  - rewrite lookup_app_r by (rewrite length_take; lia).
    rewrite length_take, Nat.min_l by lia.
    rewrite lookup_app_r by lia. rewrite lookup_drop. f_equal. lia.
Qed.

Section rows.
Context (src_data : list N) (pIdx : list Z) (cols es : N).
Local Abbreviation n := (wrap64 (cols * es)) (only parsing).
Local Abbreviation body := (gather_row src_data pIdx cols cols es) (only parsing).

(** The row loop writes row [r] of the destination with the row of the
    source that index [r] selects, and nothing else. *)
Lemma gather_rows_copy s0 count m :
  0 < es →
  N.of_nat (length src_data) = s0 * (cols * es) → s0 * (cols * es) < 2 ^ 64 →
  (∀ r, r < count → ∃ z, pIdx !! N.to_nat r = Some z ∧ (0 ≤ z)%Z ∧ Z.to_N z < s0) →
  ∀ r0 d, r0 + N.of_nat m ≤ count → count * n ≤ N.of_nat (length d) →
  ∃ d', for_range m r0 body (r0 * n, d) = Some ((r0 + N.of_nat m) * n, d')
        ∧ length d' = length d
        ∧ (∀ k, (k < N.to_nat (r0 * n) ∨ N.to_nat ((r0 + N.of_nat m) * n) ≤ k)%nat →
              d' !! k = d !! k)
        ∧ (∀ r z j, r0 ≤ r < r0 + N.of_nat m → pIdx !! N.to_nat r = Some z → j < n →
              row_byte d' n r j = row_byte src_data n (Z.to_N z) j).
Proof.
  intros Hes Hlen Hfit Hidx. induction m as [|m IH]; intros r0 d Hr Hd.
  - exists d. simpl. split; [do 2 f_equal; lia|]. split; [done|]. split; [done|].
    intros r z j Hrr. lia.
  - cbn [for_range]. rewrite gather_row_unfold.
    destruct (Hidx r0 ltac:(lia)) as (z0 & Hz & Hz0 & Hzs). rewrite Hz. simpl.
    assert (0 < s0) as Hs0 by lia.
    assert (cols * es ≤ s0 * (cols * es)) as Hrow.
    { rewrite <- (N.mul_1_l (cols * es)) at 1. apply N.mul_le_mono_r. lia. }
    assert (n = cols * es) as En by (apply wrap64_small; lia).
    assert (src_row_offset cols es z0 = Z.to_N z0 * n) as Eo.
    { destruct (decide (cols = 0)) as [->|Hc].
      - change (src_row_offset 0 es z0) with 0. change (wrap64 (0 * es)) with 0. lia.
      - rewrite En. apply (src_row_offset_exact cols es z0 s0); try done. lia. }
    assert ((Z.to_N z0 + 1) * (cols * es) ≤ s0 * (cols * es)) as Hsrc
      by (apply N.mul_le_mono_r; lia).
    destruct (read_bytes_ok src_data (src_row_offset cols es z0) n) as [bytes Hb].
    { rewrite Eo, En, Hlen. lia. }
    rewrite Hb. simpl.
    pose proof (read_bytes_length _ _ _ _ Hb) as Lb.
    assert ((r0 + 1) * n ≤ count * n) as Hdst by (apply N.mul_le_mono_r; lia).
    destruct (write_bytes_ok d (r0 * n) bytes ltac:(lia)) as [d1 Hd1].
    rewrite Hd1. simpl.
    pose proof (write_bytes_length _ _ _ _ Hd1) as L1.
    replace (r0 * n + n) with (N.succ r0 * n) by lia.
    destruct (IH (N.succ r0) d1 ltac:(lia) ltac:(lia)) as (d' & Hd' & L' & Out & Rows).
    exists d'. split; [rewrite Hd'; do 2 f_equal; lia|]. split; [congruence|].
    assert ((N.succ r0 + N.of_nat m) * n = (r0 + N.of_nat (S m)) * n) as Eend
      by (f_equal; lia).
    assert (N.succ r0 * n = r0 * n + n) as Enext by lia.
    split.
    + intros k Hk. rewrite Out by lia.
      apply (write_bytes_lookup_out _ _ _ _ _ Hd1). lia.
    + intros r z j Hrr Hzr Hj.
      destruct (decide (r = r0)) as [->|NE]; [|apply Rows; [lia|done..]].
      rewrite Hz in Hzr. injection Hzr as <-. unfold row_byte.
      rewrite Out by lia.
      replace (N.to_nat (r0 * n + j)) with (N.to_nat (r0 * n) + N.to_nat j)%nat by lia.
      rewrite (write_bytes_lookup_in _ _ _ _ _ Hd1) by lia.
      rewrite (read_bytes_lookup _ _ _ _ _ Hb Hj). by rewrite Eo.
Qed.
End rows.

(** With the assertions of [gather] met on well-formed tensors, indices in
    range and room for [N] rows, [gather] succeeds and row [r] of the result
    is row [idx[r]] of the source, byte for byte; type, shape and every byte
    after the [N] rows are those of the destination. *)
Theorem gather_copies_rows src idx dst n s0 s1 d0 d1 :
  well_formed src → index_well_formed idx → well_formed dst →
  it_type idx = i64 → (ht_type src = f16 ∨ ht_type src = f32) →
  ht_type src = ht_type dst →
  it_shape idx = [1; n] → ht_shape src = [s0; s1] → ht_shape dst = [d0; d1; s1] →
  indices_in_range idx s0 → n ≤ d0 * d1 →
  let row_bytes := s1 * type_size (ht_type src) in
  ∃ dst', gather src idx dst = Done dst'
    ∧ ht_type dst' = ht_type dst ∧ ht_shape dst' = ht_shape dst
    ∧ length (ht_data dst') = length (ht_data dst)
    ∧ (∀ r z j, it_vals idx !! r = Some z → j < row_bytes →
         row_byte (ht_data dst') row_bytes (N.of_nat r) j
         = row_byte (ht_data src) row_bytes (Z.to_N z) j)
    ∧ (∀ k, (N.to_nat (n * row_bytes) ≤ k)%nat →
         ht_data dst' !! k = ht_data dst !! k).
Proof.
  intros (Ls & Fs & Vs) (Li & Vi) (Ld & Fd & Vd) Hi Hty Hsd Hsi Hss Hsh Hrange Hn row_bytes.
  assert (bitwidth (ht_type src) = 8 * type_size (ht_type src)) as Hbw
    by (destruct Hty as [-> | ->]; done).
  assert (0 < type_size (ht_type src)) as Hes by (destruct Hty as [-> | ->]; done).
  rewrite (byte_size_whole _ _ Hbw), Hss in Ls, Fs.
  rewrite <- Hsd, (byte_size_whole _ _ Hbw), Hsh in Ld, Fd.
  rewrite Hsi in Li.
  unfold shape_size in *. simpl in Ls, Fs, Ld, Fd, Li.
  set (es := type_size (ht_type src)) in *.
  assert (N.of_nat (length (ht_data src)) = s0 * (s1 * es)) as Ls' by lia.
  assert (N.of_nat (length (ht_data dst)) = d0 * d1 * (s1 * es)) as Ld' by lia.
  assert (N.of_nat (length (it_vals idx)) = n) as Li' by lia.
  rewrite (gather_unfold _ _ _ _ _ _ _ _ Hi Hty Hsd Hsi Hss Hsh). fold es.
  assert (wrap64 (s1 * es) ≤ s1 * es) as Hw by (unfold wrap64; apply N.Div0.mod_le).
  assert (n * wrap64 (s1 * es) ≤ d0 * d1 * (s1 * es)) as Hroom
    by (apply N.mul_le_mono; lia).
  destruct (gather_rows_copy (ht_data src) (it_vals idx) s1 es s0 n (N.to_nat n)
              Hes Ls' ltac:(lia)) with (r0 := 0) (d := ht_data dst)
    as (d' & Hd' & L' & Out & Rows).
  { intros r Hr.
    destruct (lookup_lt_is_Some_2 (it_vals idx) (N.to_nat r) ltac:(lia)) as [z Hz].
    exists z. split; [done|]. specialize (Hrange _ _ Hz). lia. }
  { lia. }
  { lia. }
  unfold for_upto. rewrite N.mul_0_l in Hd'. rewrite Hd'.
  eexists. split; [done|]. simpl. split; [done|]. split; [done|]. split; [done|].
  destruct (decide (n = 0)) as [->|Hn0].
  { split.
    - intros r z j Hz. apply lookup_lt_Some in Hz. lia.
    - intros k _. apply Out. right. simpl. lia. }
  assert (0 < s0) as Hs0.
  { destruct (lookup_lt_is_Some_2 (it_vals idx) 0 ltac:(lia)) as [z Hz].
    specialize (Hrange _ _ Hz). lia. }
  assert (s1 * es ≤ s0 * (s1 * es)) as Hrow.
  { rewrite <- (N.mul_1_l (s1 * es)) at 1. apply N.mul_le_mono_r. lia. }
  assert (wrap64 (s1 * es) = row_bytes) as Ew by (apply wrap64_small; lia).
  rewrite Ew in *. split.
  - intros r z j Hz Hj. apply Rows; [|by rewrite Nat2N.id|done].
    apply lookup_lt_Some in Hz. lia.
  - intros k Hk. apply Out. right. rewrite N.add_0_l, N2Nat.id. done.
Qed.

Lemma gather_copies_rows_witness :
  ∃ dst', gather gather_src gather_idx gather_dst = Done dst'
    ∧ ht_type dst' = f16 ∧ ht_shape dst' = [2; 1; 1]
    ∧ length (ht_data dst') = 4%nat
    ∧ (∀ r z j, it_vals gather_idx !! r = Some z → j < 1 * 2 →
         row_byte (ht_data dst') (1 * 2) (N.of_nat r) j
         = row_byte (ht_data gather_src) (1 * 2) (Z.to_N z) j)
    ∧ (∀ k, (N.to_nat (2 * (1 * 2)) ≤ k)%nat →
         ht_data dst' !! k = ht_data gather_dst !! k).
Proof.
  apply (gather_copies_rows gather_src gather_idx gather_dst 2 1 1 2 1).
  - split; [done|]. split; [done|]. repeat constructor.
  - split; [done|]. repeat constructor; done.
  - split; [done|]. split; [done|]. repeat constructor.
  - reflexivity.
  - by left.
  - reflexivity.
  - reflexivity.
  - reflexivity.
  - reflexivity.
  - intros r z Hz. destruct r as [|[|r]]; simpl in Hz; [| |discriminate];
      injection Hz as <-; split; reflexivity || discriminate.
  - vm_compute. discriminate.
Defined.

End GatherRows.

Module TransposeFacts.
Import Util Scenario UtilSpec UtilFacts.
Local Open Scope N_scope.

(** On a well-formed i4 tensor of shape [A, B, C] with even dimensions
    [transpose] succeeds, gives a well-formed tensor of shape [C, A, B], and
    element [(c, a, b)] of the result is element [(a, b, c)] of the input. *)
Theorem transpose_moves_elements g t A B C :
  ht_type t = i4 → ht_shape t = [A; B; C] → well_formed t →
  A mod 2 = 0 → B mod 2 = 0 → C mod 2 = 0 → A * B * C < 2 ^ 64 →
  ∃ t', transpose g t = Done t'
    ∧ ht_type t' = i4 ∧ ht_shape t' = [C; A; B] ∧ well_formed t'
    ∧ ∀ a b c, a < A → b < B → c < C → element3 t' c a b = element3 t a b c.
Proof.
  intros Hty Hsh Hwf HA HB HC Hsz.
  destruct (transpose_nibbles g t A B C Hty Hsh Hwf HA HB HC Hsz)
    as (t' & E & Ty & Sh & Wf & Hn).
  exists t'. repeat split; try done; try apply Wf.
  intros a b c Ha Hb Hc. unfold element3. rewrite Sh, Hsh.
  pose proof (cell_lt a b A B Ha Hb) as Hab.
  rewrite Hn.
  - rewrite rot_cell by done. f_equal. lia.
  - replace (A * B * C) with (C * (A * B)) by lia. by apply cell_lt.
Qed.

Lemma transpose_moves_elements_witness :
  ∃ t', transpose (λ _, 0) even_tensor = Done t'
    ∧ ht_type t' = i4 ∧ ht_shape t' = [2; 2; 2] ∧ well_formed t'
    ∧ ∀ a b c, a < 2 → b < 2 → c < 2 →
        element3 t' c a b = element3 even_tensor a b c.
Proof.
  apply (transpose_moves_elements _ even_tensor 2 2 2); try reflexivity.
  split; [reflexivity|]. split; [reflexivity|]. repeat constructor.
Defined.

(** With even dimensions every nibble of the fresh tensor is written: the
    result of [transpose] does not depend on what the new storage held. *)
Theorem transpose_ignores_garbage g1 g2 t A B C :
  ht_type t = i4 → ht_shape t = [A; B; C] → well_formed t →
  A mod 2 = 0 → B mod 2 = 0 → C mod 2 = 0 → A * B * C < 2 ^ 64 →
  transpose g1 t = transpose g2 t.
Proof.
  intros Hty Hsh Hwf HA HB HC Hsz.
  destruct (transpose_nibbles g1 t A B C Hty Hsh Hwf HA HB HC Hsz)
    as (t1 & E1 & Ty1 & Sh1 & Wf1 & N1).
  destruct (transpose_nibbles g2 t A B C Hty Hsh Hwf HA HB HC Hsz)
    as (t2 & E2 & Ty2 & Sh2 & Wf2 & N2).
  rewrite E1, E2. f_equal.
  destruct t1 as [ty1 sh1 d1], t2 as [ty2 sh2 d2]. simpl in *. subst. f_equal.
  destruct Wf1 as (L1 & _ & V1), Wf2 as (L2 & _ & V2). simpl in *.
  assert ((C * A * B) mod 2 = 0) as Heven by (by apply mul_even_r).
  pose proof (byte_size_i4_even C A B Heven) as Hbs.
  apply nib_ext; [done|done|lia|].
  intros k Hk. rewrite N1, N2 by lia. done.
Qed.

Lemma transpose_ignores_garbage_witness :
  transpose (λ _, 0) even_tensor = transpose (λ k, N.of_nat k) even_tensor.
Proof.
  apply (transpose_ignores_garbage _ _ even_tensor 2 2 2); try reflexivity.
  split; [reflexivity|]. split; [reflexivity|]. repeat constructor.
Defined.

End TransposeFacts.

Module TextFacts.
Import Util Scenario UtilSpec UtilFacts.
Local Open Scope N_scope.

(** ** [starts_with] *)

Lemma substring_prefix prefix : ∀ str,
  String.substring 0 (String.length prefix) str = prefix
  ↔ ∃ rest, str = String.append prefix rest.
Proof.
  induction prefix as [|c prefix IH]; intros str; simpl.
  - split; [eauto|]. intros _. by destruct str.
  - destruct str as [|c' str]; simpl.
    + split; [done|]. by intros [rest ?].
    + split.
      * intros [= -> H]. apply IH in H as [rest ->]. eauto.
      * intros [rest [= -> ->]]. f_equal. apply IH. eauto.
Qed.

(** [starts_with(str, prefix)] holds exactly when [str] is [prefix]
    followed by some rest; a prefix longer than [str] never matches and the
    empty prefix always does. *)
Theorem starts_with_prefix str prefix :
  starts_with str prefix = true ↔ ∃ rest, str = String.append prefix rest.
Proof.
  unfold starts_with. rewrite bool_decide_eq_true. apply substring_prefix.
Qed.

(** ** [fmt] *)

Lemma digits_value_snoc ds d : digits_value (ds ++ [d]) = digits_value ds * 10 + d.
Proof. unfold digits_value. by rewrite foldl_app. Qed.

Lemma half_fuel f n : n < 2 ^ N.of_nat (S f) → n / 10 < 2 ^ N.of_nat f.
Proof.
  intros Hn. rewrite Nat2N.inj_succ, N.pow_succ_r' in Hn.
  generalize dependent (2 ^ N.of_nat f). intros p Hn. lia.
Qed.

Lemma fuel_left f n : n < 2 ^ N.of_nat (S f) → n / 10 ≠ 0 → (1 ≤ f)%nat.
Proof. intros Hn Hd. destruct f; [|lia]. simpl in Hn. lia. Qed.

(** What the digit loop gives when the fuel covers the bits of [n]: digits
    that denote [n], without a leading zero, as many as [n] needs. *)
Lemma decimal_digits_spec f : ∀ n acc,
  (1 ≤ f)%nat → n < 2 ^ N.of_nat f →
  ∃ ds, decimal_digits f n acc = ds ++ acc
        ∧ Forall (λ d, d < 10) ds
        ∧ digits_value ds = n
        ∧ (1 ≤ length ds)%nat
        ∧ n < 10 ^ N.of_nat (length ds)
        ∧ (n ≠ 0 → 10 ^ (N.of_nat (length ds) - 1) ≤ n).
Proof.
  induction f as [|f IH]; intros n acc Hf Hn; [lia|].
  cbn [decimal_digits]. destruct (decide (n / 10 = 0)) as [Hz|Hnz].
  - exists [n mod 10]. assert (n < 10) by lia. rewrite N.mod_small by done.
    split; [done|]. split; [by repeat constructor|]. split; [done|].
    split; [simpl; lia|].
    change (N.of_nat (length [n])) with 1. change (10 ^ 1) with 10.
    change (10 ^ (1 - 1)) with 1. lia.
  - destruct (IH (n / 10) (n mod 10 :: acc) (fuel_left _ _ Hn Hnz) (half_fuel _ _ Hn))
      as (ds & Hds & Hall & Hval & Hlen & Hup & Hlow).
    exists (ds ++ [n mod 10]). rewrite <- app_assoc. split; [done|].
    split; [apply Forall_app; split; [done|]; repeat constructor; lia|].
    split; [rewrite digits_value_snoc, Hval; lia|].
    rewrite length_app. simpl. split; [lia|].
    replace (N.of_nat (length ds + 1)) with (N.succ (N.of_nat (length ds))) by lia.
    rewrite N.pow_succ_r'. split.
    + generalize dependent (10 ^ N.of_nat (length ds)). intros p. lia.
    + intros _. specialize (Hlow Hnz).
      replace (N.succ (N.of_nat (length ds)) - 1)
        with (N.succ (N.of_nat (length ds) - 1)) by lia.
      rewrite N.pow_succ_r'.
      generalize dependent (10 ^ (N.of_nat (length ds) - 1)). intros p. lia.
Qed.

(** The loop that counts [regs] turns as often as the digit loop. *)
Lemma fmt_regs_digits f : ∀ n r acc,
  (1 ≤ f)%nat → n < 2 ^ N.of_nat f → r + N.of_nat f < 2 ^ 64 →
  fmt_regs f n r + N.of_nat (length acc) + 1
  = r + N.of_nat (length (decimal_digits f n acc)).
Proof.
  induction f as [|f IH]; intros n r acc Hf Hn Hr; [lia|].
  cbn [fmt_regs decimal_digits]. destruct (decide (n / 10 = 0)) as [Hz|Hnz].
  - simpl. lia.
  - rewrite (wrap64_small (r + 1)) by lia.
    pose proof (IH (n / 10) (r + 1) (n mod 10 :: acc)
                  (fuel_left _ _ Hn Hnz) (half_fuel _ _ Hn) ltac:(lia)) as H.
    simpl in H. lia.
Qed.

Lemma string_of_list_length l : String.length (String.string_of_list_ascii l) = length l.
Proof. induction l as [|c l IH]; simpl; [done|]. by rewrite IH. Qed.


Lemma digits_value_zeros k ds : digits_value (replicate k 0 ++ ds) = digits_value ds.
Proof.
  unfold digits_value. rewrite foldl_app. f_equal.
  induction k as [|k IH]; [done|]. simpl. exact IH.
Qed.


(** [fmt] as digits: the digits of [number] behind as many zeros as [regs]
    asks for. *)
Lemma fmt_digits number total :
  number < 2 ^ 64 →
  ∃ ds k, fmt number total
          = String.string_of_list_ascii (digit_char <$> (replicate k 0 ++ ds))
    ∧ k = (N.to_nat (fmt_regs 64 total 1) - length ds)%nat
    ∧ decimal_digits 64 number [] = ds
    ∧ Forall (λ d, d < 10) (replicate k 0 ++ ds)
    ∧ digits_value (replicate k 0 ++ ds) = number
    ∧ (1 ≤ length ds)%nat
    ∧ number < 10 ^ N.of_nat (length ds)
    ∧ (number ≠ 0 → 10 ^ (N.of_nat (length ds) - 1) ≤ number).
Proof.
  intros Hn.
  destruct (decimal_digits_spec 64 number [] ltac:(lia) Hn)
    as (ds & Hds & Hall & Hval & Hlen & Hup & Hlow).
  rewrite app_nil_r in Hds.
  exists ds, (N.to_nat (fmt_regs 64 total 1) - length ds)%nat.
  split.
  { unfold fmt, setw_fill. rewrite Hds, fmap_app, fmap_replicate.
    by rewrite length_fmap. }
  split; [done|]. split; [done|].
  split; [apply Forall_app; split; [apply Forall_replicate; lia|done]|].
  split; [by rewrite digits_value_zeros|]. done.
Qed.



Lemma pow10_lt a b : 10 ^ a < 10 ^ b → a < b.
Proof. intros H. apply (N.pow_lt_mono_r_iff 10); [lia|done]. Qed.

(** The width of the text when [number] does not exceed [total]. *)
Lemma fmt_length number total :
  number ≤ total → total < 2 ^ 64 →
  String.length (fmt number total) = length (decimal_digits 64 total [])
  ∧ total < 10 ^ N.of_nat (length (decimal_digits 64 total []))
  ∧ (total ≠ 0 → 10 ^ (N.of_nat (length (decimal_digits 64 total [])) - 1) ≤ total).
Proof.
  intros Hle Ht.
  destruct (fmt_digits number total ltac:(lia))
    as (ds & k & -> & Hk & Hds & _ & _ & Hlen & Hup & Hlow).
  destruct (decimal_digits_spec 64 total [] ltac:(lia) Ht)
    as (dt & Hdt & _ & _ & Hlent & Hupt & Hlowt).
  rewrite app_nil_r in Hdt. rewrite Hdt.
  pose proof (fmt_regs_digits 64 total 1 [] ltac:(lia) Ht ltac:(lia)) as Hregs.
  rewrite Hdt in Hregs. change (N.of_nat (length (@nil N))) with 0 in Hregs.
  assert (length ds ≤ length dt)%nat as Hfit.
  { destruct (decide (number = 0)) as [->|Hnz].
    - vm_compute in Hds. subst ds. exact Hlent.
    - specialize (Hlow Hnz).
      assert (10 ^ (N.of_nat (length ds) - 1) < 10 ^ N.of_nat (length dt)) as Hp by lia.
      apply pow10_lt in Hp. lia. }
  split; [|done].
  rewrite string_of_list_length, length_fmap, length_app, length_replicate. lia.
Qed.

(** Every [number] up to [total] is written as wide as [total] itself,
    which is the number of decimal digits of [total]. *)
Theorem fmt_width number total :
  number ≤ total → total < 2 ^ 64 →
  let width := N.of_nat (String.length (fmt number total)) in
  String.length (fmt number total) = String.length (fmt total total)
  ∧ total < 10 ^ width ∧ (total ≠ 0 → 10 ^ (width - 1) ≤ total).
Proof.
  intros Hle Ht width. subst width.
  destruct (fmt_length number total Hle Ht) as (-> & Hup & Hlow).
  destruct (fmt_length total total ltac:(lia) Ht) as (-> & _). done.
Qed.

Lemma fmt_width_witness :
  String.length (fmt 7 100) = String.length (fmt 100 100)
  ∧ 100 < 10 ^ N.of_nat (String.length (fmt 7 100))
  ∧ (100 ≠ 0 → 10 ^ (N.of_nat (String.length (fmt 7 100)) - 1) ≤ 100).
Proof. apply (fmt_width 7 100); [discriminate|reflexivity]. Defined.

(** *** Order *)

Lemma foldl_digits a l :
  foldl (λ a d, a * 10 + d) a l = a * 10 ^ N.of_nat (length l) + digits_value l.
Proof.
  unfold digits_value. revert a. induction l as [|x l IH]; intros a; cbn [foldl length].
  - change (10 ^ N.of_nat 0) with 1. lia.
  - rewrite IH, (IH (0 * 10 + x)), Nat2N.inj_succ, N.pow_succ_r'.
    generalize (10 ^ N.of_nat (length l)).
    generalize (foldl (λ a d, a * 10 + d) 0 l). intros v p. lia.
Qed.

Lemma digits_value_cons d l :
  digits_value (d :: l) = d * 10 ^ N.of_nat (length l) + digits_value l.
Proof.
  unfold digits_value at 1. cbn [foldl]. rewrite foldl_digits.
  change (0 * 10 + d) with d. done.
Qed.

Lemma digits_value_lt l :
  Forall (λ d, d < 10) l → digits_value l < 10 ^ N.of_nat (length l).
Proof.
  induction 1 as [|d l Hd _ IH]; [done|].
  rewrite digits_value_cons.
  change (N.of_nat (length (d :: l))) with (N.of_nat (S (length l))).
  rewrite Nat2N.inj_succ, N.pow_succ_r'.
  assert (d * 10 ^ N.of_nat (length l) ≤ 9 * 10 ^ N.of_nat (length l))
    by (apply N.mul_le_mono_r; lia).
  lia.
Qed.

Lemma digit_char_compare d1 d2 :
  d1 < 10 → d2 < 10 → Ascii.compare (digit_char d1) (digit_char d2) = (d1 ?= d2).
Proof.
  intros H1 H2. unfold Ascii.compare, digit_char.
  rewrite !Ascii.N_ascii_embedding by lia.
  destruct (N.compare_spec d1 d2) as [->|Hlt|Hgt].
  - apply N.compare_refl.
  - apply N.compare_lt_iff. lia.
  - apply N.compare_gt_iff. lia.
Qed.

(** Among digit texts of one length the smaller number comes first. *)
Lemma digits_compare l1 : ∀ l2,
  length l1 = length l2 → Forall (λ d, d < 10) l1 → Forall (λ d, d < 10) l2 →
  digits_value l1 < digits_value l2 →
  String.compare (String.string_of_list_ascii (digit_char <$> l1))
                 (String.string_of_list_ascii (digit_char <$> l2)) = Lt.
Proof.
  induction l1 as [|d1 l1 IH]; intros [|d2 l2] Hlen H1 H2 Hv; try done.
  apply Forall_cons in H1 as [Hd1 H1]. apply Forall_cons in H2 as [Hd2 H2].
  injection Hlen as Hlen. rewrite !digits_value_cons, <- Hlen in Hv.
  pose proof (digits_value_lt l1 H1) as B1.
  pose proof (digits_value_lt l2 H2) as B2. rewrite <- Hlen in B2.
  cbn [fmap list_fmap String.string_of_list_ascii String.compare].
  rewrite digit_char_compare by done.
  destruct (N.compare_spec d1 d2) as [->|Hlt|Hgt]; [|done|].
  - apply IH; try done. lia.
  - exfalso.
    assert ((d2 + 1) * 10 ^ N.of_nat (length l1) ≤ d1 * 10 ^ N.of_nat (length l1))
      by (apply N.mul_le_mono_r; lia).
    lia.
Qed.

(** Texts written against one [total] sort as their numbers do. *)
Theorem fmt_order n1 n2 total :
  n1 < n2 → n2 ≤ total → total < 2 ^ 64 →
  String.compare (fmt n1 total) (fmt n2 total) = Lt.
Proof.
  intros Hlt Hle Ht.
  pose proof (fmt_length n1 total ltac:(lia) Ht) as [L1 _].
  pose proof (fmt_length n2 total Hle Ht) as [L2 _].
  destruct (fmt_digits n1 total ltac:(lia)) as (ds1 & k1 & E1 & _ & _ & A1 & V1 & _).
  destruct (fmt_digits n2 total ltac:(lia)) as (ds2 & k2 & E2 & _ & _ & A2 & V2 & _).
  rewrite E1 in L1 |- *. rewrite E2 in L2 |- *.
  rewrite string_of_list_length, length_fmap in L1, L2.
  apply digits_compare; [congruence|done|done|]. by rewrite V1, V2.
Qed.

Lemma fmt_order_witness : String.compare (fmt 9 100) (fmt 10 100) = Lt.
Proof. apply (fmt_order 9 10 100); [reflexivity|discriminate|reflexivity]. Defined.

End TextFacts.

Ltac Zify.zify_post_hook ::= idtac.

Module RequestFacts.
Import Util Request Frames.
Local Open Scope req_scope.

(** ** Frames: what a call leaves alone *)

Section frames.
Context (R : State → State → Prop).
Hypothesis R_refl : ∀ s, R s s.
Hypothesis R_trans : ∀ s1 s2 s3, R s1 s2 → R s2 s3 → R s1 s3.

Lemma preserves_ret {A} (a : A) : preserves R (ret a).
Proof. intros s. apply R_refl. Qed.

Lemma preserves_get : preserves R get.
Proof. intros s. apply R_refl. Qed.

Lemma preserves_throw {A} e : preserves R (@throw A e).
Proof. intros s. apply R_refl. Qed.

Lemma preserves_abort {A} : preserves R (@abort A).
Proof. intros s. done. Qed.

Lemma preserves_undefined {A} : preserves R (@undefined A).
Proof. intros s. done. Qed.

Lemma preserves_deref {A} (o : option A) : preserves R (deref o).
Proof. destruct o; [apply preserves_ret | apply preserves_undefined]. Qed.

Lemma preserves_at {A} (o : option A) : preserves R (at_ o).
Proof. destruct o; [apply preserves_ret | apply preserves_throw]. Qed.

Lemma preserves_value {A} (o : option A) : preserves R (value o).
Proof. destruct o; [apply preserves_ret | apply preserves_throw]. Qed.

Lemma preserves_assert b : preserves R (NPUW_ASSERT b).
Proof. destruct b; [apply preserves_ret | apply preserves_abort]. Qed.

Lemma preserves_modify f : (∀ s, R s (f s)) → preserves R (modify f).
Proof. intros H s. apply H. Qed.

Lemma preserves_bind {A B} (m : M A) (f : A → M B) :
  preserves R m → (∀ a, preserves R (f a)) → preserves R (bind m f).
Proof.
  intros Hm Hf s. unfold bind. specialize (Hm s).
  destruct (m s) as [a s'| |  |]; try done.
  specialize (Hf a s'). destruct (f a s'); eauto.
Qed.

Lemma preserves_try_catch {A} (m : M A) (h : Exn → M A) :
  preserves R m → (∀ e, preserves R (h e)) → preserves R (try_catch m h).
Proof.
  intros Hm Hh s. unfold try_catch. specialize (Hm s).
  destruct (m s) as [a s'| e s' |  |]; try done.
  specialize (Hh e s'). destruct (h e s'); eauto.
Qed.

Lemma preserves_for_each {A} (l : list A) (body : A → M unit) :
  (∀ x, preserves R (body x)) → preserves R (for_each l body).
Proof.
  intros H. induction l as [|x l IH]; simpl.
  - apply preserves_ret.
  - apply preserves_bind; [apply H | intros _; apply IH].
Qed.

Lemma preserves_fold_m {A B} (l : list A) (body : A → B → M B) (b : B) :
  (∀ x b, preserves R (body x b)) → preserves R (fold_m l body b).
Proof.
  intros H. revert b. induction l as [|x l IH]; intros b; simpl.
  - apply preserves_ret.
  - apply preserves_bind; [apply H | intros b'; apply IH].
Qed.

Lemma preserves_spatial_loop n nway off (body : N → M unit) :
  (∀ o, preserves R (body o)) → preserves R (spatial_loop n nway off body).
Proof.
  intros H. revert off. induction n as [|n IH]; intros off; simpl.
  - apply preserves_ret.
  - apply preserves_bind; [apply H | intros _; apply IH].
Qed.
End frames.

(** Splits a goal [preserves R m] along the structure of [m]; what is left
    are the calls it does not know and the updates of the state. *)
Ltac frame_known := fail.

Ltac frame_step R_refl R_trans :=
  first
    [ frame_known
    | apply (preserves_ret _ R_refl)
    | apply (preserves_get _ R_refl)
    | apply (preserves_throw _ R_refl)
    | apply preserves_abort
    | apply preserves_undefined
    | apply (preserves_deref _ R_refl)
    | apply (preserves_at _ R_refl)
    | apply (preserves_value _ R_refl)
    | apply (preserves_assert _ R_refl)
    | apply (preserves_bind _ R_trans); [|intros ?]
    | apply (preserves_try_catch _ R_trans); [|intros ?]
    | apply (preserves_for_each _ R_refl R_trans); intros ?
    | apply (preserves_fold_m _ R_refl R_trans); intros ? ?
    | apply (preserves_spatial_loop _ R_refl R_trans); intros ?
    | match goal with
      | |- preserves _ (match ?x with _ => _ end) => destruct x
      | |- preserves _ (let '(_, _) := ?x in _) => destruct x
      end ].

Ltac frame R_refl R_trans := repeat frame_step R_refl R_trans.

(** ** What stays put while a subgraph runs *)

Lemma same_frame_refl s : same_frame s s.
Proof. by repeat split. Qed.

Lemma same_frame_trans s1 s2 s3 :
  same_frame s1 s2 → same_frame s2 s3 → same_frame s1 s3.
Proof.
  unfold same_frame. intros H1 H2. destruct_and!. repeat split; congruence.
Qed.

Ltac same_frame := frame same_frame_refl same_frame_trans.

Lemma put_slot_same_frame s r rq rq' :
  slot s r = Some (Some rq) → rq_id rq' = rq_id rq →
  same_frame s (put_slot r (Some rq') s).
Proof.
  intros Hs Hid. destruct r as [i|i]; simpl in *.
  - repeat split; try done.
    unfold primary_ids. simpl. rewrite list_fmap_insert. simpl.
    apply list_insert_id. rewrite list_lookup_fmap, Hs. simpl.
    unfold slot_id. simpl. by rewrite Hid.
  - destruct (m_funcall_pipeline s !! i) as [fp|] eqn:Hfp; [|done].
    simpl in Hs. injection Hs as Hs.
    repeat split; try done.
    + unfold reserve_ids. simpl. apply list_eq. intros j.
      rewrite !list_lookup_fmap.
      destruct (decide (i = j)) as [->|NE].
      * rewrite list_lookup_alter_eq, Hfp. simpl. rewrite Hs.
        unfold slot_id. simpl. by rewrite Hid.
      * by rewrite list_lookup_alter_ne.
    + unfold pipeline_next. simpl. apply list_eq. intros j.
      rewrite !list_lookup_fmap.
      destruct (decide (i = j)) as [->|NE].
      * rewrite list_lookup_alter_eq, Hfp. done.
      * by rewrite list_lookup_alter_ne.
Qed.

Lemma emit_same_frame e : preserves same_frame (emit e).
Proof. intros s. by repeat split. Qed.

Lemma subreq_same_frame r : preserves same_frame (subreq r).
Proof. unfold subreq. same_frame. Qed.

Lemma subreq_inv r s rq s' :
  subreq r s = Ok rq s' → s' = s ∧ slot s r = Some (Some rq).
Proof.
  unfold subreq, bind, get, deref, ret, undefined.
  destruct (slot s r) as [[rq'|]|]; intros; simplify_eq; done.
Qed.

Lemma set_tensor_same_frame r p t : preserves same_frame (set_tensor r p t).
Proof.
  intros s. unfold set_tensor. unfold bind at 1.
  destruct (subreq r s) as [rq s1| | |] eqn:Hrq; try done.
  - apply subreq_inv in Hrq as [-> Hslot].
    unfold bind at 1. destruct (bound rq p) as [b|]; simpl; [|done].
    eapply same_frame_trans; [|by repeat split].
    eapply put_slot_same_frame; [done|]. by destruct p.
  - pose proof (subreq_same_frame r s) as H. by rewrite Hrq in H.
Qed.

Ltac frame_known ::=
  first [ apply emit_same_frame | apply set_tensor_same_frame ].

Lemma modify_next_prepared_same_frame b :
  preserves same_frame (modify (set_next_prepared b)).
Proof. intros s. by repeat split. Qed.

Lemma modify_failover_same_frame b :
  preserves same_frame (modify (set_failover b)).
Proof. intros s. by repeat split. Qed.

Lemma set_spatial_input_same_frame real_idx i t :
  preserves same_frame (set_spatial_input real_idx i t).
Proof.
  unfold set_spatial_input. same_frame.
Qed.

Lemma set_spatial_output_same_frame real_idx i t :
  preserves same_frame (set_spatial_output real_idx i t).
Proof.
  unfold set_spatial_output. same_frame.
Qed.

Ltac frame_known ::=
  first [ apply emit_same_frame | apply set_tensor_same_frame
        | apply modify_next_prepared_same_frame
        | apply modify_failover_same_frame
        | apply set_spatial_input_same_frame
        | apply set_spatial_output_same_frame ].

Lemma infer_same_frame E r : preserves same_frame (infer E r).
Proof. unfold infer. same_frame. Qed.

Lemma wait_same_frame E r : preserves same_frame (wait E r).
Proof. unfold wait. same_frame. Qed.

Lemma start_async_same_frame r : preserves same_frame (start_async r).
Proof. unfold start_async. same_frame. Qed.

Lemma connect_link_same_frame l : preserves same_frame (connect_link l).
Proof. unfold connect_link. same_frame. Qed.

Lemma connect_subrequests_same_frame : preserves same_frame connect_subrequests.
Proof. unfold connect_subrequests. same_frame. apply connect_link_same_frame. Qed.

Lemma unpack_closure_same_frame E idx r : preserves same_frame (unpack_closure E idx r).
Proof.
  unfold unpack_closure, classify_closure, copy_closure, unpack_one. same_frame.
Qed.

Ltac frame_known ::=
  first [ apply emit_same_frame | apply set_tensor_same_frame
        | apply modify_next_prepared_same_frame
        | apply modify_failover_same_frame
        | apply set_spatial_input_same_frame
        | apply set_spatial_output_same_frame
        | apply infer_same_frame | apply wait_same_frame
        | apply start_async_same_frame
        | apply connect_subrequests_same_frame
        | apply unpack_closure_same_frame ].

Lemma unsafe_infer_same_frame E real_idx : preserves same_frame (unsafe_infer E real_idx).
Proof.
  unfold unsafe_infer, spatial_step, spatial_tail, view_of, lift_outcome. same_frame.
Qed.

Lemma bind_global_parameters_same_frame E idx :
  preserves same_frame (bind_global_parameters E idx).
Proof. unfold bind_global_parameters, pick_subrequest. same_frame. Qed.

Lemma bind_global_results_same_frame idx :
  preserves same_frame (bind_global_results idx).
Proof. unfold bind_global_results. same_frame. Qed.

Lemma function_prologue_same_frame E idx :
  preserves same_frame (function_prologue E idx).
Proof. unfold function_prologue. same_frame. Qed.

Ltac frame_known ::=
  first [ apply emit_same_frame | apply set_tensor_same_frame
        | apply modify_next_prepared_same_frame
        | apply modify_failover_same_frame
        | apply set_spatial_input_same_frame
        | apply set_spatial_output_same_frame
        | apply infer_same_frame | apply wait_same_frame
        | apply start_async_same_frame
        | apply connect_subrequests_same_frame
        | apply unpack_closure_same_frame
        | apply unsafe_infer_same_frame
        | apply bind_global_parameters_same_frame
        | apply bind_global_results_same_frame
        | apply function_prologue_same_frame ].

Lemma unsafe_during_same_frame E real_idx f :
  preserves same_frame f → preserves same_frame (unsafe_during E real_idx f).
Proof. intros Hf. unfold unsafe_during. same_frame; exact Hf. Qed.

Lemma prepare_next_same_frame E next_idx :
  preserves same_frame (prepare_next E next_idx).
Proof. unfold prepare_next. same_frame. Qed.

Lemma unsafe_run_this_prep_next_same_frame E idx :
  preserves same_frame (unsafe_run_this_prep_next E idx).
Proof.
  unfold unsafe_run_this_prep_next. same_frame.
  all: try (apply unsafe_during_same_frame; same_frame).
  all: try apply prepare_next_same_frame.
Qed.

Lemma cancel_subrequest_same_frame idx : preserves same_frame (cancel_subrequest idx).
Proof. unfold cancel_subrequest. same_frame. Qed.

End RequestFacts.

Module WiringFacts.
Import Util Request Scenario Frames RequestFacts.
Local Open Scope req_scope.

#[local] Arguments connect_link : simpl never.
#[local] Arguments set_tensor : simpl never.

(** Runs the plumbing of the monad on the current goal. *)
Ltac run_m :=
  unfold emit, NPUW_ASSERT, deref, at_, value, try_catch, bind, ret, get, modify,
         throw, abort, undefined; simpl.

Lemma for_each_app {A} (l1 l2 : list A) (body : A → M unit) s :
  for_each (l1 ++ l2) body s =
  bind (for_each l1 body) (λ _, for_each l2 body) s.
Proof.
  revert s. induction l1 as [|x l1 IH]; intros s; simpl; [done|].
  unfold bind in *. destruct (body x s); done.
Qed.

(** A slot holds a handle, or is empty, in [s'] as in [s]. *)
Lemma same_frame_slot_null s s' i :
  same_frame s s' → m_subrequests s !! i = Some None → m_subrequests s' !! i = Some None.
Proof.
  intros F H. destruct F as (_ & _ & _ & _ & _ & _ & Hids & _).
  unfold primary_ids in Hids.
  assert ((slot_id <$> m_subrequests s') !! i = Some None) as H'
    by (rewrite Hids, list_lookup_fmap, H; done).
  rewrite list_lookup_fmap in H'.
  destruct (m_subrequests s' !! i) as [[rq|]|]; simplify_eq; done.
Qed.

Lemma same_frame_slot_live s s' i rq :
  same_frame s s' → m_subrequests s !! i = Some (Some rq) →
  ∃ rq', m_subrequests s' !! i = Some (Some rq') ∧ rq_id rq' = rq_id rq.
Proof.
  intros F H. destruct F as (_ & _ & _ & _ & _ & _ & Hids & _).
  unfold primary_ids in Hids.
  assert ((slot_id <$> m_subrequests s') !! i = Some (Some (rq_id rq))) as H'
    by (rewrite Hids, list_lookup_fmap, H; done).
  rewrite list_lookup_fmap in H'.
  destruct (m_subrequests s' !! i) as [[rq'|]|]; simplify_eq; eauto.
  unfold slot_id in H'. simpl in H'. simplify_eq. eauto.
Qed.

Lemma same_frame_sym s s' : same_frame s s' → same_frame s' s.
Proof. unfold same_frame. intros. destruct_and!. repeat split; congruence. Qed.

(** ** A link between two plain subgraphs *)

Lemma set_tensor_ok r p t s rq :
  slot s r = Some (Some rq) → is_Some (bound rq p) →
  set_tensor r p t s = Ok tt (rebound r rq p t s).
Proof.
  intros Hs [b Hb]. unfold set_tensor, subreq. run_m. rewrite Hs. simpl.
  rewrite Hb. unfold rebound. by destruct r.
Qed.

Lemma connect_link_plain s to pto from pfrom dfrom dto :
  m_compiled_submodels s !! from = Some dfrom →
  m_compiled_submodels s !! to = Some dto →
  replaced_by dfrom = None → replaced_by dto = None →
  connect_link ((to, pto), (from, pfrom)) s =
  match m_subrequests s !! from, m_subrequests s !! to with
  | Some None, Some (Some _) => Throw (FatalLink from to) s
  | Some _, Some None => Ok tt (set_trace (m_trace s ++ [EWarn]) s)
  | Some (Some pf), Some (Some pt) =>
      match rq_inputs pt !! pto, rq_outputs pf !! pfrom with
      | Some _, Some t => Ok tt (rebound (Primary to) pt (PIn pto) t s)
      | _, _ => Undefined
      end
  | _, _ => Undefined
  end.
Proof.
  intros Hf Ht Rf Rt. unfold connect_link, desc. run_m.
  rewrite Hf. simpl. rewrite Ht. simpl. rewrite Rf, Rt.
  destruct (m_subrequests s !! from) as [[pf|]|] eqn:Sf; simpl; try done;
    destruct (m_subrequests s !! to) as [[pt|]|] eqn:St; simpl; try done.
  destruct (rq_inputs pt !! pto) as [b|] eqn:Hb; simpl; [|done].
  destruct (rq_outputs pf !! pfrom) as [t|] eqn:Ho; simpl; [|done].
  rewrite (set_tensor_ok (Primary to) (PIn pto) t s pt); [done|done|].
  simpl. eauto.
Qed.

(** [connect_subrequests] once the links before [l] are wired. *)
Lemma connect_subrequests_split s before l after s1 :
  m_submodels_input_to_prev_output s = before ++ l :: after →
  for_each before connect_link s = Ok tt s1 →
  connect_subrequests s = bind (connect_link l) (λ _, for_each after connect_link) s1.
Proof.
  intros Hl Hb. unfold connect_subrequests. unfold bind at 1, get at 1.
  rewrite Hl, for_each_app. unfold bind at 1. rewrite Hb. done.
Qed.

Lemma for_each_connect_same_frame l s s1 :
  for_each l connect_link s = Ok tt s1 → same_frame s s1.
Proof.
  intros H.
  pose proof (preserves_for_each same_frame same_frame_refl same_frame_trans
                l connect_link connect_link_same_frame s) as P.
  by rewrite H in P.
Qed.

(** A link into a function call is passed over, whatever its producer. *)
Lemma connect_link_into_call s to pto from pfrom dfrom dto :
  m_compiled_submodels s !! from = Some dfrom →
  m_compiled_submodels s !! to = Some dto →
  is_Some (replaced_by dto) →
  connect_link ((to, pto), (from, pfrom)) s = Ok tt s.
Proof.
  intros Hf Ht [r Rt]. unfold connect_link, desc. run_m.
  rewrite Hf. simpl. rewrite Ht. simpl. rewrite Rt.
  by destruct (replaced_by dfrom).
Qed.

(** C4, amended.  For a link between two subgraphs neither of which is a
    function call: when the producer's subrequest was optimized out and the
    consumer's exists, [connect_link] throws the fatal error naming both
    subgraphs, and so does the wiring once it reaches the link; when the
    consumer's subrequest was optimized out, the link is passed over with a
    warning and the wiring goes on with the links after it.  A link into a
    function call is passed over before either check, whatever its producer
    and whatever the subrequests: nothing is thrown, no warning is given
    and the wiring goes on with the links after it. *)
Theorem optimized_out_links s to pto from pfrom dfrom dto :
  m_compiled_submodels s !! from = Some dfrom →
  m_compiled_submodels s !! to = Some dto →
  let l := ((to, pto), (from, pfrom)) in
  (replaced_by dfrom = None → replaced_by dto = None →
   m_subrequests s !! from = Some None → is_Some (m_subrequests s !! to ≫= id) →
     connect_link l s = Throw (FatalLink from to) s
     ∧ ∀ before after s1,
         m_submodels_input_to_prev_output s = before ++ l :: after →
         for_each before connect_link s = Ok tt s1 →
         connect_subrequests s = Throw (FatalLink from to) s1)
  ∧ (replaced_by dfrom = None → replaced_by dto = None →
     is_Some (m_subrequests s !! from) → m_subrequests s !! to = Some None →
     connect_link l s = Ok tt (set_trace (m_trace s ++ [EWarn]) s)
     ∧ ∀ before after s1,
         m_submodels_input_to_prev_output s = before ++ l :: after →
         for_each before connect_link s = Ok tt s1 →
         connect_subrequests s =
           for_each after connect_link (set_trace (m_trace s1 ++ [EWarn]) s1))
  ∧ (is_Some (replaced_by dto) →
     connect_link l s = Ok tt s
     ∧ ∀ before after s1,
         m_submodels_input_to_prev_output s = before ++ l :: after →
         for_each before connect_link s = Ok tt s1 →
         connect_subrequests s = for_each after connect_link s1).
Proof.
  intros Hf Ht l. subst l. cbv zeta. split; [|split].
  - intros Rf Rt Sf [rq St].
    destruct (m_subrequests s !! to) as [[rq'|]|] eqn:St'; try done.
    split.
    + rewrite (connect_link_plain _ _ _ _ _ _ _ Hf Ht Rf Rt), Sf, St'. done.
    + intros before after s1 Hl Hb.
      pose proof (for_each_connect_same_frame _ _ _ Hb) as F.
      rewrite (connect_subrequests_split _ _ _ _ _ Hl Hb). unfold bind.
      destruct (same_frame_slot_live _ _ _ _ F St') as (rq1 & St1 & _).
      pose proof (same_frame_slot_null _ _ _ F Sf) as Sf1.
      destruct F as (Hd & _).
      rewrite (connect_link_plain s1 _ _ _ _ dfrom dto) by congruence.
      by rewrite Sf1, St1.
  - intros Rf Rt [pf Sf] St. split.
    + rewrite (connect_link_plain _ _ _ _ _ _ _ Hf Ht Rf Rt), Sf, St.
      by destruct pf.
    + intros before after s1 Hl Hb.
      pose proof (for_each_connect_same_frame _ _ _ Hb) as F.
      rewrite (connect_subrequests_split _ _ _ _ _ Hl Hb). unfold bind.
      pose proof (same_frame_slot_null _ _ _ F St) as St1.
      assert (is_Some (m_subrequests s1 !! from)) as [pf1 Sf1].
      { destruct pf as [rq|].
        - destruct (same_frame_slot_live _ _ _ _ F Sf) as (? & -> & _). eauto.
        - rewrite (same_frame_slot_null _ _ _ F Sf). eauto. }
      destruct F as (Hd & _).
      rewrite (connect_link_plain s1 _ _ _ _ dfrom dto) by congruence.
      rewrite Sf1, St1. by destruct pf1.
  - intros Rt. split.
    + by apply (connect_link_into_call _ _ _ _ _ dfrom dto).
    + intros before after s1 Hl Hb.
      pose proof (for_each_connect_same_frame _ _ _ Hb) as F.
      rewrite (connect_subrequests_split _ _ _ _ _ Hl Hb). unfold bind.
      destruct F as (Hd & _).
      by rewrite (connect_link_into_call s1 _ _ _ _ dfrom dto) by congruence.
Qed.

(** C4, as stated, fails: a link from an optimized-out producer into a
    function body, whose subrequest exists, is passed over and the wiring
    succeeds. *)
Lemma gap_body_not_fatal :
  m_subrequests gap_body_request !! 0%nat = Some None
  ∧ m_subrequests gap_body_request !! 1%nat = Some (Some (handle 1 cm_body))
  ∧ m_submodels_input_to_prev_output gap_body_request = [((1, 0), (0, 0))]%nat
  ∧ connect_subrequests gap_body_request = Ok tt gap_body_request.
Proof. repeat split. Qed.

(** ** Tensors shared across a link *)

Lemma input_of_rebound s to pto rq t i p :
  m_subrequests s !! to = Some (Some rq) → is_Some (rq_inputs rq !! pto) →
  input_of (rebound (Primary to) rq (PIn pto) t s) i p =
  if decide ((i, p) = (to, pto)) then Some t else input_of s i p.
Proof.
  intros Hs [b Hb]. unfold input_of, rebound. simpl.
  destruct (decide (i = to)) as [->|NE].
  - rewrite list_lookup_insert_eq by (by eapply lookup_lt_Some). simpl.
    rewrite Hs. simpl.
    destruct (decide (p = pto)) as [->|NEp].
    + rewrite decide_True by done.
      apply list_lookup_insert_eq. by eapply lookup_lt_Some.
    + rewrite decide_False by congruence. by rewrite list_lookup_insert_ne.
  - rewrite list_lookup_insert_ne by done. rewrite decide_False by congruence. done.
Qed.

Lemma output_of_rebound s to pto rq t i p :
  m_subrequests s !! to = Some (Some rq) →
  output_of (rebound (Primary to) rq (PIn pto) t s) i p = output_of s i p.
Proof.
  intros Hs. unfold output_of, rebound. simpl.
  destruct (decide (i = to)) as [->|NE].
  - rewrite list_lookup_insert_eq by (by eapply lookup_lt_Some). simpl.
    by rewrite Hs.
  - by rewrite list_lookup_insert_ne.
Qed.

(** The three ways [connect_link] returns. *)
Lemma connect_link_cases s to pto from pfrom s' :
  connect_link ((to, pto), (from, pfrom)) s = Ok tt s' →
  s' = s ∨ s' = set_trace (m_trace s ++ [EWarn]) s
  ∨ ∃ rq t, m_subrequests s !! to = Some (Some rq) ∧ is_Some (rq_inputs rq !! pto)
            ∧ s' = rebound (Primary to) rq (PIn pto) t s.
Proof.
  unfold connect_link, desc, subreq. run_m.
  destruct (m_compiled_submodels s !! from) as [dfrom|]; simpl; [|done].
  destruct (m_compiled_submodels s !! to) as [dto|]; simpl; [|done].
  destruct (replaced_by dfrom), (replaced_by dto); simpl.
  - intros; simplify_eq; auto.
  - destruct (m_subrequests s !! to) as [[rq|]|] eqn:St; simpl; try done.
    destruct (rq_inputs rq !! pto) as [b|] eqn:Hb; simpl; [|done].
    destruct (m_funcall_result s !! (from, pfrom)) as [t|]; simpl; [|done].
    rewrite (set_tensor_ok (Primary to) (PIn pto) t s rq) by (simpl; eauto).
    intros; simplify_eq. right. right. exists rq, t. eauto.
  - intros; simplify_eq; auto.
  - destruct (m_subrequests s !! from) as [[pf|]|] eqn:Sf; simpl; try done;
      destruct (m_subrequests s !! to) as [[pt|]|] eqn:St; simpl; try done.
    + destruct (rq_inputs pt !! pto) as [b|] eqn:Hb; simpl; [|done].
      destruct (rq_outputs pf !! pfrom) as [t|] eqn:Ho; simpl; [|done].
      rewrite (set_tensor_ok (Primary to) (PIn pto) t s pt) by (simpl; eauto).
      intros; simplify_eq. right. right. exists pt, t. eauto.
    + intros; simplify_eq; auto.
    + intros; simplify_eq; auto.
Qed.

Lemma connect_link_frame l s s' :
  connect_link l s = Ok tt s' →
  same_frame s s'
  ∧ (∀ i p, output_of s' i p = output_of s i p)
  ∧ (∀ i p, (i, p) ≠ fst l → input_of s' i p = input_of s i p).
Proof.
  intros H. split.
  { pose proof (connect_link_same_frame l s) as P. by rewrite H in P. }
  destruct l as [[to pto] [from pfrom]].
  apply connect_link_cases in H as [-> | [-> | (rq & t & Hs & Hb & ->)]]; try done.
  split.
  - intros i p. by apply output_of_rebound.
  - intros i p NE. rewrite input_of_rebound by done. by rewrite decide_False.
Qed.

Lemma wiring_frame links s s' :
  for_each links connect_link s = Ok tt s' →
  same_frame s s'
  ∧ (∀ i p, output_of s' i p = output_of s i p)
  ∧ (∀ i p, (i, p) ∉ fst <$> links → input_of s' i p = input_of s i p).
Proof.
  revert s. induction links as [|l links IH]; intros s H; simpl in H.
  - injection H as <-. split; [apply same_frame_refl|done].
  - unfold bind in H. destruct (connect_link l s) as [[] s1| | |] eqn:Hl; try done.
    apply connect_link_frame in Hl as (F1 & O1 & I1).
    apply IH in H as (F2 & O2 & I2).
    split; [by eapply same_frame_trans|]. split.
    + intros i p. by rewrite O2, O1.
    + intros i p Hn. rewrite fmap_cons, not_elem_of_cons in Hn. destruct Hn.
      rewrite I2, I1; done.
Qed.

Lemma connect_link_wired s l s' t :
  connect_link l s = Ok tt s' → wired s l t → input_of s' (fst l).1 (fst l).2 = Some t.
Proof.
  destruct l as [[to pto] [from pfrom]]. simpl.
  intros H (dfrom & dto & rt & Hf & Ht & Rt & St' & Hw).
  destruct (replaced_by dfrom) as [r|] eqn:Rf.
  - unfold connect_link, desc, subreq in H. revert H. run_m.
    rewrite Hf. simpl. rewrite Ht. simpl. rewrite Rf, Rt. simpl.
    rewrite St'. simpl.
    destruct (rq_inputs rt !! pto) as [b|] eqn:Hb; simpl; [|done].
    rewrite Hw. simpl.
    rewrite (set_tensor_ok (Primary to) (PIn pto) t s rt) by (simpl; eauto).
    intros; simplify_eq. rewrite input_of_rebound by eauto. by rewrite decide_True.
  - rewrite (connect_link_plain _ _ _ _ _ _ _ Hf Ht Rf Rt) in H.
    unfold output_of in Hw.
    destruct (m_subrequests s !! from) as [[pf|]|] eqn:Sf; simplify_eq/=.
    rewrite St' in H.
    destruct (rq_inputs rt !! pto) as [b|] eqn:Hb; [|done].
    rewrite Hw in H. simplify_eq.
    rewrite input_of_rebound by eauto. by rewrite decide_True.
Qed.

Lemma same_frame_wired s s1 l t :
  same_frame s s1 → (∀ i p, output_of s1 i p = output_of s i p) →
  wired s l t → wired s1 l t.
Proof.
  destruct l as [[to pto] [from pfrom]].
  intros F O (dfrom & dto & rt & Hf & Ht & Rt & St' & Hw).
  destruct (same_frame_slot_live _ _ _ _ F St') as (rt1 & St1 & _).
  pose proof F as (Hd & _ & _ & _ & _ & _ & _ & _ & _ & _ & _ & Hr & _).
  exists dfrom, dto, rt1. rewrite Hd, Hr, O. eauto 10.
Qed.

Lemma wiring_shares links : NoDup (fst <$> links) →
  ∀ s s', for_each links connect_link s = Ok tt s' →
  ∀ l t, l ∈ links → wired s l t →
  input_of s' (fst l).1 (fst l).2 = Some t.
Proof.
  induction links as [|l0 links IH]; intros ND s s' H l t Hin Hw.
  - by apply elem_of_nil in Hin.
  - rewrite fmap_cons in ND. apply NoDup_cons in ND as [Hfresh ND].
    simpl in H. unfold bind in H.
    destruct (connect_link l0 s) as [[] s1| | |] eqn:Hl; try done.
    apply elem_of_cons in Hin as [->|Hin].
    + pose proof (connect_link_wired _ _ _ _ Hl Hw) as Hi.
      apply wiring_frame in H as (_ & _ & I). rewrite I; [done|].
      by destruct (fst l0).
    + pose proof (connect_link_frame _ _ _ Hl) as (F1 & O1 & _).
      eapply IH; eauto using same_frame_wired.
Qed.

Lemma wiring_step_of links s s' l :
  for_each links connect_link s = Ok tt s' → l ∈ links →
  ∃ s1 s2, same_frame s s1 ∧ (∀ i p, output_of s1 i p = output_of s i p)
           ∧ connect_link l s1 = Ok tt s2.
Proof.
  revert s. induction links as [|l0 links IH]; intros s H Hin.
  - by apply elem_of_nil in Hin.
  - simpl in H. unfold bind in H.
    destruct (connect_link l0 s) as [[] s1| | |] eqn:Hl; try done.
    apply elem_of_cons in Hin as [->|Hin].
    + exists s, s1. split; [apply same_frame_refl|done].
    + pose proof (connect_link_frame _ _ _ Hl) as (F1 & O1 & _).
      destruct (IH _ H Hin) as (s2 & s3 & F2 & O2 & H2).
      exists s2, s3. split; [by eapply same_frame_trans|]. split; [|done].
      intros i p. by rewrite O2, O1.
Qed.

Lemma connect_link_ok_wired s s' to pto from pfrom dfrom dto :
  connect_link ((to, pto), (from, pfrom)) s = Ok tt s' →
  m_compiled_submodels s !! from = Some dfrom →
  m_compiled_submodels s !! to = Some dto →
  replaced_by dto = None →
  (replaced_by dfrom = None →
     is_Some (mjoin (m_subrequests s !! from)) ∧ is_Some (mjoin (m_subrequests s !! to))) →
  ∃ t, wired s ((to, pto), (from, pfrom)) t.
Proof.
  intros H Hf Ht Rt Hlive.
  destruct (replaced_by dfrom) as [r|] eqn:Rf.
  - unfold connect_link, desc, subreq in H. revert H. run_m.
    rewrite Hf. simpl. rewrite Ht. simpl. rewrite Rf, Rt. simpl.
    destruct (m_subrequests s !! to) as [[rt|]|] eqn:St; simpl; try done.
    destruct (rq_inputs rt !! pto) as [b|] eqn:Hb; simpl; [|done].
    destruct (m_funcall_result s !! (from, pfrom)) as [t|] eqn:Hr; simpl; [|done].
    intros _. exists t, dfrom, dto, rt. rewrite Rf. eauto 10.
  - destruct (Hlive eq_refl) as [[rf Sf] [rt St]].
    destruct (m_subrequests s !! from) as [[rf'|]|] eqn:Sf'; simplify_eq/=.
    destruct (m_subrequests s !! to) as [[rt'|]|] eqn:St'; simplify_eq/=.
    rewrite (connect_link_plain _ _ _ _ _ _ _ Hf Ht Rf Rt), Sf', St' in H.
    destruct (rq_inputs rt !! pto) as [b|] eqn:Hb; [|done].
    destruct (rq_outputs rf !! pfrom) as [t|] eqn:Ho; [|done].
    exists t, dfrom, dto, rt. rewrite Rf. unfold output_of. rewrite Sf'. simpl.
    eauto 10.
Qed.

Lemma same_frame_live_iff s s' i :
  same_frame s s' →
  is_Some (mjoin (m_subrequests s' !! i)) → is_Some (mjoin (m_subrequests s !! i)).
Proof.
  intros F [rq H].
  destruct (m_subrequests s' !! i) as [[rq'|]|] eqn:S'; simplify_eq/=.
  destruct (same_frame_slot_live _ _ _ _ (same_frame_sym _ _ F) S') as (r & -> & _).
  by eexists.
Qed.

(** C5.  After a successful wiring, for every link of the table into a
    consumer that is not a function call: when the producer is no function
    call either and both subrequests exist, input [to_port] of the consumer
    and output [from_port] of the producer are bound to the same tensor;
    when the producer is a function call, input [to_port] of the consumer
    is bound to the preallocated [m_funcall_result[{from, from_port}]]. *)
Theorem wiring_shares_tensors s s' to pto from pfrom dfrom dto :
  connect_subrequests s = Ok tt s' →
  NoDup (fst <$> m_submodels_input_to_prev_output s) →
  ((to, pto), (from, pfrom)) ∈ m_submodels_input_to_prev_output s →
  m_compiled_submodels s !! from = Some dfrom →
  m_compiled_submodels s !! to = Some dto →
  replaced_by dto = None →
  (replaced_by dfrom = None →
     is_Some (mjoin (m_subrequests s' !! from)) →
     is_Some (mjoin (m_subrequests s' !! to)) →
     ∃ t, input_of s' to pto = Some t ∧ output_of s' from pfrom = Some t)
  ∧ (is_Some (replaced_by dfrom) →
     ∃ t, m_funcall_result s' !! (from, pfrom) = Some t ∧ input_of s' to pto = Some t).
Proof.
  intros H ND Hin Hf Ht Rt. unfold connect_subrequests in H.
  unfold bind at 1, get at 1 in H.
  pose proof (wiring_frame _ _ _ H) as (F & O & _).
  destruct (wiring_step_of _ _ _ _ H Hin) as (s1 & s2 & F1 & O1 & H1).
  pose proof F1 as (Hd1 & _).
  assert (∀ t, wired s1 ((to, pto), (from, pfrom)) t →
               input_of s' to pto = Some t) as Hshare.
  { intros t Hw.
    apply (wiring_shares _ ND _ _ H ((to, pto), (from, pfrom)) t Hin).
    eapply (same_frame_wired s1 s); [by apply same_frame_sym| |done].
    intros i p. by rewrite O1. }
  assert (same_frame s1 s') as F1'
    by (eapply same_frame_trans; [apply same_frame_sym, F1 | exact F]).
  pose proof F as (_ & _ & _ & _ & _ & _ & _ & _ & _ & _ & _ & Hres & _).
  split.
  - intros Rf Lf Lt.
    destruct (connect_link_ok_wired _ _ _ _ _ _ dfrom dto H1) as [t Hw];
      try congruence.
    { intros _. split; by eapply same_frame_live_iff. }
    exists t. split; [by apply Hshare|].
    destruct Hw as (dfrom' & dto' & rt & Hf' & _ & _ & _ & Hw).
    rewrite Hd1, Hf in Hf'. injection Hf' as <-. rewrite Rf in Hw.
    by rewrite O, <- O1.
  - intros [r Rf].
    destruct (connect_link_ok_wired _ _ _ _ _ _ dfrom dto H1) as [t Hw];
      try congruence.
    exists t. split; [|by apply Hshare].
    destruct Hw as (dfrom' & dto' & rt & Hf' & _ & _ & _ & Hw).
    rewrite Hd1, Hf in Hf'. injection Hf' as <-. rewrite Rf in Hw.
    destruct F1 as (_ & _ & _ & _ & _ & _ & _ & _ & _ & _ & _ & Hres1 & _).
    by rewrite Hres, <- Hres1.
Qed.

Lemma optimized_out_links_witness :
  connect_subrequests gap_request = Throw (FatalLink 0 1) gap_request
  ∧ connect_subrequests dangling_request
    = Ok tt (set_trace [EWarn] dangling_request)
  ∧ connect_subrequests gap_body_request = Ok tt gap_body_request.
Proof.
  split; [|split].
  - destruct (optimized_out_links gap_request 1 0 0 0 desc_gone desc_plain
                eq_refl eq_refl) as [Hnull _].
    destruct (Hnull eq_refl eq_refl eq_refl ltac:(by eexists)) as [_ Hfatal].
    apply (Hfatal [] []); reflexivity.
  - destruct (optimized_out_links dangling_request 1 0 0 0 desc_plain desc_gone
                eq_refl eq_refl) as (_ & Hdangling & _).
    destruct (Hdangling eq_refl eq_refl ltac:(by eexists) eq_refl) as [_ Hwarn].
    apply (Hwarn [] []); reflexivity.
  - destruct (optimized_out_links gap_body_request 1 0 0 0 desc_gone desc_body
                eq_refl eq_refl) as (_ & _ & Hcall).
    destruct (Hcall ltac:(by eexists)) as [_ Hskip].
    apply (Hskip [] []); reflexivity.
Defined.

Lemma wiring_shares_tensors_witness :
  (∃ t, input_of (after connect_subrequests linked_request) 1 0 = Some t
        ∧ output_of (after connect_subrequests linked_request) 0 0 = Some t)
  ∧ (∃ t, m_funcall_result (after connect_subrequests call_then_plain_request)
            !! (1, 0) = Some t
          ∧ input_of (after connect_subrequests call_then_plain_request) 2 0 = Some t).
Proof.
  split.
  - destruct (wiring_shares_tensors linked_request
                (after connect_subrequests linked_request) 1 0 0 0 desc_plain desc_plain)
      as [Hplain _].
    + reflexivity.
    + repeat constructor. apply not_elem_of_nil.
    + apply list_elem_of_here.
    + reflexivity.
    + reflexivity.
    + reflexivity.
    + apply Hplain; [reflexivity|by eexists|by eexists].
  - destruct (wiring_shares_tensors call_then_plain_request
                (after connect_subrequests call_then_plain_request) 2 0 1 0
                desc_body desc_plain) as [_ Hcall].
    + reflexivity.
    + apply (bool_decide_unpack _). reflexivity.
    + apply list_elem_of_further, list_elem_of_here.
    + reflexivity.
    + reflexivity.
    + reflexivity.
    + apply Hcall. by eexists.
Defined.

End WiringFacts.

Module FailoverFacts.
Import Util Request Scenario Frames RequestFacts WiringFacts.
Local Open Scope req_scope.

Lemma preserves_weaken {A} (R R' : State → State → Prop) (m : M A) :
  (∀ s s', R s s' → R' s s') → preserves R m → preserves R' m.
Proof. intros HR Hm s. specialize (Hm s). destruct (m s); auto. Qed.

(** ** Handles across the failover loop *)

Lemma handles_kept_refl s : handles_kept s s.
Proof. by repeat split. Qed.

Lemma handles_kept_trans s1 s2 s3 :
  handles_kept s1 s2 → handles_kept s2 s3 → handles_kept s1 s3.
Proof.
  intros (L1 & N1 & P1 & K1) (L2 & N2 & P2 & K2).
  split; [lia|]. split; [congruence|]. split; [congruence|].
  intros E. destruct K1 as [? ?]; [lia|]. destruct K2 as [? ?]; [lia|].
  split; congruence.
Qed.

Lemma same_frame_handles_kept s s' : same_frame s s' → handles_kept s s'.
Proof.
  unfold same_frame. intros F. destruct_and!.
  split; [lia|]. repeat split; congruence.
Qed.

Lemma same_links_refl s : same_links s s.
Proof. by repeat split. Qed.

Lemma same_links_trans s1 s2 s3 : same_links s1 s2 → same_links s2 s3 → same_links s1 s3.
Proof. unfold same_links. intros. destruct_and!. repeat split; congruence. Qed.

Lemma same_frame_same_links s s' : same_frame s s' → same_links s s'.
Proof. unfold same_frame, same_links. intros. destruct_and!. repeat split; congruence. Qed.

Lemma pipeline_next_put_reserve i v s :
  pipeline_next (put_slot (Reserve i) v s) = pipeline_next s.
Proof.
  unfold pipeline_next. simpl. apply list_eq. intros j.
  rewrite !list_lookup_fmap.
  destruct (decide (i = j)) as [->|NE].
  - rewrite list_lookup_alter_eq. by destruct (m_funcall_pipeline s !! j).
  - by rewrite list_lookup_alter_ne.
Qed.

Lemma handles_made_kept s s' : handles_made s s' → handles_kept s s'.
Proof. intros (L & N & P). split; [lia|]. repeat split; try done; lia. Qed.

Lemma handles_made_same_links s1 s2 s3 :
  handles_made s1 s2 → same_links s2 s3 → handles_made s1 s3.
Proof.
  intros (L & N & P) (L' & N' & P'). split; [lia|]. split; congruence.
Qed.

Ltac frame_known ::=
  first
    [ apply (preserves_weaken same_frame);
        [ apply same_frame_same_links
        | first [ apply emit_same_frame | apply set_tensor_same_frame
                | apply connect_subrequests_same_frame ] ]
    | apply preserves_modify; intros ?; by repeat split
    | apply preserves_modify; intros ?; repeat split;
        apply pipeline_next_put_reserve ].

Ltac same_links := frame same_links_refl same_links_trans.

Lemma create_infer_requests_spec E idx count s :
  match create_infer_requests E idx count s with
  | Ok _ s' =>
      m_next_id s' = m_next_id s + count
      ∧ pipeline_next s' = pipeline_next s
      ∧ m_use_function_pipelining s' = m_use_function_pipelining s
  | Throw _ _ => False
  | _ => True
  end.
Proof.
  unfold create_infer_requests, real, desc. run_m.
  destruct (m_compiled_submodels s !! idx) as [d|]; simpl; [|done].
  destruct (m_compiled_submodels s !! default idx (replaced_by d)) as [fd|]; simpl; [|done].
  destruct (compiled_model fd); simpl; done.
Qed.

Lemma recreate_subrequests_made E idx :
  preserves handles_made (recreate_subrequests E idx).
Proof.
  intros s. unfold recreate_subrequests.
  unfold bind at 1, desc at 1, bind at 1, get at 1, deref at 1.
  destruct (m_compiled_submodels s !! idx) as [d|]; [|done].
  unfold ret at 1. unfold bind at 1, get at 1. unfold bind at 1.
  pose proof (create_infer_requests_spec E idx
                (if m_use_function_pipelining s then 2 else 1) s) as Hc.
  destruct (create_infer_requests E idx _ s) as [rqs s1| | |]; try done.
  destruct Hc as (Hn & Hp & Hf).
  match goal with
  | |- match ?m s1 with _ => _ end =>
      assert (preserves same_links m) as Hrest
  end.
  { same_links.
    all: try (unfold assign; case_bool_decide;
              [apply (preserves_ret _ same_links_refl) | apply preserves_undefined]). }
  specialize (Hrest s1).
  assert (handles_made s s1) as Hm.
  { split; [|done]. destruct (m_use_function_pipelining s); lia. }
  match goal with
  | |- match ?r with _ => _ end => destruct r
  end; eauto using handles_made_same_links.
Qed.

Ltac frame_known ::=
  first
    [ apply (preserves_weaken same_frame);
        [ apply same_frame_handles_kept
        | first [ apply emit_same_frame
                | apply modify_failover_same_frame
                | apply modify_next_prepared_same_frame
                | apply bind_global_results_same_frame
                | apply function_prologue_same_frame
                | apply unsafe_run_this_prep_next_same_frame ] ]
    | apply (preserves_weaken handles_made);
        [ apply handles_made_kept | apply recreate_subrequests_made ]
    | apply preserves_modify; intros ?; by repeat split ].

Ltac handles_kept := frame handles_kept_refl handles_kept_trans.

Lemma run_pass_handles_kept E idx real_idx dump_in :
  preserves handles_kept (run_pass E idx real_idx dump_in).
Proof. unfold run_pass, device_of. handles_kept. Qed.

Lemma run_loop_handles_kept E fuel idx real_idx dump_in :
  preserves handles_kept (run_loop E fuel idx real_idx dump_in).
Proof.
  revert dump_in. induction fuel as [|fuel IH]; intros dump_in; simpl.
  - apply (preserves_ret _ handles_kept_refl).
  - apply (preserves_bind _ handles_kept_trans); [apply run_pass_handles_kept|].
    intros [|]; [apply (preserves_ret _ handles_kept_refl) | apply IH].
Qed.

(** ** The swap after a pipelined call *)

Lemma alter_as_insert {A} (f : A → A) (l : list A) i x :
  l !! i = Some x → alter f i l = <[i := f x]> l.
Proof.
  intros H. apply list_eq. intros j. destruct (decide (i = j)) as [->|NE].
  - rewrite list_lookup_alter_eq, H. simpl.
    by rewrite list_lookup_insert_eq by (by eapply lookup_lt_Some).
  - by rewrite list_lookup_alter_ne, list_lookup_insert_ne.
Qed.

Lemma finish_job_spec idx real_idx s s' :
  finish_job idx real_idx s = Ok tt s' →
  if m_use_function_pipelining s && has_next s idx
  then swapped real_idx s s' else untouched s s'.
Proof.
  unfold finish_job, swap_handles, has_next. run_m.
  destruct (m_use_function_pipelining s); simpl.
  2:{ intros; simplify_eq. done. }
  destruct (m_funcall_pipeline s !! idx) as [fpi|] eqn:Hi; simpl; [|done].
  destruct (fp_next fpi) as [nx|] eqn:Hnx; simpl.
  2:{ intros; simplify_eq. done. }
  destruct (m_subrequests s !! real_idx) as [primary|] eqn:Hp; simpl; [|done].
  destruct (m_funcall_pipeline s !! real_idx) as [fp|] eqn:Hfp; simpl; [|done].
  intros; simplify_eq. exists primary, fp. simpl.
  split; [done|]. split; [done|]. split; [done|].
  by apply (alter_as_insert (λ fp, mkFuncallPipeline primary (fp_next fp))).
Qed.

Lemma swapped_exchanged real_idx s s' : swapped real_idx s s' → exchanged real_idx s s'.
Proof.
  intros (primary & fp & Hp & Hfp & Hs & Hf).
  unfold exchanged, primary_ids, reserve_ids. rewrite Hs, Hf.
  rewrite !list_lookup_fmap.
  rewrite !list_lookup_insert_eq by (by eapply lookup_lt_Some).
  rewrite Hp, Hfp. split; [done|]. split; [done|].
  intros j NE. rewrite !list_lookup_fmap.
  by rewrite !list_lookup_insert_ne by done.
Qed.

Lemma finish_job_next_id idx real_idx s s' :
  finish_job idx real_idx s = Ok tt s' → m_next_id s' = m_next_id s.
Proof.
  unfold finish_job, swap_handles. run_m.
  destruct (m_use_function_pipelining s); simpl.
  2:{ intros; simplify_eq. done. }
  destruct (m_funcall_pipeline s !! idx) as [fpi|]; simpl; [|done].
  destruct (fp_next fpi); simpl.
  2:{ intros; simplify_eq. done. }
  destruct (m_subrequests s !! real_idx) as [primary|]; simpl; [|done].
  destruct (m_funcall_pipeline s !! real_idx) as [fp|]; simpl; [|done].
  intros; simplify_eq. done.
Qed.

Lemma has_next_pipeline_next s s' idx :
  pipeline_next s' = pipeline_next s → has_next s' idx = has_next s idx.
Proof.
  intros H. unfold has_next.
  assert (∀ st, m_funcall_pipeline st !! idx ≫= fp_next = mjoin (pipeline_next st !! idx)) as E.
  { intros st. unfold pipeline_next. rewrite list_lookup_fmap.
    by destruct (m_funcall_pipeline st !! idx). }
  by rewrite !E, H.
Qed.

(** C6.  A successful [run_subrequest_for_success(idx)] is the loop of
    attempts followed by one last step.  The loop ends with its job done in
    a state [s1], the only one it can end in, which kept the pipeline links
    and the pipelining flag of the start and, as long as no handle was
    made on a failover, the very handles of the start.  The last step
    takes the handles of [s1] to those of the final state: with function
    pipelining on and [m_funcall_pipeline[idx].next] set, the primary
    handle of body [real(idx)] and the reserve handle of its pipeline
    record have changed places and every other slot is as in [s1];
    otherwise every slot is as in [s1].  So when the call made no handle,
    the handles at its end are, by their identities, those of its start
    with the two handles of [real(idx)] exchanged, or those of its start
    as they were. *)
Theorem pipeline_swap E fuel idx s s' d :
  run_subrequest_for_success E fuel idx s = Ok true s' →
  m_compiled_submodels s !! idx = Some d →
  let real_idx := default idx (replaced_by d) in
  ∃ s1,
    run_loop E fuel idx real_idx false (set_next_prepared false (set_failover false s))
      = Ok true s1
    ∧ handles_kept s s1
    ∧ (if m_use_function_pipelining s && has_next s idx
       then swapped real_idx s1 s'
       else untouched s1 s')
    ∧ (m_next_id s' = m_next_id s →
       if m_use_function_pipelining s && has_next s idx
       then exchanged real_idx s s'
       else primary_ids s' = primary_ids s ∧ reserve_ids s' = reserve_ids s).
Proof.
  intros H Hd real_idx. subst real_idx.
  unfold run_subrequest_for_success, real, desc in H. revert H. run_m.
  rewrite Hd. simpl.
  set (s0 := set_next_prepared false (set_failover false s)).
  pose proof (run_loop_handles_kept E fuel idx (default idx (replaced_by d)) false s0) as K.
  destruct (run_loop E fuel idx _ false s0) as [[|] s1| | |]; try done.
  destruct (finish_job idx _ s1) as [[] s2| | |] eqn:Hfin; try done.
  intros; simplify_eq. exists s1.
  split; [done|].
  assert (handles_kept s s1) as K'.
  { eapply handles_kept_trans; [|exact K]. by repeat split. }
  split; [done|].
  pose proof (finish_job_next_id _ _ _ _ Hfin) as Hid.
  apply finish_job_spec in Hfin.
  destruct K' as (_ & Hn & Hf & Hkeep).
  rewrite (has_next_pipeline_next _ _ _ Hn), Hf in Hfin.
  split; [done|].
  intros Hsame. destruct Hkeep as [Hp Hr]; [congruence|].
  destruct (_ && _).
  - apply swapped_exchanged in Hfin. unfold exchanged in *. by rewrite <- Hp, <- Hr.
  - destruct Hfin as [Hs Hfp]. unfold primary_ids, reserve_ids in *.
    by rewrite Hs, Hfp.
Qed.

(** ** The failover at a call site, and cancellation *)

(** C1 at a call site.  Subgraph 2 calls body 1, whose handle throws when
    run: the failover advances the device iterator of descriptor 2 and
    leaves that of body 1, which is recompiled and recreated on the device
    it had. *)
Lemma failover_at_call_site :
  ∃ s', run_subrequest_for_success (env [1%nat]) 2 2 (request 2) = Ok true s'
        ∧ failover s' = true
        ∧ device_it <$> m_compiled_submodels s' = [0; 0; 1]%nat
        ∧ primary_ids s' = [Some 0; Some 3; None]%nat
        ∧ m_subrequest_devices s' = ["NPU"; "NPU"; "CPU"].
Proof. eexists. split; [vm_compute; reflexivity|]. by vm_compute. Qed.

(** C8 at a call site.  Subgraph 2 calls body 1, where the live handle
    is; [cancel_subrequest(2)] dereferences the empty slot 2. *)
Lemma cancel_at_call_site :
  real 2 (request 2) = Ok 1%nat (request 2)
  ∧ get_real_subrequest 2 (request 2) = Ok (Some (handle 1 cm_body)) (request 2)
  ∧ cancel_subrequest 2 (request 2) = Undefined.
Proof. by vm_compute. Qed.

Lemma pipeline_swap_witness :
  ((∃ s1,
      run_loop (env []) 2 1 1 false
        (set_next_prepared false (set_failover false (pipelined_request 1))) = Ok true s1
      ∧ handles_kept (pipelined_request 1) s1
      ∧ swapped 1 s1 (after (run_subrequest_for_success (env []) 2 1) (pipelined_request 1)))
   ∧ exchanged 1 (pipelined_request 1)
       (after (run_subrequest_for_success (env []) 2 1) (pipelined_request 1)))
  ∧ ((∃ s1,
        run_loop (env []) 2 1 1 false
          (set_next_prepared false (set_failover false (request 1))) = Ok true s1
        ∧ handles_kept (request 1) s1
        ∧ untouched s1 (after (run_subrequest_for_success (env []) 2 1) (request 1)))
     ∧ primary_ids (after (run_subrequest_for_success (env []) 2 1) (request 1))
       = primary_ids (request 1)).
Proof.
  split.
  - destruct (pipeline_swap (env []) 2 1 (pipelined_request 1)
                (after (run_subrequest_for_success (env []) 2 1) (pipelined_request 1))
                desc_body)
      as (s1 & Hloop & Hkept & Hswap & Hids);
      [vm_compute; reflexivity|reflexivity|].
    split; [exists s1; split; [exact Hloop|split; [exact Hkept|exact Hswap]]|].
    apply Hids. reflexivity.
  - destruct (pipeline_swap (env []) 2 1 (request 1)
                (after (run_subrequest_for_success (env []) 2 1) (request 1))
                desc_body)
      as (s1 & Hloop & Hkept & Hsame & Hids);
      [vm_compute; reflexivity|reflexivity|].
    split; [exists s1; split; [exact Hloop|split; [exact Hkept|exact Hsame]]|].
    apply Hids. reflexivity.
Defined.

End FailoverFacts.

Module SpatialFacts.
Import Util Request Scenario Frames SpatialSpec RequestFacts WiringFacts FailoverFacts.
Local Open Scope req_scope.

#[local] Arguments set_tensor : simpl never.

(** ** Reading a successful run backwards *)

Lemma bind_ok {A B} (m : M A) (f : A → M B) s b s' :
  bind m f s = Ok b s' → ∃ a s1, m s = Ok a s1 ∧ f a s1 = Ok b s'.
Proof. unfold bind. destruct (m s) as [a s1| | |]; try done. eauto. Qed.

Lemma ret_ok {A} (a b : A) s s' : ret a s = Ok b s' → b = a ∧ s' = s.
Proof. unfold ret. by intros [= -> ->]. Qed.

Lemma get_ok s a s' : get s = Ok a s' → a = s ∧ s' = s.
Proof. unfold get. by intros [= -> ->]. Qed.

Lemma deref_ok {A} (o : option A) s a s' : deref o s = Ok a s' → o = Some a ∧ s' = s.
Proof. destruct o; unfold deref, ret, undefined; intros; simplify_eq; done. Qed.

Lemma at_ok {A} (o : option A) s a s' : at_ o s = Ok a s' → o = Some a ∧ s' = s.
Proof. destruct o; unfold at_, ret, throw; intros; simplify_eq; done. Qed.

Lemma value_ok {A} (o : option A) s a s' : value o s = Ok a s' → o = Some a ∧ s' = s.
Proof. destruct o; unfold value, ret, throw; intros; simplify_eq; done. Qed.

Lemma assert_ok b s u s' : NPUW_ASSERT b s = Ok u s' → b = true ∧ s' = s.
Proof. destruct b; unfold NPUW_ASSERT, ret, abort; intros; simplify_eq; done. Qed.

Lemma emit_ok e s u s' : emit e s = Ok u s' → s' = set_trace (m_trace s ++ [e]) s.
Proof. unfold emit, modify. by intros [= <-]. Qed.

Lemma modify_ok f s u s' : modify f s = Ok u s' → s' = f s.
Proof. unfold modify. by intros [= <-]. Qed.

Lemma desc_ok idx s d s' :
  desc idx s = Ok d s' → m_compiled_submodels s !! idx = Some d ∧ s' = s.
Proof.
  unfold desc. intros H. apply bind_ok in H as (s0 & s1 & H0 & H).
  apply get_ok in H0 as [-> ->]. by apply deref_ok in H.
Qed.

Lemma subreq_ok r s rq s' : subreq r s = Ok rq s' → slot s r = Some (Some rq) ∧ s' = s.
Proof. intros H. apply subreq_inv in H. tauto. Qed.

Lemma input_port_ok cm i s p s' :
  input_port cm i s = Ok p s' →
  p = PIn i ∧ s' = s ∧ ∃ m, cm = Some m ∧ is_Some (cm_inputs m !! i).
Proof.
  unfold input_port. intros H.
  apply bind_ok in H as (m & s1 & H0 & H). apply deref_ok in H0 as [-> ->].
  apply bind_ok in H as (pi & s1 & H0 & H). apply deref_ok in H0 as [Hpi ->].
  apply ret_ok in H as [-> ->]. eauto 10.
Qed.

Lemma output_port_ok cm i s p s' :
  output_port cm i s = Ok p s' →
  p = POut i ∧ s' = s ∧ ∃ m, cm = Some m ∧ is_Some (cm_outputs m !! i).
Proof.
  unfold output_port. intros H.
  apply bind_ok in H as (m & s1 & H0 & H). apply deref_ok in H0 as [-> ->].
  apply bind_ok in H as (pi & s1 & H0 & H). apply deref_ok in H0 as [Hpi ->].
  apply ret_ok in H as [-> ->]. eauto 10.
Qed.

Lemma set_tensor_okay r p t s u s' :
  set_tensor r p t s = Ok u s' →
  ∃ rq, slot s r = Some (Some rq) ∧ is_Some (bound rq p) ∧ s' = rebound r rq p t s.
Proof.
  unfold set_tensor. intros H.
  apply bind_ok in H as (rq & s1 & H0 & H). apply subreq_ok in H0 as [Hs ->].
  apply bind_ok in H as (b & s1 & H0 & H). apply deref_ok in H0 as [Hb ->].
  apply bind_ok in H as (? & s1 & H0 & H). apply modify_ok in H0 as ->.
  apply emit_ok in H as ->.
  exists rq. split; [done|]. split; [eauto|]. unfold rebound. by destruct r.
Qed.

Lemma get_tensor_ok r p s t s' :
  get_tensor r p s = Ok t s' → s' = s ∧ ∃ rq, slot s r = Some (Some rq) ∧ bound rq p = Some t.
Proof.
  unfold get_tensor. intros H.
  apply bind_ok in H as (rq & s1 & H0 & H). apply subreq_ok in H0 as [Hs ->].
  apply deref_ok in H as [Hb ->]. eauto.
Qed.

Lemma infer_ok E r s u s' :
  infer E r s = Ok u s' →
  ∃ rq, slot s r = Some (Some rq) ∧ s' = set_trace (m_trace s ++ [EInfer (rq_id rq)]) s.
Proof.
  unfold infer. intros H.
  apply bind_ok in H as (rq & s1 & H0 & H). apply subreq_ok in H0 as [Hs ->].
  apply bind_ok in H as (? & s1 & H0 & H). apply emit_ok in H0 as ->.
  apply bind_ok in H as (? & s1 & H0 & H). apply get_ok in H0 as [-> ->].
  destruct (exec_throws E _ _); [done|]. apply ret_ok in H as [_ ->]. eauto.
Qed.

(** Peels the binds of a successful run in hypothesis [H]. *)
Ltac peel H :=
  repeat first
    [ let a := fresh "a" in let s1 := fresh "s" in let H0 := fresh "H" in
      apply bind_ok in H as (a & s1 & H0 & H);
      first
        [ apply get_ok in H0 as [-> ->]
        | apply ret_ok in H0 as [-> ->]
        | apply deref_ok in H0 as [? ->]
        | apply at_ok in H0 as [? ->]
        | apply value_ok in H0 as [? ->]
        | apply assert_ok in H0 as [? ->]
        | apply desc_ok in H0 as [? ->]
        | apply subreq_ok in H0 as [? ->]
        | apply input_port_ok in H0 as (-> & -> & ?)
        | apply output_port_ok in H0 as (-> & -> & ?)
        | apply get_tensor_ok in H0 as (-> & ?)
        | apply emit_ok in H0 as ->
        | idtac ] ].

(** ** Spatial execution as the specification words it *)

Local Open Scope N_scope.

(** ** The loops of [unsafe_infer] *)

Lemma running_emit real_idx rq io s e :
  running real_idx rq io s → running real_idx rq io (set_trace (m_trace s ++ [e]) s).
Proof. done. Qed.

Lemma running_rebound real_idx rq io s h p t :
  running real_idx rq io s → m_subrequests s !! real_idx = Some (Some h) →
  running real_idx rq io (rebound (Primary real_idx) h p t s).
Proof.
  intros (Hio & h' & Hh & Hid) Hs. split; [done|].
  exists (rebind h p t). simpl.
  rewrite list_lookup_insert_eq by (by eapply lookup_lt_Some).
  split; [done|]. rewrite Hs in Hh. injection Hh as <-. by destruct p.
Qed.

Lemma mapM_cons_Some {A B} (f : A → option B) x l y ys :
  f x = Some y → mapM f l = Some ys → mapM f (x :: l) = Some (y :: ys).
Proof. intros Hx Hl. simpl. rewrite Hx. simpl. rewrite Hl. done. Qed.

(** A loop whose every turn adds the events the specification names adds
    them all, in order. *)
Lemma for_each_events {X} (P : State → Prop) (step : X → M unit)
    (ev : X → option (list Event)) (l : list X) :
  (∀ x s s', P s → step x s = Ok tt s' →
     ∃ evs, ev x = Some evs ∧ m_trace s' = m_trace s ++ evs ∧ P s') →
  ∀ s s', P s → for_each l step s = Ok tt s' →
  ∃ evss, mapM ev l = Some evss ∧ m_trace s' = m_trace s ++ concat evss ∧ P s'.
Proof.
  intros Hstep. induction l as [|x l IH]; intros s s' HP H; simpl in H.
  - apply ret_ok in H as [_ ->]. exists []. simpl. by rewrite app_nil_r.
  - apply bind_ok in H as ([] & s1 & H0 & H).
    destruct (Hstep _ _ _ HP H0) as (evs & He & Ht & HP1).
    destruct (IH _ _ HP1 H) as (evss & Hm & Ht' & HP').
    exists (evs :: evss). split; [by apply mapM_cons_Some|].
    split; [|done]. simpl. by rewrite Ht', Ht, app_assoc.
Qed.

Lemma view_of_ok p dim off len s v s' :
  view_of p dim off len s = Ok v s' →
  s' = s ∧ ∃ t, p = Some t ∧ view t dim off len = Done v.
Proof.
  unfold view_of. intros H.
  apply bind_ok in H as (t & s1 & H0 & H). apply deref_ok in H0 as [-> ->].
  unfold lift_outcome in H. destruct (view t dim off len) eqn:Hv; try done.
  apply ret_ok in H as [-> ->]. eauto.
Qed.

Lemma spec_view_of slots i p dim off len s v s' :
  slots !! i = Some p → view_of p dim off len s = Ok v s' →
  s' = s ∧ spec_view slots i dim off len = Some v.
Proof.
  intros Hi H. apply view_of_ok in H as (-> & t & -> & Hv). split; [done|].
  unfold spec_view. rewrite Hi. simpl. by rewrite Hv.
Qed.

Lemma spatial_io_ok real_idx s io s' :
  spatial_io real_idx s = Ok io s' → m_spatial_io s !! real_idx = Some io ∧ s' = s.
Proof.
  unfold spatial_io. intros H. apply bind_ok in H as (s0 & s1 & H0 & H).
  apply get_ok in H0 as [-> ->]. by apply deref_ok in H.
Qed.

Ltac peel H ::=
  repeat first
    [ let a := fresh "a" in let s1 := fresh "s" in let H0 := fresh "H" in
      lazymatch type of H with bind _ _ _ = Ok _ _ => idtac end;
      apply bind_ok in H as (a & s1 & H0 & H);
      first
        [ apply get_ok in H0 as [-> ->]
        | apply ret_ok in H0 as [-> ->]
        | apply deref_ok in H0 as [? ->]
        | apply at_ok in H0 as [? ->]
        | apply value_ok in H0 as [? ->]
        | apply assert_ok in H0 as [? ->]
        | apply desc_ok in H0 as [? ->]
        | apply subreq_ok in H0 as [? ->]
        | apply input_port_ok in H0 as (-> & -> & ?)
        | apply output_port_ok in H0 as (-> & -> & ?)
        | apply get_tensor_ok in H0 as (-> & ?)
        | apply spatial_io_ok in H0 as [? ->]
        | apply emit_ok in H0 as ->
        | idtac ] ].

(** Turns the successful views among the hypotheses into [spec_view]s. *)
Ltac views :=
  repeat match goal with
  | Hv : view_of ?p _ _ _ _ = Ok _ _, Hs : _ !! _ = Some ?p |- _ =>
      eapply spec_view_of in Hv as [-> ?]; [|exact Hs]
  end.

(** The placeholders a running body reads are [io]. *)
Ltac same_io :=
  match goal with
  | HR : running _ _ ?io _, Hio : m_spatial_io _ !! _ = Some ?io' |- _ =>
      let E := fresh in
      pose proof HR as [E _]; rewrite Hio in E; injection E as ->
  end.

Section loops.
Context (E : Env) (real_idx rq : nat) (io : SpatialIO).
Context (cm : option CompiledModel) (sp : Spatial) (num_outputs : nat).

Local Abbreviation running := (running real_idx rq io).

(** [set_tensor] on the running body. *)
Lemma set_tensor_running p t s s' :
  running s → set_tensor (Primary real_idx) p t s = Ok tt s' →
  m_trace s' = m_trace s ++ [ESetTensor rq p t] ∧ running s'.
Proof.
  intros HR H. apply set_tensor_okay in H as (h & Hs & _ & ->). simpl in Hs.
  pose proof HR as (_ & h' & Hh' & Hid). rewrite Hs in Hh'. injection Hh' as <-.
  split; [by rewrite <- Hid|]. by apply running_rebound.
Qed.

Lemma infer_running s s' :
  running s → infer E (Primary real_idx) s = Ok tt s' →
  m_trace s' = m_trace s ++ [EInfer rq] ∧ running s'.
Proof.
  intros HR H. apply infer_ok in H as (h & Hs & ->). simpl in Hs.
  pose proof HR as (_ & h' & Hh' & Hid). rewrite Hs in Hh'. injection Hh' as <-.
  split; [by rewrite <- Hid|]. by apply running_emit.
Qed.

Lemma spatial_step_spec k s s' :
  running s →
  spatial_step E real_idx cm sp num_outputs (k * sp_nway sp) s = Ok tt s' →
  ∃ evs, spec_iteration rq sp io num_outputs k = Some evs
         ∧ m_trace s' = m_trace s ++ evs ∧ running s'.
Proof.
  intros HR H. unfold spatial_step in H.
  apply bind_ok in H as ([] & s1 & Hin & H).
  apply bind_ok in H as ([] & s2 & Hout & H).
  eapply (for_each_events running _
            (spec_bind_input rq io (k * sp_nway sp) (sp_nway sp)))
    in Hin as (ins & Hins & Tins & HR1); [|clear|done].
  2:{ intros p st st' HRt Hp. peel Hp. same_io. views.
      apply set_tensor_running in Hp as [Ht HR']; [|done].
      eexists. unfold spec_bind_input.
      match goal with Hv : spec_view _ _ _ _ _ = Some _ |- _ => rewrite Hv end.
      simpl. eauto. }
  eapply (for_each_events running _
            (spec_bind_output rq sp io (k * sp_nway sp) (sp_nway sp)))
    in Hout as (outs & Houts & Touts & HR2); [|clear|done].
  2:{ intros o st st' HRt Hp. peel Hp. same_io. views.
      apply set_tensor_running in Hp as [Ht HR']; [|done].
      eexists. unfold spec_bind_output.
      match goal with Hv : spec_view _ _ _ _ _ = Some _ |- _ => rewrite Hv end.
      simpl. eauto. }
  apply infer_running in H as [Tinf HR3]; [|done].
  unfold spec_iteration. rewrite Hins. simpl. rewrite Houts. simpl.
  eexists. split; [done|]. split; [|done].
  by rewrite Tinf, Touts, Tins, <- !app_assoc.
Qed.

Lemma spatial_loop_spec n : ∀ k0 s s' off,
  (k0 + N.of_nat n) * sp_nway sp < 2 ^ 64 →
  running s →
  spatial_loop n (sp_nway sp) (k0 * sp_nway sp)
    (spatial_step E real_idx cm sp num_outputs) s = Ok off s' →
  ∃ evss, mapM (spec_iteration rq sp io num_outputs)
            (N.of_nat <$> seq (N.to_nat k0) n) = Some evss
          ∧ m_trace s' = m_trace s ++ concat evss ∧ running s'
          ∧ off = (k0 + N.of_nat n) * sp_nway sp.
Proof.
  induction n as [|n IH]; intros k0 s s' off Hfit HR H; simpl in H.
  - apply ret_ok in H as [-> ->]. exists []. simpl. rewrite app_nil_r.
    split; [done|]. split; [done|]. split; [done|]. simpl. by rewrite N.add_0_r.
  - apply bind_ok in H as ([] & s1 & Hstep & H).
    destruct (spatial_step_spec _ _ _ HR Hstep) as (evs & He & Ht & HR1).
    assert (wrap64 (k0 * sp_nway sp + sp_nway sp) = N.succ k0 * sp_nway sp) as Ew.
    { unfold wrap64. rewrite <- N.mul_succ_l. apply N.mod_small.
      assert (N.succ k0 * sp_nway sp ≤ (k0 + N.of_nat (S n)) * sp_nway sp)
        by (apply N.mul_le_mono_r; lia).
      lia. }
    rewrite Ew in H.
    assert (N.succ k0 + N.of_nat n = k0 + N.of_nat (S n)) as Ek by lia.
    destruct (IH (N.succ k0) s1 s' off ltac:(by rewrite Ek) HR1 H)
      as (evss & Hm & Ht' & HR' & Ho).
    exists (evs :: evss). split.
    { change (seq (N.to_nat k0) (S n))
        with (N.to_nat k0 :: seq (S (N.to_nat k0)) n).
      rewrite fmap_cons. apply mapM_cons_Some; [by rewrite N2Nat.id|].
      by rewrite <- N2Nat.inj_succ. }
    split; [simpl; by rewrite Ht', Ht, app_assoc|]. split; [done|].
    by rewrite <- Ek.
Qed.

Lemma spatial_tail_spec s s' :
  running s →
  spatial_tail E real_idx cm sp num_outputs (sp_nway_iters sp * sp_nway sp) s
    = Ok tt s' →
  ∃ evs, spec_tail rq sp io num_outputs = Some evs
         ∧ m_trace s' = m_trace s ++ evs ∧ running s'.
Proof.
  intros HR H. unfold spatial_tail in H.
  apply bind_ok in H as ([] & s1 & Hin & H).
  apply bind_ok in H as ([] & s2 & Hout & H).
  apply bind_ok in H as ([] & s3 & Hinf & H).
  eapply (for_each_events running _
            (spec_tail_input rq sp io (sp_nway_iters sp * sp_nway sp)))
    in Hin as (ins & Hins & Tins & HR1); [|clear|done].
  2:{ intros p st st' HRt Hp. peel Hp. same_io. views.
      apply set_tensor_running in Hp as [Ht HR']; [|by apply running_emit].
      eexists. unfold spec_tail_input.
      repeat match goal with
             | Hv : spec_view _ _ _ _ _ = Some _ |- _ => rewrite Hv; clear Hv; simpl
             end.
      match goal with
      | Hs : sio_input_tails io !! _ = Some _ |- _ => rewrite Hs; simpl
      end.
      subst; simpl. split; [done|]. split; [|done]. rewrite Ht. simpl. by rewrite <- app_assoc. }
  eapply (for_each_events running _ (spec_tail_output rq io))
    in Hout as (outs & Houts & Touts & HR2); [|clear|done].
  2:{ intros o st st' HRt Hp. peel Hp. same_io.
      apply set_tensor_running in Hp as [Ht HR']; [|done].
      eexists. unfold spec_tail_output.
      match goal with
      | Hs : sio_output_tails io !! _ = Some _ |- _ => rewrite Hs; simpl
      end.
      subst; simpl. eauto. }
  apply infer_running in Hinf as [Tinf HR3]; [|done].
  eapply (for_each_events running _
            (spec_tail_back sp io (sp_nway_iters sp * sp_nway sp)))
    in H as (backs & Hbacks & Tbacks & HR4); [|clear|done].
  2:{ intros o st st' HRt Hp. peel Hp. same_io. views.
      apply emit_ok in Hp as ->.
      eexists. unfold spec_tail_back.
      repeat match goal with
             | Hv : spec_view _ _ _ _ _ = Some _ |- _ => rewrite Hv; clear Hv; simpl
             end.
      split; [done|]. split; [done|]. by apply running_emit. }
  unfold spec_tail. rewrite Hins. simpl. rewrite Houts. simpl. rewrite Hbacks. simpl.
  eexists. split; [done|]. split; [|done].
  by rewrite Tbacks, Tinf, Touts, Tins, <- !app_assoc.
Qed.
End loops.

(** *** Counting the inferences *)

Lemma count_infer_app rq a b :
  count_infer rq (a ++ b) = (count_infer rq a + count_infer rq b)%nat.
Proof. unfold count_infer. by rewrite filter_app, length_app. Qed.

Lemma count_infer_concat {X} rq (f : X → option (list Event)) n l ess :
  (∀ x evs, f x = Some evs → count_infer rq evs = n) →
  mapM f l = Some ess → count_infer rq (concat ess) = (length l * n)%nat.
Proof.
  intros Hf. revert ess. induction l as [|x l IH]; intros ess H.
  - by injection H as <-.
  - simpl in H. destruct (f x) as [evs|] eqn:Hx; [|done]. simpl in H.
    destruct (mapM f l) as [ess'|] eqn:Hl; [|done]. injection H as <-.
    simpl. rewrite count_infer_app, (Hf _ _ Hx), (IH _ eq_refl). done.
Qed.

Section counting.
Context (rq : nat) (sp : Spatial) (io : SpatialIO) (num_outputs : nat).

Lemma spec_bind_input_quiet off len p evs :
  spec_bind_input rq io off len p = Some evs → count_infer rq evs = 0%nat.
Proof.
  unfold spec_bind_input. intros H.
  destruct (spec_view _ _ _ _ _); [|done]. by injection H as <-.
Qed.

Lemma spec_bind_output_quiet off len o evs :
  spec_bind_output rq sp io off len o = Some evs → count_infer rq evs = 0%nat.
Proof.
  unfold spec_bind_output. intros H.
  destruct (spec_view _ _ _ _ _); [|done]. by injection H as <-.
Qed.

Lemma spec_tail_input_quiet off p evs :
  spec_tail_input rq sp io off p = Some evs → count_infer rq evs = 0%nat.
Proof.
  unfold spec_tail_input. intros H.
  apply bind_Some in H as (v1 & _ & H). apply bind_Some in H as (v2 & _ & H).
  apply bind_Some in H as (v3 & _ & H). by injection H as <-.
Qed.

Lemma spec_tail_output_quiet o evs :
  spec_tail_output rq io o = Some evs → count_infer rq evs = 0%nat.
Proof.
  unfold spec_tail_output. intros H.
  destruct (mjoin _); [|done]. by injection H as <-.
Qed.

Lemma spec_tail_back_quiet off o evs :
  spec_tail_back sp io off o = Some evs → count_infer rq evs = 0%nat.
Proof.
  unfold spec_tail_back. intros H.
  apply bind_Some in H as (v1 & _ & H). apply bind_Some in H as (v2 & _ & H).
  by injection H as <-.
Qed.

Lemma infer_counts_once : count_infer rq [EInfer rq] = 1%nat.
Proof. unfold count_infer. by rewrite filter_cons_True. Qed.

Lemma spec_iteration_once k evs :
  spec_iteration rq sp io num_outputs k = Some evs → count_infer rq evs = 1%nat.
Proof.
  unfold spec_iteration. intros H.
  destruct (mapM _ (sp_params sp)) as [ins|] eqn:Hi; [simpl in H|done].
  destruct (mapM _ (seq 0 num_outputs)) as [outs|] eqn:Ho; [simpl in H|done].
  injection H as <-. rewrite !count_infer_app, infer_counts_once.
  rewrite (count_infer_concat rq _ 0 _ _ (spec_bind_input_quiet _ _) Hi).
  rewrite (count_infer_concat rq _ 0 _ _ (spec_bind_output_quiet _ _) Ho).
  lia.
Qed.

Lemma spec_tail_once evs :
  spec_tail rq sp io num_outputs = Some evs → count_infer rq evs = 1%nat.
Proof.
  unfold spec_tail. intros H.
  destruct (mapM _ (sp_params sp)) as [ins|] eqn:Hi; [simpl in H|done].
  destruct (mapM (spec_tail_output _ _) _) as [outs|] eqn:Ho; [simpl in H|done].
  destruct (mapM (spec_tail_back _ _ _) _) as [backs|] eqn:Hb; [simpl in H|done].
  injection H as <-.
  change (EInfer rq :: concat backs) with ([EInfer rq] ++ concat backs).
  rewrite !count_infer_app, infer_counts_once.
  rewrite (count_infer_concat rq _ 0 _ _ (spec_tail_input_quiet _) Hi).
  rewrite (count_infer_concat rq _ 0 _ _ spec_tail_output_quiet Ho).
  rewrite (count_infer_concat rq _ 0 _ _ (spec_tail_back_quiet _) Hb).
  lia.
Qed.

Lemma spec_spatial_count evs :
  spec_spatial rq sp io num_outputs = Some evs →
  count_infer rq evs
  = (N.to_nat (sp_nway_iters sp) + if decide (0 < sp_tail_size sp)%N then 1 else 0)%nat.
Proof.
  unfold spec_spatial. intros H.
  destruct (mapM _ _) as [iters|] eqn:Hi; [simpl in H|done].
  pose proof (count_infer_concat rq _ 1 _ _ spec_iteration_once Hi) as Hc.
  rewrite length_fmap, length_seq, Nat.mul_1_r in Hc.
  destruct (decide (0 < sp_tail_size sp)).
  - destruct (spec_tail _ _ _ _) as [tail|] eqn:Ht; [simpl in H|done].
    injection H as <-. by rewrite count_infer_app, Hc, (spec_tail_once _ Ht).
  - injection H as <-. by rewrite count_infer_app, Hc.
Qed.
End counting.

(** C2.  A successful [unsafe_infer] of a body with a live subrequest [h]:
    when the descriptor is spatial and the offsets [k * nway] fit the machine
    word, the events it adds are exactly those the iteration-and-tail
    description names -- for each [k < nway_iters] every spatial input and
    every output bound to its [nway]-slice at [k * nway] followed by one
    inference, then, when [tail_size > 0], the copies into the tail buffers,
    the tail buffers bound whole, one inference and the copies back -- so the
    body is inferred [nway_iters] times plus once for the tail; when the
    descriptor is not spatial, the body is inferred exactly once. *)
Theorem unsafe_infer_spatial E real_idx d h s s' :
  m_compiled_submodels s !! real_idx = Some d →
  m_subrequests s !! real_idx = Some (Some h) →
  unsafe_infer E real_idx s = Ok tt s' →
  match spatial d with
  | None => m_trace s' = m_trace s ++ [EInfer (rq_id h)]
  | Some sp =>
      ∀ io, m_spatial_io s !! real_idx = Some io →
      sp_nway_iters sp * sp_nway sp < 2 ^ 64 →
      ∃ cm evs,
        compiled_model d = Some cm
        ∧ spec_spatial (rq_id h) sp io (length (cm_outputs cm)) = Some evs
        ∧ m_trace s' = m_trace s ++ evs
        ∧ count_infer (rq_id h) evs
          = (N.to_nat (sp_nway_iters sp)
             + if decide (0 < sp_tail_size sp)%N then 1 else 0)%nat
  end.
Proof.
  intros Hd Hh H. unfold unsafe_infer in H.
  apply bind_ok in H as (d' & s0 & H0 & H). apply desc_ok in H0 as [Hd' ->].
  rewrite Hd in Hd'. injection Hd' as <-.
  destruct (spatial d) as [sp|] eqn:Hsp.
  - intros io Hio Hfit.
    assert (running real_idx (rq_id h) io s) as HR by (split; eauto).
    apply bind_ok in H as (cm & s0 & H0 & H). apply deref_ok in H0 as [Hcm ->].
    apply bind_ok in H as ([] & s1 & Hshapes & H).
    eapply (for_each_events (running real_idx (rq_id h) io) _ (λ _, Some []))
      in Hshapes as (nothing & Hn & Tn & HR1); [|clear|done].
    2:{ intros p st st' HRt Hp. peel Hp. same_io.
        destruct (bool_decide _); [|done]. apply ret_ok in Hp as [_ ->].
        exists []. by rewrite app_nil_r. }
    assert (concat nothing = []) as En.
    { clear -Hn. revert nothing Hn. induction (sp_params sp) as [|x l IH]; intros n Hn.
      - by injection Hn as <-.
      - simpl in Hn. destruct (mapM _ l) as [n'|]; [|done]. injection Hn as <-.
        simpl. by apply IH. }
    rewrite En, app_nil_r in Tn.
    apply bind_ok in H as (off & s2 & Hloop & H).
    change 0 with (0 * sp_nway sp) in Hloop.
    eapply spatial_loop_spec in Hloop as (iters & Hi & Ti & HR2 & ->); [| |done].
    2:{ by rewrite N.add_0_l, N2Nat.id. }
    rewrite N.add_0_l, N2Nat.id in H. change (N.to_nat 0) with 0%nat in Hi.
    exists cm. unfold spec_spatial. rewrite Hi. simpl.
    destruct (decide (0 < sp_tail_size sp)) as [Hpos|Hzero].
    + rewrite bool_decide_eq_true_2 in H by lia.
      eapply spatial_tail_spec in H as (tail & Htl & Tt & HR3); [|done].
      rewrite Htl. simpl. eexists. split; [done|]. split; [done|].
      split; [by rewrite Tt, Ti, Tn, app_assoc|].
      pose proof (spec_spatial_count (rq_id h) sp io (length (cm_outputs cm))
                    (concat iters ++ tail)) as Hc.
      unfold spec_spatial in Hc. rewrite Hi in Hc. simpl in Hc.
      rewrite decide_True, Htl in Hc by done. rewrite Hc by done.
      by rewrite decide_True.
    + rewrite bool_decide_eq_false_2 in H by lia. apply ret_ok in H as [_ ->].
      eexists. split; [done|]. split; [done|].
      split; [by rewrite Ti, Tn, app_nil_r|].
      pose proof (spec_spatial_count (rq_id h) sp io (length (cm_outputs cm))
                    (concat iters ++ [])) as Hc.
      unfold spec_spatial in Hc. rewrite Hi in Hc. simpl in Hc.
      rewrite decide_False in Hc by done. rewrite Hc by done.
      by rewrite decide_False.
  - apply infer_ok in H as (h' & Hs & ->). simpl in Hs.
    rewrite Hh in Hs. by injection Hs as <-.
Qed.

Lemma unsafe_infer_spatial_witness :
  ∃ cm evs,
    compiled_model desc_spatial = Some cm
    ∧ spec_spatial 0 spatial_of spatial_slots (length (cm_outputs cm)) = Some evs
    ∧ m_trace (after (unsafe_infer (env []) 0) spatial_request)
      = m_trace spatial_request ++ evs
    ∧ count_infer 0 evs = 3%nat.
Proof.
  assert (unsafe_infer (env []) 0 spatial_request
          = Ok tt (after (unsafe_infer (env []) 0) spatial_request)) as Hrun
    by (vm_compute; reflexivity).
  apply (unsafe_infer_spatial (env []) 0 desc_spatial (handle 0 cm_spatial)
           spatial_request _ eq_refl eq_refl Hrun spatial_slots eq_refl).
  reflexivity.
Defined.

End SpatialFacts.

Module ClosureFacts.
Import Util Request Scenario Frames SpatialSpec ClosureSpec.
Import RequestFacts WiringFacts FailoverFacts SpatialFacts.
Local Open Scope req_scope.

#[local] Arguments set_tensor : simpl never.

(** ** Closure unpacking as the specification words it *)

Lemma agrees_weaken request d h (keep keep' : nat → Prop) s0 s :
  (∀ c, keep' c → keep c) → agrees request d h keep s0 s → agrees request d h keep' s0 s.
Proof. intros Hk (Hf & h' & Hs & Hid & Hin). split; [done|]. exists h'. eauto. Qed.

Lemma slot_rebound r rq p t s :
  slot s r = Some (Some rq) → slot (rebound r rq p t s) r = Some (Some (rebind rq p t)).
Proof.
  intros Hs. destruct r as [i|i]; simpl in *.
  - apply list_lookup_insert_eq. by eapply lookup_lt_Some.
  - rewrite list_lookup_alter_eq. by destruct (m_funcall_pipeline s !! i).
Qed.

Lemma rebound_same_frame r rq p t s :
  slot s r = Some (Some rq) → same_frame s (rebound r rq p t s).
Proof.
  intros Hs. unfold rebound.
  eapply same_frame_trans; [eapply (put_slot_same_frame _ _ _ (rebind rq p t)); [done|]|].
  - by destruct p.
  - by repeat split.
Qed.

Lemma slot_emit r e s : slot (set_trace (m_trace s ++ [e]) s) r = slot s r.
Proof. by destruct r. Qed.

Lemma agrees_emit request d h keep s0 s e :
  agrees request d h keep s0 s → agrees request d h keep s0 (set_trace (m_trace s ++ [e]) s).
Proof.
  intros (Hf & h' & Hs & Hid & Hin). split.
  - eapply same_frame_trans; [done|]. by repeat split.
  - exists h'. by rewrite slot_emit.
Qed.

Lemma filter_one {A} (P : A → bool) (x : A) :
  filter P [x] = if P x then [x] else [].
Proof.
  rewrite filter_cons, filter_nil. by destruct (P x).
Qed.

Lemma filter_first {A} (P : A → bool) (x : A) (l : list A) :
  filter P (x :: l) = if P x then x :: filter P l else filter P l.
Proof. rewrite filter_cons. by destruct (P x). Qed.

Lemma treatment_inv d h copy c t :
  treatment d h copy c = Some t →
  ∃ cl clparam, closure d !! c = Some cl
    ∧ rq_inputs h !! (param_base d + c) = Some clparam
    ∧ events_of d h copy t c = Some (treatment_event d h t cl clparam c)
    ∧ ∀ what, what ≠ t → events_of d h copy what c = Some [].
Proof.
  intros Ht. pose proof Ht as Ht'. unfold treatment in Ht'.
  apply bind_Some in Ht' as (cl & Hcl & Ht'). apply bind_Some in Ht' as (cp & Hcp & _).
  exists cl, cp. split; [done|]. split; [done|].
  unfold events_of. rewrite Ht, Hcl, Hcp. simpl. split.
  - by rewrite decide_True.
  - intros what NE. by rewrite decide_False.
Qed.

Section closures.
Context (E : Env) (idx : nat) (request : RqRef).
Context (d fd : CompiledModelDesc) (h : Subrequest) (s0 : State).
Context (Hcopy : ∀ s1, same_frame s0 s1 → needs_copy E s1 idx = needs_copy E s0 idx).

Local Abbreviation copy := (needs_copy E s0 idx).
Local Abbreviation is_a what :=
  (λ c, bool_decide (treatment d h copy c = Some what)).
(** Closure inputs still as in [h]: those of [l], not yet visited, and
    those no rebind is due for. *)
Local Abbreviation inv l :=
  (agrees request d h (λ c, c ∈ l ∨ treatment d h copy c ≠ Some Rebound) s0).

(** One turn of the first loop. *)
Lemma classify_closure_spec c l acc s lists s' :
  c ∉ l → inv (c :: l) s →
  classify_closure E idx request d fd c acc s = Ok lists s' →
  ∃ evs, events_of d h copy Rebound c = Some evs
    ∧ is_Some (treatment d h copy c)
    ∧ lists = (fst acc ++ filter (is_a Unpacked) [c],
               snd acc ++ filter (is_a Copied) [c])
    ∧ m_trace s' = m_trace s ++ evs
    ∧ inv l s'.
Proof.
  intros Hc HI H. destruct acc as [us cs]. unfold classify_closure in H.
  apply bind_ok in H as (cl & s1 & H0 & H). apply deref_ok in H0 as [Hcl ->].
  apply bind_ok in H as (ip & s1 & H0 & H).
  apply input_port_ok in H0 as (Ep & Es & Hport). subst ip s1.
  apply bind_ok in H as (cp & s1 & H0 & H).
  apply get_tensor_ok in H0 as (-> & rq & Hrq & Hb). simpl in Hb.
  pose proof HI as (Hf & h' & Hs & Hid & Hin). rewrite Hs in Hrq. injection Hrq as <-.
  rewrite Hin in Hb by (left; apply list_elem_of_here).
  assert (inv l s) as HI0.
  { eapply agrees_weaken; [|exact HI]. simpl. intros x [?|?]; [left; by apply list_elem_of_further|by right]. }
  destruct (bool_decide (t_type cl ≠ t_type cp)) eqn:Hty.
  { apply ret_ok in H as [-> ->].
    assert (treatment d h copy c = Some Unpacked) as Ht.
    { unfold treatment. rewrite Hcl, Hb. simpl. by rewrite Hty. }
    destruct (treatment_inv _ _ _ _ _ Ht) as (? & ? & _ & _ & _ & Hno).
    exists []. rewrite Hno by done. rewrite Ht. split; [done|]. split; [eauto|].
    rewrite !filter_one, Ht. simpl. by rewrite !app_nil_r. }
  apply bind_ok in H as (upd & s1 & H0 & H). apply deref_ok in H0 as [Hupd ->].
  destruct upd.
  2:{ apply ret_ok in H as [-> ->].
      assert (treatment d h copy c = Some Untouched) as Ht.
      { unfold treatment. rewrite Hcl, Hb. simpl. rewrite Hty, Hupd. done. }
      destruct (treatment_inv _ _ _ _ _ Ht) as (? & ? & _ & _ & _ & Hno).
      exists []. rewrite Hno by done. rewrite Ht. split; [done|]. split; [eauto|].
      rewrite !filter_one, Ht. simpl. by rewrite !app_nil_r. }
  apply bind_ok in H as (st & s1 & H0 & H). apply get_ok in H0 as [-> ->].
  rewrite (Hcopy _ Hf) in H. destruct (needs_copy E s0 idx) eqn:Hnc.
  { apply ret_ok in H as [-> ->].
    assert (treatment d h copy c = Some Copied) as Ht.
    { unfold treatment. rewrite Hcl, Hb. simpl. rewrite Hty, Hupd. simpl. by rewrite Hnc. }
    destruct (treatment_inv _ _ _ _ _ Ht) as (? & ? & _ & _ & _ & Hno).
    rewrite Hnc in *. exists []. rewrite Hno by done. rewrite Ht. split; [done|]. split; [eauto|].
    rewrite !filter_one, Ht. simpl. by rewrite !app_nil_r. }
  apply bind_ok in H as ([] & s1 & H0 & H). apply ret_ok in H as [-> ->].
  apply set_tensor_okay in H0 as (rq & Hrq & _ & ->).
  rewrite Hs in Hrq. injection Hrq as <-.
  assert (treatment d h copy c = Some Rebound) as Ht.
  { unfold treatment. rewrite Hcl, Hb. simpl. rewrite Hty, Hupd. simpl. by rewrite Hnc. }
  destruct (treatment_inv _ _ _ _ _ Ht) as (cl' & cp' & Hcl' & Hcp' & Hev & Hno).
  rewrite Hnc in *. rewrite Hcl in Hcl'. injection Hcl' as <-.
  eexists. split; [exact Hev|]. rewrite Ht. split; [eauto|].
  split.
  { rewrite !filter_one, Ht. simpl. by rewrite !app_nil_r. }
  split; [simpl; by rewrite Hid|].
  split.
  { eapply same_frame_trans; [done|]. by apply rebound_same_frame. }
  exists (rebind h' (PIn (param_base d + c)) cl).
  split; [by apply slot_rebound|]. split; [done|].
  intros x Hx. simpl. rewrite list_lookup_insert_ne.
  - apply Hin. destruct Hx; [left; by apply list_elem_of_further|by right].
  - intros Heq. assert (x = c) as -> by lia. destruct Hx; done.
Qed.

(** The first loop: what it collects, the rebinds it issues. *)
Lemma classify_fold_spec l : ∀ acc s lists s',
  NoDup l → inv l s →
  fold_m l (classify_closure E idx request d fd) acc s = Ok lists s' →
  ∃ evss, mapM (events_of d h copy Rebound) l = Some evss
    ∧ Forall (λ c, is_Some (treatment d h copy c)) l
    ∧ lists = (fst acc ++ filter (is_a Unpacked) l, snd acc ++ filter (is_a Copied) l)
    ∧ m_trace s' = m_trace s ++ concat evss
    ∧ inv [] s'.
Proof.
  induction l as [|c l IH]; intros acc s lists s' Hnd HI H; simpl in H.
  - apply ret_ok in H as [-> ->]. exists []. simpl. rewrite !app_nil_r.
    split; [done|]. split; [done|]. by destruct acc.
  - apply NoDup_cons in Hnd as [Hc Hnd].
    apply bind_ok in H as (acc1 & s1 & H0 & H).
    destruct (classify_closure_spec _ _ _ _ _ _ Hc HI H0)
      as (evs & Hev & Ht & -> & Htr & HI1).
    destruct (IH _ _ _ _ Hnd HI1 H) as (evss & Hm & Hall & -> & Htr' & HI').
    exists (evs :: evss). split; [by apply mapM_cons_Some|].
    split; [by constructor|]. split.
    + simpl. rewrite <- !app_assoc.
      by rewrite <- !filter_app.
    + split; [|done]. simpl. by rewrite Htr', Htr, app_assoc.
Qed.

(** A later phase: a loop over the indices collected for [what]. *)
Lemma phase_spec what (body : nat → M unit) l : ∀ s s',
  what ≠ Rebound →
  (∀ c cl clparam s s',
      treatment d h copy c = Some what → closure d !! c = Some cl →
      rq_inputs h !! (param_base d + c) = Some clparam →
      inv [] s → body c s = Ok tt s' →
      m_trace s' = m_trace s ++ treatment_event d h what cl clparam c ∧ inv [] s') →
  Forall (λ c, is_Some (treatment d h copy c)) l →
  inv [] s → for_each (filter (is_a what) l) body s = Ok tt s' →
  ∃ evss, mapM (events_of d h copy what) l = Some evss
    ∧ m_trace s' = m_trace s ++ concat evss ∧ inv [] s'.
Proof.
  intros s s' Hw Hbody Hall. revert s s'.
  induction Hall as [|c l [t Ht] Hall IH]; intros s s' HI H.
  - simpl in H. apply ret_ok in H as [_ ->]. exists []. simpl. by rewrite app_nil_r.
  - destruct (treatment_inv _ _ _ _ _ Ht) as (cl & cp & Hcl & Hcp & Hev & Hno).
    rewrite filter_first in H. destruct (decide (t = what)) as [->|NE].
    + rewrite bool_decide_eq_true_2 in H by done.
      simpl in H. apply bind_ok in H as ([] & s1 & H0 & H).
      destruct (Hbody _ _ _ _ _ Ht Hcl Hcp HI H0) as [Htr HI1].
      destruct (IH _ _ HI1 H) as (evss & Hm & Htr' & HI').
      eexists (_ :: evss). split; [by apply mapM_cons_Some|].
      split; [|done]. simpl. by rewrite Htr', Htr, app_assoc.
    + rewrite bool_decide_eq_false_2 in H by congruence.
      destruct (IH _ _ HI H) as (evss & Hm & Htr' & HI').
      exists ([] :: evss). split; [apply mapM_cons_Some; [|done]; by apply Hno|].
      done.
Qed.

Lemma copy_closure_spec c cl clparam s s' :
  treatment d h copy c = Some Copied → closure d !! c = Some cl →
  rq_inputs h !! (param_base d + c) = Some clparam →
  inv [] s → copy_closure request d fd c s = Ok tt s' →
  m_trace s' = m_trace s ++ treatment_event d h Copied cl clparam c ∧ inv [] s'.
Proof.
  intros Ht Hcl Hcp HI H. unfold copy_closure in H.
  apply bind_ok in H as (cl' & s1 & H0 & H). apply deref_ok in H0 as [Hcl' ->].
  apply bind_ok in H as (ip & s1 & H0 & H).
  apply input_port_ok in H0 as (Ep & Es & _). subst ip s1.
  apply bind_ok in H as (cp & s1 & H0 & H).
  apply get_tensor_ok in H0 as (-> & rq & Hrq & Hb). simpl in Hb.
  apply emit_ok in H as ->.
  pose proof HI as (Hf & h' & Hs & Hid & Hin). rewrite Hs in Hrq. injection Hrq as <-.
  rewrite Hin in Hb by (right; congruence).
  split; [|by apply agrees_emit]. simpl. congruence.
Qed.

Lemma unpack_one_spec c cl clparam s s' :
  treatment d h copy c = Some Unpacked → closure d !! c = Some cl →
  rq_inputs h !! (param_base d + c) = Some clparam →
  inv [] s → unpack_one request d fd c s = Ok tt s' →
  m_trace s' = m_trace s ++ treatment_event d h Unpacked cl clparam c ∧ inv [] s'.
Proof.
  intros Ht Hcl Hcp HI H. unfold unpack_one in H.
  apply bind_ok in H as (cl' & s1 & H0 & H). apply deref_ok in H0 as [Hcl' ->].
  apply bind_ok in H as (ip & s1 & H0 & H).
  apply input_port_ok in H0 as (Ep & Es & _). subst ip s1.
  apply bind_ok in H as (cp & s1 & H0 & H).
  apply get_tensor_ok in H0 as (-> & rq & Hrq & Hb). simpl in Hb.
  pose proof HI as (Hf & h' & Hs & Hid & Hin). rewrite Hs in Hrq. injection Hrq as <-.
  rewrite Hin in Hb by (right; congruence).
  assert (cl' = cl) as -> by congruence. assert (cp = clparam) as -> by congruence.
  apply bind_ok in H as (scale & s1 & H0 & H).
  assert (s1 = s ∧ mjoin (scales d !! c) = scale) as [-> Hsc].
  { destruct (scales d) as [|x l] eqn:Hl.
    - apply ret_ok in H0. destruct H0 as [-> ->]. by rewrite lookup_nil.
    - apply deref_ok in H0. destruct H0 as [-> ->]. done. }
  simpl. unfold unpack_event. rewrite Hsc. destruct scale as [sc|].
  - apply bind_ok in H as (zerop & s1 & H1 & H). apply deref_ok in H1 as [-> ->].
    simpl. destruct zerop; apply emit_ok in H as ->; split; try done;
      by apply agrees_emit.
  - apply emit_ok in H as ->. split; [done|]. by apply agrees_emit.
Qed.
End closures.

(** The three phases of a successful [unpack_closure]. *)
Lemma unpack_closure_phases E idx request d h s s' :
  m_compiled_submodels s !! idx = Some d →
  slot s request = Some (Some h) →
  (∀ s1, same_frame s s1 → needs_copy E s1 idx = needs_copy E s idx) →
  unpack_closure E idx request s = Ok tt s' →
  let cs := seq 0 (length (closure d)) in
  ∃ rebinds copies unpacks,
    mapM (events_of d h (needs_copy E s idx) Rebound) cs = Some rebinds
    ∧ mapM (events_of d h (needs_copy E s idx) Copied) cs = Some copies
    ∧ mapM (events_of d h (needs_copy E s idx) Unpacked) cs = Some unpacks
    ∧ m_trace s' = m_trace s ++ concat rebinds ++ concat copies ++ concat unpacks.
Proof.
  intros Hd Hh Hcopy H. unfold unpack_closure in H.
  apply bind_ok in H as (d' & s1 & H0 & H). apply desc_ok in H0 as [Hd' ->].
  rewrite Hd in Hd'. injection Hd' as <-.
  apply bind_ok in H as ([] & s1 & H0 & H). apply assert_ok in H0 as [_ ->].
  apply bind_ok in H as (fd & s1 & H0 & H). apply desc_ok in H0 as [_ ->].
  apply bind_ok in H as (lists & s1 & Hfold & H).
  apply bind_ok in H as ([] & s2 & Hcopies & H).
  assert (agrees request d h
            (λ c, c ∈ seq 0 (length (closure d))
                  ∨ treatment d h (needs_copy E s idx) c ≠ Some Rebound) s s) as HI.
  { split; [apply same_frame_refl|]. exists h. done. }
  destruct (classify_fold_spec E idx request d fd h s Hcopy _ _ _ _ _
              (NoDup_seq _ _) HI Hfold) as (rebinds & Hr & Hall & -> & Tr & HI1).
  simpl in Hcopies, H.
  destruct (phase_spec E idx request d h s Copied _ _ _ _ ltac:(done)
              (copy_closure_spec E idx request d fd h s) Hall HI1 Hcopies)
    as (copies & Hc & Tc & HI2).
  destruct (phase_spec E idx request d h s Unpacked _ _ _ _ ltac:(done)
              (unpack_one_spec E idx request d fd h s) Hall HI2 H)
    as (unpacks & Hu & Tu & HI3).
  exists rebinds, copies, unpacks. repeat split; try done.
  by rewrite Tu, Tc, Tr, <- !app_assoc.
Qed.

Lemma unpack_closure_events E idx request d h s s' :
  m_compiled_submodels s !! idx = Some d →
  slot s request = Some (Some h) →
  (∀ s1, same_frame s s1 → needs_copy E s1 idx = needs_copy E s idx) →
  unpack_closure E idx request s = Ok tt s' →
  ∃ evs, spec_unpack_closure d h (needs_copy E s idx) = Some evs
         ∧ m_trace s' = m_trace s ++ evs.
Proof.
  intros Hd Hh Hcopy H.
  destruct (unpack_closure_phases _ _ _ _ _ _ _ Hd Hh Hcopy H)
    as (rebinds & copies & unpacks & Hr & Hc & Hu & Ht).
  unfold spec_unpack_closure. cbv zeta. rewrite Hr. simpl. rewrite Hc. simpl. rewrite Hu.
  simpl. eauto.
Qed.

(** C3.  A successful [unpack_closure(idx, request)] on a request whose
    handle is [h], with [needs_copy(idx)] giving one answer throughout: every
    closure index falls under one rule -- unpack when the element types of
    the closure and of the tensor at body input [param_base + c] differ; else
    copy when [update_required[c]] and [needs_copy(idx)]; else rebind when
    [update_required[c]]; else nothing -- and the events added are the
    rebinds, then the copies into the request's tensors, then the unpacks
    into them ([unpack2] with scale and zero point, [unpack1] with a scale
    only, [unpack] otherwise), each group in index order. *)
Theorem unpack_closure_classifies E idx request d h s s' :
  m_compiled_submodels s !! idx = Some d →
  slot s request = Some (Some h) →
  (∀ s1, same_frame s s1 → needs_copy E s1 idx = needs_copy E s idx) →
  unpack_closure E idx request s = Ok tt s' →
  ∃ evs, spec_unpack_closure d h (needs_copy E s idx) = Some evs
         ∧ m_trace s' = m_trace s ++ evs.
Proof.
  intros Hd Hh Hcopy H.
  destruct (unpack_closure_phases _ _ _ _ _ _ _ Hd Hh Hcopy H)
    as (rebinds & copies & unpacks & Hr & Hc & Hu & Ht).
  exists (concat rebinds ++ concat copies ++ concat unpacks). split; [|done].
  unfold spec_unpack_closure. cbv zeta. rewrite Hr. simpl. rewrite Hc. simpl.
  by rewrite Hu.
Qed.

Lemma unpack_closure_classifies_witness :
  ∃ evs,
    spec_unpack_closure desc_packed_body (handle 1 cm_body)
      (needs_copy (env []) packed_body_request 1) = Some evs
    ∧ m_trace (after (unpack_closure (env []) 1 (Primary 1)) packed_body_request)
      = m_trace packed_body_request ++ evs.
Proof.
  apply (unpack_closure_classifies (env []) 1 (Primary 1) desc_packed_body
           (handle 1 cm_body) packed_body_request); reflexivity.
Defined.

End ClosureFacts.

Module FrozenFacts.
Import Util Request Scenario Frames SpatialSpec ClosureSpec.
Import RequestFacts WiringFacts FailoverFacts SpatialFacts ClosureFacts.
Local Open Scope req_scope.

#[local] Arguments set_tensor : simpl never.

Lemma binds_of_app rq p a b : binds_of rq p (a ++ b) = binds_of rq p a ++ binds_of rq p b.
Proof. apply omap_app. Qed.

Lemma binds_of_other rq p rq' p' t :
  p' ≠ p → binds_of rq p [ESetTensor rq' p' t] = [].
Proof. intros NE. unfold binds_of. simpl. rewrite decide_False; [done|]. by intros [_ ?]. Qed.

Lemma binds_of_same rq p t : binds_of rq p [ESetTensor rq p t] = [t].
Proof. unfold binds_of. simpl. by rewrite decide_True. Qed.

Lemma quiet_refl rq p s : quiet rq p s s.
Proof. exists []. by rewrite app_nil_r. Qed.

Lemma quiet_trans rq p s1 s2 s3 : quiet rq p s1 s2 → quiet rq p s2 s3 → quiet rq p s1 s3.
Proof.
  intros (e1 & T1 & B1) (e2 & T2 & B2). exists (e1 ++ e2).
  split; [by rewrite T2, T1, app_assoc|]. by rewrite binds_of_app, B1, B2.
Qed.

Lemma quiet_emit rq p e s :
  binds_of rq p [e] = [] → quiet rq p s (set_trace (m_trace s ++ [e]) s).
Proof. intros He. by exists [e]. Qed.

(** ** Events of a list of turns, seen through [binds_of] *)

Section concat.
Context `{EqDecision X} (rq : nat) (p : Port) (ev : X → option (list Event)).

Lemma concat_quiet l evss :
  (∀ x evs, x ∈ l → ev x = Some evs → binds_of rq p evs = []) →
  mapM ev l = Some evss → binds_of rq p (concat evss) = [].
Proof.
  revert evss. induction l as [|x l IH]; intros evss Hq H.
  - by injection H as <-.
  - simpl in H. destruct (ev x) as [evs|] eqn:Hx; [|done]. simpl in H.
    destruct (mapM ev l) as [ess|] eqn:Hl; [|done]. injection H as <-.
    simpl. rewrite binds_of_app, (Hq x evs), (IH ess); try done.
    + intros y evs' Hy. apply Hq. by apply list_elem_of_further.
    + apply list_elem_of_here.
Qed.

Lemma concat_single c evs_c l evss :
  NoDup l → c ∈ l → ev c = Some evs_c →
  (∀ x evs, x ∈ l → x ≠ c → ev x = Some evs → binds_of rq p evs = []) →
  mapM ev l = Some evss → binds_of rq p (concat evss) = binds_of rq p evs_c.
Proof.
  revert evss. induction l as [|x l IH]; intros evss Hnd Hc Hevc Hq H.
  - by apply elem_of_nil in Hc.
  - apply NoDup_cons in Hnd as [Hx Hnd].
    simpl in H. destruct (ev x) as [evs|] eqn:Hevx; [|done]. simpl in H.
    destruct (mapM ev l) as [ess|] eqn:Hl; [|done]. injection H as <-.
    simpl. rewrite binds_of_app.
    destruct (decide (x = c)) as [->|NE].
    + rewrite (concat_quiet l ess), app_nil_r; [congruence| |done].
      intros y evs' Hy. apply Hq; [by apply list_elem_of_further|].
      intros ->. done.
    + apply elem_of_cons in Hc as [->|Hc]; [done|].
      rewrite (Hq x evs), (IH ess); try done.
      * intros y evs' Hy. apply Hq. by apply list_elem_of_further.
      * apply list_elem_of_here.
Qed.
End concat.

(** ** Construction *)

Lemma device_of_ok idx s dev s' :
  device_of idx s = Ok dev s' →
  s' = s ∧ ∃ d, m_compiled_submodels s !! idx = Some d ∧ m_dev_list s !! device_it d = Some dev.
Proof.
  unfold device_of. intros H.
  apply bind_ok in H as (d & s1 & H0 & H). apply desc_ok in H0 as [Hd ->].
  apply bind_ok in H as (s0 & s1 & H0 & H). apply get_ok in H0 as [-> ->].
  apply deref_ok in H as [Hdev ->]. eauto.
Qed.

Lemma preset_closures_of_events E idx d cm h s s' :
  m_compiled_submodels s !! idx = Some d →
  compiled_model d = Some cm → replaced_by d = Some idx →
  m_subrequests s !! idx = Some (Some h) →
  preset_closures_of E idx s = Ok tt s' →
  ∃ evss, mapM (preset_event E d h (m_dev_list s)) (seq 0 (length (closure d))) = Some evss
          ∧ m_trace s' = m_trace s ++ concat evss.
Proof.
  intros Hd Hcm Hrep Hh H. unfold preset_closures_of in H.
  apply bind_ok in H as (d' & s1 & H0 & H). apply desc_ok in H0 as [Hd' ->].
  rewrite Hd in Hd'. injection Hd' as <-. rewrite Hcm, Hrep in H.
  apply bind_ok in H as (d' & s1 & H0 & H). apply desc_ok in H0 as [Hd' ->].
  rewrite Hd in Hd'. injection Hd' as <-.
  eapply (for_each_events (presetting idx d h (m_dev_list s)) _
            (preset_event E d h (m_dev_list s))) in H as (evss & Hm & Ht & _).
  - eauto.
  - clear H. intros x st st' (Hdt & Hdev & h' & Hh' & Hid) H.
    apply bind_ok in H as (cl & s1 & H0 & H). apply deref_ok in H0 as [Hcl ->].
    apply bind_ok in H as (ip & s1 & H0 & H).
    apply input_port_ok in H0 as (Ep & Es & _). subst ip s1.
    apply bind_ok in H as (upd & s1 & H0 & H). apply deref_ok in H0 as [Hupd ->].
    unfold preset_event. rewrite Hcl, Hupd. simpl. destruct upd.
    + apply ret_ok in H as [_ ->]. exists []. rewrite app_nil_r.
      split; [done|]. split; [done|]. split; [done|]. eauto.
    + apply bind_ok in H as (dev & s1 & H0 & H).
      apply device_of_ok in H0 as (-> & d' & Hd' & Hdv).
      rewrite Hdt in Hd'. injection Hd' as <-. rewrite Hdev in Hdv. rewrite Hdv. simpl.
      apply set_tensor_okay in H as (rq & Hrq & _ & ->). simpl in Hrq.
      rewrite Hh' in Hrq. injection Hrq as <-.
      eexists. split; [done|]. split; [simpl; by rewrite Hid|].
      split; [done|]. split; [done|].
      exists (rebind h' (PIn (param_base d + x)) (wbank_get E cl dev)).
      split; [|done]. simpl. apply list_lookup_insert_eq. by eapply lookup_lt_Some.
  - split; [done|]. split; [done|]. eauto.
Qed.

Lemma preset_binds_once E idx d cm h c cl s s' :
  m_compiled_submodels s !! idx = Some d →
  compiled_model d = Some cm → replaced_by d = Some idx →
  m_subrequests s !! idx = Some (Some h) →
  closure d !! c = Some cl → update_required d !! c = Some false →
  preset_closures_of E idx s = Ok tt s' →
  ∃ evs dev, m_trace s' = m_trace s ++ evs
    ∧ binds_of (rq_id h) (PIn (param_base d + c)) evs = [wbank_get E cl dev].
Proof.
  intros Hd Hcm Hrep Hh Hcl Hupd H.
  destruct (preset_closures_of_events _ _ _ _ _ _ _ Hd Hcm Hrep Hh H) as (evss & Hm & Ht).
  assert (c ∈ seq 0 (length (closure d))) as Hc.
  { apply elem_of_seq. apply lookup_lt_Some in Hcl. lia. }
  assert (∃ evs, preset_event E d h (m_dev_list s) c = Some evs) as [evs Hev].
  { clear -Hm Hc. revert evss Hm. induction (seq 0 (length (closure d))) as [|x l IH];
      intros evss Hm; [by apply elem_of_nil in Hc|].
    simpl in Hm. destruct (preset_event E d h (m_dev_list s) x) eqn:Hx; [|done].
    simpl in Hm. destruct (mapM _ l) eqn:Hl; [|done].
    apply elem_of_cons in Hc as [->|Hc]; eauto. }
  pose proof Hev as Hev'. unfold preset_event in Hev'. rewrite Hcl, Hupd in Hev'.
  simpl in Hev'. apply bind_Some in Hev' as (dev & Hdev & Hev'). injection Hev' as <-.
  exists (concat evss), dev. split; [done|].
  erewrite (concat_single _ _ _ c); [apply binds_of_same|apply NoDup_seq|done|done| |done].
  - intros x evs' _ NE Hx. unfold preset_event in Hx.
    apply bind_Some in Hx as (cl' & _ & Hx). apply bind_Some in Hx as (upd & _ & Hx).
    destruct upd; [by injection Hx as <-|].
    apply bind_Some in Hx as (dev' & _ & Hx). injection Hx as <-.
    apply binds_of_other. intros [=]. lia.
Qed.

(** ** Later calls of [unpack_closure] *)

Lemma mapM_elem {A B} (f : A → option B) l k x :
  mapM f l = Some k → x ∈ l → is_Some (f x).
Proof.
  intros Hm Hx. assert (is_Some (mapM f l)) as Hs by eauto.
  apply mapM_is_Some in Hs. rewrite Forall_forall in Hs. by apply Hs.
Qed.

Lemma frozen_treatment d h copy c cl clparam :
  closure d !! c = Some cl → update_required d !! c = Some false →
  rq_inputs h !! (param_base d + c) = Some clparam →
  treatment d h copy c
  = Some (if bool_decide (t_type cl ≠ t_type clparam) then Unpacked else Untouched).
Proof.
  intros Hcl Hupd Hcp. unfold treatment. rewrite Hcl, Hcp. simpl.
  destruct (bool_decide _); [done|]. by rewrite Hupd.
Qed.

Lemma events_of_inv d h copy what x evs :
  events_of d h copy what x = Some evs →
  evs = [] ∨ ∃ cl clparam, treatment d h copy x = Some what
                           ∧ evs = treatment_event d h what cl clparam x.
Proof.
  unfold events_of. intros H.
  apply bind_Some in H as (t & Ht & H). apply bind_Some in H as (cl & _ & H).
  apply bind_Some in H as (cp & _ & H). injection H as <-.
  destruct (decide (t = what)) as [->|]; eauto.
Qed.

Lemma spec_unpack_closure_binds d h copy c evs rq :
  spec_unpack_closure d h copy = Some evs →
  treatment d h copy c ≠ Some Rebound →
  binds_of rq (PIn (param_base d + c)) evs = [].
Proof.
  unfold spec_unpack_closure. intros H Hc.
  apply bind_Some in H as (rebinds & Hr & H). apply bind_Some in H as (copies & Hcs & H).
  apply bind_Some in H as (unpacks & Hu & H). injection H as <-.
  rewrite !binds_of_app.
  erewrite (concat_quiet _ _ _ _ rebinds), (concat_quiet _ _ _ _ copies),
    (concat_quiet _ _ _ _ unpacks); [done| |exact Hu| |exact Hcs| |exact Hr].
  - intros x e _ He. apply events_of_inv in He as [->|(cl & cp & Ht & ->)]; [done|].
    simpl. unfold unpack_event. by repeat case_match.
  - intros x e _ He. by apply events_of_inv in He as [->|(cl & cp & Ht & ->)].
  - intros x e _ He. apply events_of_inv in He as [->|(cl & cp & Ht & ->)]; [done|].
    simpl. apply binds_of_other. intros [=]. assert (x = c) as -> by lia. done.
Qed.

Lemma unpack_closure_frozen E idx request d h c cl s s' :
  m_compiled_submodels s !! idx = Some d →
  slot s request = Some (Some h) →
  (∀ s1, same_frame s s1 → needs_copy E s1 idx = needs_copy E s idx) →
  closure d !! c = Some cl → update_required d !! c = Some false →
  unpack_closure E idx request s = Ok tt s' →
  ∃ evs clparam,
    spec_unpack_closure d h (needs_copy E s idx) = Some evs
    ∧ m_trace s' = m_trace s ++ evs
    ∧ rq_inputs h !! (param_base d + c) = Some clparam
    ∧ treatment d h (needs_copy E s idx) c
      = Some (if bool_decide (t_type cl ≠ t_type clparam) then Unpacked else Untouched)
    ∧ ∀ rq, binds_of rq (PIn (param_base d + c)) evs = [].
Proof.
  intros Hd Hh Hcopy Hcl Hupd H.
  destruct (unpack_closure_events _ _ _ _ _ _ _ Hd Hh Hcopy H) as (evs & Hspec & Ht).
  assert (is_Some (treatment d h (needs_copy E s idx) c)) as [t Htr].
  { pose proof Hspec as Hs. unfold spec_unpack_closure in Hs.
    apply bind_Some in Hs as (rebinds & Hr & _).
    eapply mapM_elem in Hr as [e He].
    2:{ apply elem_of_seq. apply lookup_lt_Some in Hcl. split; [lia|]. simpl. exact Hcl. }
    unfold events_of in He. apply bind_Some in He as (t & Htr & _). eauto. }
  destruct (treatment_inv _ _ _ _ _ Htr) as (cl' & cp & _ & Hcp & _ & _).
  pose proof (frozen_treatment d h (needs_copy E s idx) c cl cp Hcl Hupd Hcp) as Hfz.
  exists evs, cp. repeat split; try done. intros rq.
  apply (spec_unpack_closure_binds _ _ _ _ _ rq Hspec). rewrite Hfz. by destruct (bool_decide _).
Qed.

(** ** Inferences *)

Section quiet.
Context (rq : nat) (p : Port).

Lemma for_each_quiet {X} (l : list X) (body : X → M unit) : ∀ s s',
  (∀ x st st', x ∈ l → body x st = Ok tt st' → quiet rq p st st') →
  for_each l body s = Ok tt s' → quiet rq p s s'.
Proof.
  induction l as [|x l IH]; intros s s' Hb H; simpl in H.
  - apply ret_ok in H as [_ ->]. apply quiet_refl.
  - apply bind_ok in H as ([] & s1 & H0 & H).
    eapply quiet_trans; [eapply Hb; [apply list_elem_of_here|done]|].
    apply IH; [|done]. intros y st st' Hy. apply Hb. by apply list_elem_of_further.
Qed.

Lemma spatial_loop_quiet n nway (body : N → M unit) : ∀ off s o s',
  (∀ k st st', body k st = Ok tt st' → quiet rq p st st') →
  spatial_loop n nway off body s = Ok o s' → quiet rq p s s'.
Proof.
  induction n as [|n IH]; intros off s o s' Hb H; simpl in H.
  - apply ret_ok in H as [_ ->]. apply quiet_refl.
  - apply bind_ok in H as ([] & s1 & H0 & H).
    eapply quiet_trans; [by eapply Hb|]. by eapply IH.
Qed.

Lemma set_tensor_quiet r p' t s s' :
  p' ≠ p → set_tensor r p' t s = Ok tt s' → quiet rq p s s'.
Proof.
  intros NE H. apply set_tensor_okay in H as (h & _ & _ & ->).
  eexists. split; [done|]. by apply binds_of_other.
Qed.

Lemma infer_quiet E r s s' : infer E r s = Ok tt s' → quiet rq p s s'.
Proof. intros H. apply infer_ok in H as (h & _ & ->). by apply quiet_emit. Qed.
End quiet.

(** The loop that fills [full_in_shapes] changes nothing of the request,
    and passes only when every spatial input lies below [param_base]. *)
Lemma for_each_pure {X} (Q : X → Prop) (l : list X) (body : X → M unit) : ∀ s s',
  (∀ x st st', body x st = Ok tt st' → st' = st ∧ Q x) →
  for_each l body s = Ok tt s' → s' = s ∧ Forall Q l.
Proof.
  induction l as [|x l IH]; intros s s' Hb H; simpl in H.
  - apply ret_ok in H as [_ ->]. done.
  - apply bind_ok in H as ([] & s1 & H0 & H).
    apply Hb in H0 as [-> HQ]. apply IH in H as [-> Hl]; [|done].
    split; [done|]. by constructor.
Qed.

(** Views leave the request as it is. *)
Ltac drop_views :=
  repeat match goal with
  | Hv : view_of _ _ _ _ _ = Ok _ _ |- _ => apply view_of_ok in Hv as (-> & _)
  end.

Lemma unsafe_infer_quiet E real_idx d rq i s s' :
  m_compiled_submodels s !! real_idx = Some d →
  param_base d ≤ i →
  unsafe_infer E real_idx s = Ok tt s' →
  quiet rq (PIn i) s s'.
Proof.
  intros Hd Hi H. unfold unsafe_infer in H.
  apply bind_ok in H as (d' & s1 & H0 & H). apply desc_ok in H0 as [Hd' ->].
  rewrite Hd in Hd'. injection Hd' as <-.
  destruct (spatial d) as [sp|]; [|by eapply infer_quiet].
  apply bind_ok in H as (cm & s1 & H0 & H). apply deref_ok in H0 as [Hcm ->].
  apply bind_ok in H as ([] & s1 & Hshapes & H).
  apply (for_each_pure (λ p, sp_idx p < param_base d)) in Hshapes as [-> Hlow].
  2:{ clear. intros x st st' H. peel H.
      destruct (bool_decide _) eqn:Hb; [|done].
      apply ret_ok in H as [_ ->]. by apply bool_decide_eq_true_1 in Hb. }
  rewrite Forall_forall in Hlow.
  assert (∀ x, x ∈ sp_params sp → PIn (sp_idx x) ≠ PIn i) as Hports.
  { intros x Hx [=]. apply Hlow in Hx. lia. }
  apply bind_ok in H as (off & s1 & Hloop & H).
  eapply quiet_trans.
  { eapply spatial_loop_quiet; [|exact Hloop]. clear -Hports.
    intros k st st' H. unfold spatial_step in H.
    apply bind_ok in H as ([] & s1 & Hin & H). apply bind_ok in H as ([] & s2 & Hout & H).
    eapply quiet_trans; [|eapply quiet_trans; [|by eapply infer_quiet]].
    - eapply for_each_quiet; [|exact Hin]. intros x s3 s4 Hx Hb. cbv beta in Hb. peel Hb. drop_views.
      eapply set_tensor_quiet; [|exact Hb]. by apply Hports.
    - eapply for_each_quiet; [|exact Hout]. intros x s3 s4 Hx Hb. cbv beta in Hb. peel Hb. drop_views.
      eapply set_tensor_quiet; [|exact Hb]; done. }
  destruct (bool_decide _).
  2:{ apply ret_ok in H as [_ ->]. apply quiet_refl. }
  unfold spatial_tail in H.
  apply bind_ok in H as ([] & s2 & Hin & H). apply bind_ok in H as ([] & s3 & Hout & H).
  apply bind_ok in H as ([] & s4 & Hinf & H).
  eapply quiet_trans; [|eapply quiet_trans; [|eapply quiet_trans; [by eapply infer_quiet|]]].
  - eapply for_each_quiet; [|exact Hin]. intros x st st' Hx Hb. cbv beta in Hb. peel Hb. drop_views.
    eapply quiet_trans; [|eapply set_tensor_quiet; [|exact Hb]; by apply Hports].
    by apply quiet_emit.
  - eapply for_each_quiet; [|exact Hout]. intros x st st' Hx Hb. cbv beta in Hb. peel Hb. drop_views.
    eapply set_tensor_quiet; [|exact Hb]; done.
  - eapply for_each_quiet; [|exact H]. intros x st st' Hx Hb. cbv beta in Hb. peel Hb. drop_views.
    apply emit_ok in Hb as ->. by apply quiet_emit.
Qed.

Section quiet_more.
Context (rq : nat) (p : Port).

Lemma quiet_same_trace s s' : m_trace s' = m_trace s → quiet rq p s s'.
Proof. intros H. exists []. by rewrite app_nil_r. Qed.

Lemma fold_m_quiet {X B} (l : list X) (body : X → B → M B) : ∀ b s b' s',
  (∀ x b st b' st', x ∈ l → body x b st = Ok b' st' → quiet rq p st st') →
  fold_m l body b s = Ok b' s' → quiet rq p s s'.
Proof.
  induction l as [|x l IH]; intros b s b' s' Hb H; simpl in H.
  - apply ret_ok in H as [_ ->]. apply quiet_refl.
  - apply bind_ok in H as (b1 & s1 & H0 & H).
    eapply quiet_trans; [eapply Hb; [apply list_elem_of_here|done]|].
    eapply IH; [|done]. intros y ? ? ? ? Hy. apply Hb. by apply list_elem_of_further.
Qed.

Lemma emit_quiet e s s' :
  binds_of rq p [e] = [] → emit e s = Ok tt s' → quiet rq p s s'.
Proof. intros He H. apply emit_ok in H as ->. by apply quiet_emit. Qed.
End quiet_more.

Lemma set_spatial_input_trace real_idx i t s s' :
  set_spatial_input real_idx i t s = Ok tt s' → m_trace s' = m_trace s.
Proof.
  unfold set_spatial_input. intros H. peel H. by apply modify_ok in H as ->.
Qed.

Lemma set_spatial_output_trace real_idx i t s s' :
  set_spatial_output real_idx i t s = Ok tt s' → m_trace s' = m_trace s.
Proof.
  unfold set_spatial_output. intros H. peel H. by apply modify_ok in H as ->.
Qed.

(** [unpack_closure] leaves alone every input that is not the port of a
    closure it has to update. *)
Lemma classify_closure_quiet E idx request d fd rq i cidx acc acc' s s' :
  (param_base d + cidx = i → update_required d !! cidx = Some false) →
  classify_closure E idx request d fd cidx acc s = Ok acc' s' →
  quiet rq (PIn i) s s'.
Proof.
  intros Hfz H. unfold classify_closure in H. destruct acc as [u c].
  peel H. destruct (bool_decide (t_type _ ≠ t_type _)).
  { apply ret_ok in H as [_ ->]. apply quiet_refl. }
  apply bind_ok in H as (upd & sx & Hu & H). apply deref_ok in Hu as [Hupd ->].
  destruct upd.
  2:{ apply ret_ok in H as [_ ->]. apply quiet_refl. }
  peel H. destruct (needs_copy E _ idx).
  { apply ret_ok in H as [_ ->]. apply quiet_refl. }
  peel H. apply ret_ok in H as [_ ->].
  repeat match goal with u : () |- _ => destruct u end.
  eapply set_tensor_quiet; [|done]. intros [= Ei]. apply Hfz in Ei. congruence.
Qed.

Lemma unpack_closure_quiet E idx request d rq i s s' :
  m_compiled_submodels s !! idx = Some d →
  (∀ cidx, param_base d + cidx = i → update_required d !! cidx = Some false) →
  unpack_closure E idx request s = Ok tt s' →
  quiet rq (PIn i) s s'.
Proof.
  intros Hd Hfz H. unfold unpack_closure in H.
  apply bind_ok in H as (d' & s1 & H0 & H). apply desc_ok in H0 as [Hd' ->].
  rewrite Hd in Hd'. injection Hd' as <-.
  apply bind_ok in H as (? & s1 & H0 & H). apply assert_ok in H0 as [_ ->].
  apply bind_ok in H as (fd & s1 & H0 & H). apply desc_ok in H0 as [_ ->].
  apply bind_ok in H as (lists & s1 & Hcl & H).
  apply bind_ok in H as ([] & s2 & Hcp & H).
  eapply quiet_trans; [|eapply quiet_trans].
  - eapply fold_m_quiet; [|exact Hcl]. intros y b st b' st' _ Hy.
    eapply classify_closure_quiet; [|exact Hy]. apply Hfz.
  - eapply for_each_quiet; [|exact Hcp]. intros y st st' _ Hy.
    unfold copy_closure in Hy. peel Hy.
    eapply emit_quiet; [|exact Hy]. reflexivity.
  - eapply for_each_quiet; [|exact H]. intros y st st' _ Hy.
    unfold unpack_one in Hy.
    apply bind_ok in Hy as (cl & s3 & Hy0 & Hy). apply deref_ok in Hy0 as [_ ->].
    apply bind_ok in Hy as (ip & s3 & Hy0 & Hy). apply input_port_ok in Hy0 as (_ & -> & _).
    apply bind_ok in Hy as (cp & s3 & Hy0 & Hy). apply get_tensor_ok in Hy0 as (-> & _).
    apply bind_ok in Hy as (scale & s3 & Hy0 & Hy).
    assert (s3 = st) as ->.
    { destruct (scales d); [by apply ret_ok in Hy0 as [_ ->]|by apply deref_ok in Hy0 as [_ ->]]. }
    destruct scale as [sc|].
    + apply bind_ok in Hy as (zerop & s3 & Hy0' & Hy). apply deref_ok in Hy0' as [_ ->].
      destruct zerop; (eapply emit_quiet; [|exact Hy]; reflexivity).
    + eapply emit_quiet; [|exact Hy]; reflexivity.
Qed.

Ltac frame_known ::=
  first [ apply emit_same_frame | apply set_tensor_same_frame
        | apply set_spatial_input_same_frame ].

Lemma function_prologue_quiet E idx d real_idx fd rq i s s' :
  m_compiled_submodels s !! idx = Some d →
  replaced_by d = Some real_idx →
  m_compiled_submodels s !! real_idx = Some fd →
  param_base fd ≤ i →
  (∀ cidx, param_base d + cidx = i → update_required d !! cidx = Some false) →
  function_prologue E idx s = Ok tt s' →
  quiet rq (PIn i) s s'.
Proof.
  intros Hd Hrep Hfd Hi Hfz H. unfold function_prologue in H.
  apply bind_ok in H as (d' & s1 & H0 & H). apply desc_ok in H0 as [Hd' ->].
  rewrite Hd in Hd'. injection Hd' as <-.
  apply bind_ok in H as (? & s1 & H0 & H). apply assert_ok in H0 as [_ ->].
  rewrite Hrep in H. change (default idx (Some real_idx)) with real_idx in H.
  apply bind_ok in H as (fd' & s1 & H0 & H). apply desc_ok in H0 as [Hfd' ->].
  rewrite Hfd in Hfd'. injection Hfd' as <-.
  apply bind_ok in H as ([] & s1 & Hin & H).
  apply bind_ok in H as (s1' & s1'' & H0 & H). apply get_ok in H0 as [-> ->].
  apply bind_ok in H as ([] & s2 & Hun & H).
  apply bind_ok in H as (cm & s2' & H0 & H). apply deref_ok in H0 as [Hcm ->].
  assert (same_frame s s1) as F.
  { match type of Hin with
    | ?m s = _ => assert (preserves same_frame m) as P by same_frame
    end.
    specialize (P s). by rewrite Hin in P. }
  eapply quiet_trans; [|eapply quiet_trans].
  - eapply for_each_quiet; [|exact Hin]. intros y st st' Hy Hb. cbv beta in Hb.
    apply elem_of_seq in Hy.
    apply bind_ok in Hb as (ip & s3 & Hb0 & Hb). apply input_port_ok in Hb0 as (-> & -> & _).
    apply bind_ok in Hb as (s3 & s4 & Hb0 & Hb). apply get_ok in Hb0 as [-> ->].
    destruct (find_link st (idx, y)) as [[prod_idx prod_port]|].
    2:{ apply ret_ok in Hb as [_ ->]. apply quiet_refl. }
    apply bind_ok in Hb as (pd & s3 & Hb0 & Hb). apply desc_ok in Hb0 as [_ ->].
    apply bind_ok in Hb as (it & s3 & Hb0 & Hb).
    assert (s3 = st) as ->.
    { destruct (replaced_by pd).
      - by apply at_ok in Hb0 as [_ ->].
      - peel Hb0. by apply get_tensor_ok in Hb0 as [-> _]. }
    destruct (bool_decide (is_Some (spatial fd))).
    + apply quiet_same_trace. by eapply set_spatial_input_trace.
    + eapply set_tensor_quiet; [|exact Hb]. intros [=]. lia.
  - destruct (m_use_function_pipelining s1).
    + apply ret_ok in Hun as [_ ->]. apply quiet_refl.
    + eapply unpack_closure_quiet; [|exact Hfz|exact Hun].
      destruct F as (-> & _). done.
  - eapply for_each_quiet; [|exact H]. intros y st st' Hy Hb. cbv beta in Hb.
    apply bind_ok in Hb as (op & s3 & Hb0 & Hb). apply output_port_ok in Hb0 as (-> & -> & _).
    apply bind_ok in Hb as (s3 & s4 & Hb0 & Hb). apply get_ok in Hb0 as [-> ->].
    apply bind_ok in Hb as (ot & s3 & Hb0 & Hb). apply at_ok in Hb0 as [_ ->].
    destruct (bool_decide (is_Some (spatial fd))).
    + apply quiet_same_trace. by eapply set_spatial_output_trace.
    + eapply set_tensor_quiet; [|exact Hb]. done.
Qed.

Lemma bind_global_results_quiet idx rq i s s' :
  bind_global_results idx s = Ok tt s' → quiet rq (PIn i) s s'.
Proof.
  intros H. unfold bind_global_results in H.
  apply bind_ok in H as (d & s1 & H0 & H). apply desc_ok in H0 as [_ ->].
  destruct (replaced_by d).
  { apply ret_ok in H as [_ ->]. apply quiet_refl. }
  apply bind_ok in H as (s0 & s1 & H0 & H). apply get_ok in H0 as [-> ->].
  apply bind_ok in H as (io & s1 & H0 & H). apply at_ok in H0 as [_ ->].
  eapply for_each_quiet; [|exact H]. intros [r o] st st' _ Hb. cbv beta in Hb.
  peel Hb. eapply set_tensor_quiet; [|exact Hb]. done.
Qed.

Lemma pick_subrequest_ok real_idx s r s' :
  pick_subrequest real_idx s = Ok r s' → s' = s.
Proof.
  unfold pick_subrequest, real. intros H.
  apply bind_ok in H as (s0 & s1 & H0 & H). apply get_ok in H0 as [-> ->].
  destruct (m_now_idx s); [|by apply ret_ok in H as [_ ->]].
  apply bind_ok in H as (rn & s1 & H0 & H).
  apply bind_ok in H0 as (dn & s2 & H0 & H1). apply desc_ok in H0 as [_ ->].
  apply ret_ok in H1 as [-> ->].
  destruct (_ && _); [|by apply ret_ok in H as [_ ->]].
  peel H. by apply ret_ok in H as [_ ->].
Qed.

Lemma bind_global_parameters_quiet E idx gio rq i s s' :
  m_subrequests_gio s !! idx = Some gio →
  (∀ g, g ∈ global_params gio → g.2 ≠ i) →
  bind_global_parameters E idx s = Ok tt s' →
  quiet rq (PIn i) s s'.
Proof.
  intros Hgio Hports H. unfold bind_global_parameters in H.
  apply bind_ok in H as (d & s1 & H0 & H). apply desc_ok in H0 as [_ ->].
  apply bind_ok in H as (s0 & s1 & H0 & H). apply get_ok in H0 as [-> ->].
  apply bind_ok in H as (io & s1 & H0 & H). apply at_ok in H0 as [Hio ->].
  rewrite Hgio in Hio. injection Hio as <-.
  apply bind_ok in H as (pd & s1 & H0 & H). apply desc_ok in H0 as [_ ->].
  apply bind_ok in H as (subr & s1 & H0 & H). apply pick_subrequest_ok in H0 as ->.
  apply bind_ok in H as (copy_list & s1 & Hfold & H).
  apply bind_ok in H as ([] & s2 & Hcopy & H).
  eapply quiet_trans; [|eapply quiet_trans].
  - eapply fold_m_quiet; [|exact Hfold]. intros [pi si] b st b' st' Hg Hb. cbv beta in Hb.
    apply Hports in Hg. simpl in Hg.
    apply bind_ok in Hb as (s3 & s4 & Hb0 & Hb). apply get_ok in Hb0 as [-> ->].
    apply bind_ok in Hb as (gt & s3 & Hb0 & Hb). apply deref_ok in Hb0 as [_ ->].
    apply bind_ok in Hb as (h & s3 & Hb0 & Hb). apply subreq_ok in Hb0 as [_ ->].
    apply bind_ok in Hb as (? & s3 & Hb0 & Hb). apply deref_ok in Hb0 as [_ ->].
    destruct (negb _).
    + destruct (needs_copy E s idx).
      * apply ret_ok in Hb as [_ ->]. apply quiet_refl.
      * apply bind_ok in Hb as ([] & s3 & Hb0 & Hb). apply ret_ok in Hb as [_ ->].
        eapply set_tensor_quiet; [|exact Hb0]. congruence.
    + apply bind_ok in Hb as ([] & s3 & Hb0 & Hb). apply ret_ok in Hb as [_ ->].
      apply quiet_same_trace. by eapply set_spatial_input_trace.
  - eapply for_each_quiet; [|exact Hcopy]. intros y st st' _ Hb. cbv beta in Hb.
    apply bind_ok in Hb as (dst & s3 & Hb0 & Hb). apply get_tensor_ok in Hb0 as [-> _].
    eapply emit_quiet; [|exact Hb]. reflexivity.
  - destruct (bool_decide _).
    2:{ apply ret_ok in H as [_ ->]. apply quiet_refl. }
    apply bind_ok in H as (dst & s3 & H0 & H). apply deref_ok in H0 as [_ ->].
    apply bind_ok in H as (vocab & s3 & H0 & H). apply deref_ok in H0 as [_ ->].
    apply bind_ok in H as (li & s3 & H0 & H). apply deref_ok in H0 as [_ ->].
    apply bind_ok in H as (lp & s3 & H0 & H). apply input_port_ok in H0 as (_ & -> & _).
    apply bind_ok in H as (lk & s3 & H0 & H). apply get_tensor_ok in H0 as [-> _].
    eapply emit_quiet; [|exact H]. reflexivity.
Qed.

(** C7, as stated, fails three ways.  A call to the body at index 1 that
    has no compiled model of its own and whose closure needs no update is
    passed over at construction, so body input [param_base + 0] is not bound
    then; and as the closure is packed, every later [unpack_closure] unpacks
    into that input again.  The input of a body whose closure needs no
    update, bound at construction, is bound again by [unpack_closure] for
    another call of the body whose closure does need the update.  And it is
    bound again by [bind_global_parameters] when the tables wire a global
    parameter to it. *)
Lemma frozen_call_counterexample :
  (compiled_model desc_frozen_call = None
   ∧ replaced_by desc_frozen_call = Some 1
   ∧ update_required desc_frozen_call !! 0 = Some false
   ∧ ∃ s1 s2 s3 t,
       preset_closures (env []) frozen_call_request = Ok tt s1
       ∧ binds_of 1 (PIn 1) (m_trace s1) = []
       ∧ unpack_closure (env []) 2 (Primary 1) s1 = Ok tt s2
       ∧ unpack_closure (env []) 2 (Primary 1) s2 = Ok tt s3
       ∧ m_trace s3 = [EUnpack (packed_in 22) t; EUnpack (packed_in 22) t])
  ∧ (update_required desc_frozen_body !! 0 = Some false
     ∧ replaced_by desc_call = Some 1
     ∧ update_required desc_call !! 0 = Some true
     ∧ ∃ s1 s2,
         preset_closures (env []) frozen_body_request = Ok tt s1
         ∧ unpack_closure (env []) 2 (Primary 1) s1 = Ok tt s2
         ∧ binds_of 1 (PIn 1) (m_trace s2) = [tensor_in 21; tensor_in 22])
  ∧ (global_params <$> m_subrequests_gio closure_fed_request !! 1
       = Some [(0, 1)]
     ∧ ∃ s1 s2,
         preset_closures (env []) closure_fed_request = Ok tt s1
         ∧ bind_global_parameters (env []) 1 s1 = Ok tt s2
         ∧ binds_of 1 (PIn 1) (m_trace s2) = [tensor_in 21; tensor_in 1]).
Proof.
  split; [|split].
  - repeat split.
    exists (after (preset_closures (env [])) frozen_call_request).
    exists (after (preset_closures (env []) ;; unpack_closure (env []) 2 (Primary 1))
              frozen_call_request).
    exists (after (preset_closures (env []) ;; unpack_closure (env []) 2 (Primary 1) ;;
                   unpack_closure (env []) 2 (Primary 1)) frozen_call_request).
    exists (mkTensor f16 [1; 4]%N [8; 2]%N 101 0).
    vm_compute. repeat split.
  - repeat split.
    exists (after (preset_closures (env [])) frozen_body_request).
    exists (after (preset_closures (env []) ;; unpack_closure (env []) 2 (Primary 1))
              frozen_body_request).
    vm_compute. repeat split.
  - split; [reflexivity|].
    exists (after (preset_closures (env [])) closure_fed_request).
    exists (after (preset_closures (env []) ;; bind_global_parameters (env []) 1)
              closure_fed_request).
    vm_compute. repeat split.
Qed.

(** C7, amended.  For a function body [idx] (a descriptor with a compiled
    model that is replaced by itself) and a closure index [c] with
    [update_required[c] = false], the port being body input
    [param_base + c]:

    - the constructor's pass over [idx] binds the port exactly once, to the
      tensor the weights bank gives for the closure, and its pass over a
      subgraph without a compiled model or without [replaced_by] does
      nothing at all;
    - a later [unpack_closure(idx', request)] for a call [idx'] of the body
      whose closure at that port (the index [c'] with
      [param_base' + c' = param_base + c]) needs no update either binds the
      port of no handle and does not copy into it, and unpacks into it
      exactly when the element type of the closure differs from that of the
      tensor bound there;
    - the steps of a later inference do not bind it, on whatever handle:
      [function_prologue(idx')] of such a call, [unsafe_infer] of the body,
      [bind_global_results] of any subgraph, and [bind_global_parameters]
      of any subgraph whose global parameters are wired to other inputs. *)
Theorem frozen_closure_bound_once E idx d cm c cl :
  compiled_model d = Some cm → replaced_by d = Some idx →
  closure d !! c = Some cl → update_required d !! c = Some false →
  let port := PIn (param_base d + c) in
  (∀ s h s',
     m_compiled_submodels s !! idx = Some d →
     m_subrequests s !! idx = Some (Some h) →
     preset_closures_of E idx s = Ok tt s' →
     ∃ evs dev, m_trace s' = m_trace s ++ evs
       ∧ binds_of (rq_id h) port evs = [wbank_get E cl dev])
  ∧ (∀ s i d',
       m_compiled_submodels s !! i = Some d' →
       compiled_model d' = None ∨ replaced_by d' = None →
       preset_closures_of E i s = Ok tt s)
  ∧ (∀ s idx' d' c' cl' request h' s',
       m_compiled_submodels s !! idx' = Some d' →
       replaced_by d' = Some idx →
       param_base d' + c' = param_base d + c →
       closure d' !! c' = Some cl' → update_required d' !! c' = Some false →
       slot s request = Some (Some h') →
       (∀ s1, same_frame s s1 → needs_copy E s1 idx' = needs_copy E s idx') →
       unpack_closure E idx' request s = Ok tt s' →
       ∃ evs clparam,
         spec_unpack_closure d' h' (needs_copy E s idx') = Some evs
         ∧ m_trace s' = m_trace s ++ evs
         ∧ rq_inputs h' !! (param_base d + c) = Some clparam
         ∧ treatment d' h' (needs_copy E s idx') c'
           = Some (if bool_decide (t_type cl' ≠ t_type clparam)
                   then Unpacked else Untouched)
         ∧ ∀ rq, binds_of rq port evs = [])
  ∧ (∀ s idx' d' s' rq,
       m_compiled_submodels s !! idx = Some d →
       m_compiled_submodels s !! idx' = Some d' →
       replaced_by d' = Some idx →
       (∀ c', param_base d' + c' = param_base d + c →
              update_required d' !! c' = Some false) →
       function_prologue E idx' s = Ok tt s' →
       quiet rq port s s')
  ∧ (∀ s s' rq,
       m_compiled_submodels s !! idx = Some d →
       unsafe_infer E idx s = Ok tt s' →
       quiet rq port s s')
  ∧ (∀ s j s' rq,
       bind_global_results j s = Ok tt s' →
       quiet rq port s s')
  ∧ (∀ s j gio s' rq,
       m_subrequests_gio s !! j = Some gio →
       (∀ g, g ∈ global_params gio → g.2 ≠ param_base d + c) →
       bind_global_parameters E j s = Ok tt s' →
       quiet rq port s s').
Proof.
  intros Hcm Hrep Hcl Hupd port. subst port.
  split; [|split; [|split; [|split; [|split; [|split]]]]].
  - intros s h s' Hd Hh H. by eapply preset_binds_once.
  - intros s i d' Hd' Hnone. unfold preset_closures_of, desc. run_m.
    rewrite Hd'. simpl. destruct Hnone as [-> | ->]; [done|].
    by destruct (compiled_model d').
  - intros s idx' d' c' cl' request h' s' Hd' Hrep' Hpb Hcl' Hupd' Hh Hcopy H.
    rewrite <- Hpb.
    by eapply unpack_closure_frozen.
  - intros s idx' d' s' rq Hd Hd' Hrep' Hfz H.
    eapply (function_prologue_quiet E idx' d' idx d); try done. lia.
  - intros s s' rq Hd H. eapply unsafe_infer_quiet; [done| |done]. lia.
  - intros s j s' rq H. by eapply bind_global_results_quiet.
  - intros s j gio s' rq Hgio Hports H. by eapply bind_global_parameters_quiet.
Qed.

Lemma frozen_closure_bound_once_witness :
  let E := env [] in
  let s0 := frozen_pair_request in
  let s1 := after (preset_closures_of E 1) s0 in
  let h := handle 1 cm_body in
  let h' := rebind h (PIn 1) (tensor_in 21) in
  (∃ evs dev, m_trace s1 = m_trace s0 ++ evs
     ∧ binds_of (rq_id h) (PIn 1) evs = [wbank_get E (tensor_in 21) dev])
  ∧ preset_closures_of E 2 s0 = Ok tt s0
  ∧ (∃ evs clparam,
       spec_unpack_closure desc_frozen_call h' (needs_copy E s1 2) = Some evs
       ∧ m_trace (after (unpack_closure E 2 (Primary 1)) s1) = m_trace s1 ++ evs
       ∧ rq_inputs h' !! 1 = Some clparam
       ∧ treatment desc_frozen_call h' (needs_copy E s1 2) 0
         = Some (if bool_decide (t_type (packed_in 22) ≠ t_type clparam)
                 then Unpacked else Untouched)
       ∧ ∀ rq, binds_of rq (PIn 1) evs = [])
  ∧ (∀ rq, quiet rq (PIn 1) s1 (after (function_prologue E 2) s1))
  ∧ (∀ rq, quiet rq (PIn 1) s1 (after (unsafe_infer E 1) s1))
  ∧ (∀ rq, quiet rq (PIn 1) s1 (after (bind_global_results 0) s1))
  ∧ (∀ rq, quiet rq (PIn 1) s1 (after (bind_global_parameters E 0) s1)).
Proof.
  intros E s0 s1 h h'.
  destruct (frozen_closure_bound_once E 1 desc_frozen_body cm_body 0 (tensor_in 21)
              eq_refl eq_refl eq_refl eq_refl)
    as (Hpre & Hskip & Hunp & Hpro & Hinf & Hres & Hpar).
  split; [|split; [|split; [|split; [|split; [|split]]]]].
  - apply (Hpre s0 h s1); vm_compute; reflexivity.
  - apply (Hskip s0 2 desc_frozen_call); [reflexivity|by left].
  - apply (Hunp s1 2 desc_frozen_call 0 (packed_in 22) (Primary 1) h');
      vm_compute; reflexivity.
  - intros rq. apply (Hpro s1 2 desc_frozen_call); try (vm_compute; reflexivity).
    intros [|c'] Hc'; [reflexivity|simpl in Hc'; lia].
  - intros rq. apply (Hinf s1); vm_compute; reflexivity.
  - intros rq. apply (Hres s1 0). vm_compute; reflexivity.
  - intros rq. apply (Hpar s1 0 (mkGlobalIO [(0, 0)] [])); [reflexivity| |vm_compute; reflexivity].
    intros g Hg. apply list_elem_of_singleton in Hg as ->. discriminate.
Defined.

End FrozenFacts.
